(** * Dijkstra over a weighted directed graph

    A shallow embedding of [src/utils/Graph.ts] (classes [Graph] and
    [WeightedGraph]) and of [src/main.ts] ([Dijkstra] and [tracePath]),
    followed by the properties established about them.

    Modelling conventions.
    - A [node] is a JavaScript string or number; numbers are taken in [Z].
    - A [Map<N, Set<N>>] keeps insertion order, which the iterators expose:
      it is an association list, and a [Set<N>] is a list without repeats.
    - The maps that are only read by key ([weights], [dist], [prev],
      [QMapping]) are finite maps.
    - A numeric weight is an integer. Numbers are IEEE 754 doubles: the sum
      of line 85 is the exact sum rounded to the nearest double, and
      [Infinity] once it leaves their range; an absent weight makes the sum
      [NaN].
    - A thrown exception, and the exhaustion of the fuel that bounds the two
      [while] loops, are outcomes of their own. *)

From Stdlib Require Import ZArith Ascii String List Lia.
From stdpp Require Import base option list gmap strings pretty fin_maps.

Local Open Scope string_scope.
Local Open Scope Z_scope.
Local Open Scope list_scope.

(** ** Nodes *)

(** [type node = string | number] *)
Inductive node : Type :=
  | Str (s : string)
  | Num (z : Z).

#[global] Instance node_eq_dec : EqDecision node.
Proof. solve_decision. Defined.

Definition node_to_sum (n : node) : string + Z :=
  match n with Str s => inl s | Num z => inr z end.

Definition node_of_sum (x : string + Z) : node :=
  match x with inl s => Str s | inr z => Num z end.

#[global] Instance node_countable : Countable node.
Proof.
  apply (inj_countable' node_to_sum node_of_sum).
  intros []; reflexivity.
Defined.

(** [nullNode] is a fresh symbol: [None] below; [nodeOrNullNode<N>]. *)
Definition nodeOrNullNode : Type := option node.
Definition nullNode : nodeOrNullNode := None.

(** The text a node contributes to a template literal: a string as it is,
    and an integer by its decimal digits. That is what the language prints
    for the safe integers, those below 2^53 in magnitude; beyond, it prints
    the shortest digits that identify the double, in exponent form from
    10^21 on. The properties that rest on keys being told apart are stated
    for strings and safe integers ([safeNode]). *)
Definition toString (n : node) : string :=
  match n with
  | Str s => s
  | Num z => @pretty Z _ z
  end.

(** Truthiness of a node value: [0] and the empty string are falsy. *)
Definition truthy (n : node) : bool :=
  match n with
  | Str s => negb (String.eqb s "")
  | Num z => negb (Z.eqb z 0)
  end.

(** ** Outcomes of a call *)

Inductive outcome (A : Type) : Type :=
  | Return (a : A)
  | Throw (msg : string)
  | OutOfFuel.
Arguments Return {A} a.
Arguments Throw {A} msg.
Arguments OutOfFuel {A}.

Definition bind {A B : Type} (m : outcome A) (k : A -> outcome B) : outcome B :=
  match m with
  | Return a => k a
  | Throw msg => Throw msg
  | OutOfFuel => OutOfFuel
  end.

Notation "'let!' x ':=' m 'in' k" := (bind m (fun x => k))
  (at level 10, x name, m at level 100, k at level 200).

(** A [for (const v of xs)] loop whose body may throw. *)
Fixpoint forOf {A S : Type} (body : S -> A -> outcome S) (xs : list A) (st : S)
  : outcome S :=
  match xs with
  | [] => Return st
  | x :: xs' => let! st' := body st x in forOf body xs' st'
  end.

(** ** Insertion-ordered [Map] and [Set] *)

Module JSSet.
Definition has (s : list node) (n : node) : bool := bool_decide (n ∈ s).

Definition add (s : list node) (n : node) : list node :=
  if has s n then s else s ++ [n].

Definition delete (s : list node) (n : node) : list node :=
  filter (fun x => x <> n) s.
End JSSet.

Module JSMap.
Section WithValue.
Context {V : Type}.

Fixpoint get (m : list (node * V)) (k : node) : option V :=
  match m with
  | [] => None
  | (k', v) :: m' => if decide (k' = k) then Some v else get m' k
  end.

Definition has (m : list (node * V)) (k : node) : bool :=
  match get m k with Some _ => true | None => false end.

Fixpoint set (m : list (node * V)) (k : node) (v : V) : list (node * V) :=
  match m with
  | [] => [(k, v)]
  | (k', v') :: m' =>
      if decide (k' = k) then (k, v) :: m' else (k', v') :: set m' k v
  end.

Definition keys (m : list (node * V)) : list node := map fst m.
End WithValue.
End JSMap.

(** ** class Graph *)

Module Graph.

Record t : Type := mk { adj : list (node * list node) }.

(** [new Graph()] *)
Definition new : t := mk [].

Definition addNode (G : t) (n : node) : t :=
  if negb (JSMap.has (adj G) n) then mk (JSMap.set (adj G) n []) else G.

Definition addArc (G : t) (n1 n2 : node) : t :=
  let G1 := addNode G n1 in
  let G2 := addNode G1 n2 in
  match JSMap.get (adj G2) n1 with
  | Some s => mk (JSMap.set (adj G2) n1 (JSSet.add s n2))
  | None => G2
  end.

Definition removeArc (G : t) (n1 n2 : node) : t :=
  match JSMap.get (adj G) n1 with
  | Some s => mk (JSMap.set (adj G) n1 (JSSet.delete s n2))
  | None => G
  end.

Definition addEdge (G : t) (n1 n2 : node) : t :=
  addArc (addArc G n1 n2) n2 n1.

Definition removeEdge (G : t) (n1 n2 : node) : t :=
  removeArc (removeArc G n1 n2) n2 n1.

Definition arc (G : t) (n1 n2 : node) : bool :=
  match JSMap.get (adj G) n1 with
  | Some s => JSSet.has s n2
  | None => false
  end.

Definition edge (G : t) (n1 n2 : node) : bool := arc G n1 n2 && arc G n2 n1.

Definition adjacent (G : t) (n1 n2 : node) : bool := arc G n1 n2 || arc G n2 n1.

Definition nodesIterator (G : t) : list node := JSMap.keys (adj G).

Definition nodes (G : t) : list node := nodesIterator G.

Definition neighborsIterator (G : t) (n : node) : option (list node) :=
  JSMap.get (adj G) n.

Definition neighbors (G : t) (n : node) : list node :=
  default [] (neighborsIterator G n).

(** [get ordre()]: the size of the adjacency map. *)
Definition ordre (G : t) : nat := length (adj G).

(** [this.adj.get(n)?.size ?? 0] *)
Definition degree (G : t) (n : node) : nat :=
  match JSMap.get (adj G) n with
  | Some s => length s
  | None => 0%nat
  end.

(** [get edges()]: the two index loops, [y] starting at [x]. *)
Definition edges (G : t) : list (node * node) :=
  let n := nodes G in
  flat_map
    (fun x =>
       flat_map
         (fun y =>
            match n !! x, n !! y with
            | Some nx, Some ny => if edge G nx ny then [(nx, ny)] else []
            | _, _ => []
            end)
         (seq x (length n - x)))
    (seq 0 (length n)).

(** [get arcs()]: every ordered pair of nodes that is an arc. *)
Definition arcs (G : t) : list (node * node) :=
  let n := nodes G in
  flat_map
    (fun n1 => flat_map (fun n2 => if arc G n1 n2 then [(n1, n2)] else []) n)
    n.

(** [this.nodes.filter((n1) => this.adjacent(n, n1))] *)
Definition connections (G : t) (n : node) : list node :=
  List.filter (fun n1 => adjacent G n n1) (nodes G).

End Graph.

(** ** class WeightedGraph extends Graph *)

(** [type weightKey<N> = `${N}-${N}`] *)
Definition weightKey (n1 n2 : node) : string :=
  (toString n1 ++ "-" ++ toString n2)%string.

Module WeightedGraph.

Record t : Type := mk { super : Graph.t; weights : gmap string Z }.

(** [new WeightedGraph(adj?, weights?)]: the two maps are taken when both
    are given, and the graph starts empty otherwise. *)
Definition constructor (adj : option (list (node * list node)))
    (weights : option (gmap string Z)) : t :=
  match adj, weights with
  | Some adj, Some weights => mk (Graph.mk adj) weights
  | _, _ => mk Graph.new ∅
  end.

(** [new WeightedGraph()] *)
Definition new : t := constructor None None.

Definition adj (G : t) : list (node * list node) := Graph.adj (super G).

(** Inherited unchanged from [Graph]. *)
Definition addNode (G : t) (n : node) : t :=
  mk (Graph.addNode (super G) n) (weights G).

Definition arc (G : t) (n1 n2 : node) : bool := Graph.arc (super G) n1 n2.

Definition nodesIterator (G : t) : list node := Graph.nodesIterator (super G).

Definition neighborsIterator (G : t) (n : node) : option (list node) :=
  Graph.neighborsIterator (super G) n.

(** [addArc(n1, n2, w = 0)]: an omitted (undefined) weight defaults to 0. *)
Definition addArc (G : t) (n1 n2 : node) (w : option Z) : t :=
  let w := default 0 w in
  mk (Graph.addArc (super G) n1 n2) (<[weightKey n1 n2 := w]> (weights G)).

Definition removeArc (G : t) (n1 n2 : node) : t :=
  mk (Graph.removeArc (super G) n1 n2) (delete (weightKey n1 n2) (weights G)).

Definition addEdge (G : t) (n1 n2 : node) (w : option Z) : t :=
  addArc (addArc G n1 n2 w) n2 n1 w.

Definition removeEdge (G : t) (n1 n2 : node) : t :=
  removeArc (removeArc G n1 n2) n2 n1.

(** [weight(n1, n2)]: throws on a missing arc; the value read from
    [weights] is returned as it is, so [None] is JavaScript's [undefined]. *)
Definition weight (G : t) (n1 n2 : node) : outcome (option Z) :=
  if negb (arc G n1 n2) then Throw "Invalid nodes"
  else Return (weights G !! weightKey n1 n2).

End WeightedGraph.

(** ** Numbers *)

(** The values held by the distance map: an integer or [Infinity]. *)
Inductive number : Type :=
  | Finite (z : Z)
  | Infinity.

#[global] Instance number_eq_dec : EqDecision number.
Proof. solve_decision. Defined.

(** [a < b] on numbers. *)
Definition number_ltb (a b : number) : bool :=
  match a, b with
  | Finite x, Finite y => Z.ltb x y
  | Finite _, Infinity => true
  | Infinity, _ => false
  end.

(** *** The sum of two numbers

    Every integer up to 2^53 in magnitude is a double. Beyond, the doubles
    between 2^l and 2^(l+1) are the multiples of 2^(l-52), and the largest
    one is 2^1024 - 2^971. *)
Definition two53 : Z := Eval vm_compute in 2 ^ 53.
Definition two1024 : Z := Eval vm_compute in 2 ^ 1024.

(** The multiple of [g] nearest to [z]; of two that are as near, the one
    whose quotient by [g] is even. *)
Definition roundToGrid (g z : Z) : Z :=
  let q := z / g in
  let r := z mod g in
  if 2 * r <? g then q * g
  else if g <? 2 * r then (q + 1) * g
  else if Z.even q then q * g else (q + 1) * g.

(** The double nearest to the integer [0 <= z], ties to the even
    significand; [Infinity] when the rounding reaches 2^1024. *)
Definition roundPos (z : Z) : number :=
  if z <=? two53 then Finite z
  else
    let c := roundToGrid (2 ^ (Z.log2 z - 52)) z in
    if two1024 <=? c then Infinity else Finite c.

(** [-Infinity], which only a sum of negative weights can reach, is kept as
    the integer below every double. *)
Definition negInfinity : Z := - two1024.

Definition roundDouble (z : Z) : number :=
  if 0 <=? z then roundPos z
  else
    match roundPos (- z) with
    | Finite c => Finite (- c)
    | Infinity => Finite negInfinity
    end.

(** [a + b] on two finite numbers. *)
Definition jsAdd (a b : Z) : number :=
  if (a <=? negInfinity) || (b <=? negInfinity) then Finite negInfinity
  else roundDouble (a + b).

(** [a + b] when [a] may be [Infinity]. *)
Definition addNumber (a : number) (b : Z) : number :=
  match a with
  | Finite x => jsAdd x b
  | Infinity => Infinity
  end.

(** The number a string converts to when it is compared with [==] or [!=]
    against a number; [None] when it converts to no integer. The conversion
    belongs to the language, not to the repository: it is a parameter. *)
Class ToNumber : Type := StringToNumber : string -> option Z.

(** [a != b], the loose inequality of line 70. *)
Definition looseNeq {TN : ToNumber} (a b : node) : bool :=
  match a, b with
  | Str x, Str y => negb (bool_decide (x = y))
  | Num x, Num y => negb (bool_decide (x = y))
  | Str x, Num y => negb (bool_decide (StringToNumber x = Some y))
  | Num x, Str y => negb (bool_decide (StringToNumber y = Some x))
  end.

(** ** The priority queue

    [FibonacciHeap<number, N>] comes from the package
    [@tyriar/fibonacci-heap]: the engine relies on its contract only. The
    contract is stated through [Q_contents], the pending entries of a heap as
    a map from value to key. A handle ([INode]) is identified by the value
    it carries: the engine holds at most one live handle for a node. *)
Class FibonacciHeap : Type := {
  heap : Type;
  Q_new : heap;
  Q_isEmpty : heap -> bool;
  Q_insert : heap -> Z -> node -> heap;
  Q_decreaseKey : heap -> node -> Z -> heap;
  Q_extractMinimum : heap -> option (Z * node * heap);
  Q_contents : heap -> gmap node Z;
  Q_new_spec : Q_contents Q_new = ∅;
  Q_isEmpty_spec : forall h, Q_isEmpty h = true <-> Q_contents h = ∅;
  Q_insert_spec : forall h k v,
    Q_contents h !! v = None ->
    Q_contents (Q_insert h k v) = <[v := k]> (Q_contents h);
  Q_decreaseKey_spec : forall h v k k0,
    Q_contents h !! v = Some k0 -> k <= k0 ->
    Q_contents (Q_decreaseKey h v k) = <[v := k]> (Q_contents h);
  Q_extractMinimum_None : forall h,
    Q_extractMinimum h = None <-> Q_contents h = ∅;
  Q_extractMinimum_Some : forall h k v h',
    Q_extractMinimum h = Some (k, v, h') ->
    Q_contents h !! v = Some k
    /\ (forall v' k', Q_contents h !! v' = Some k' -> k <= k')
    /\ Q_contents h' = delete v (Q_contents h)
}.

(** ** main.ts *)

Record DijkstraOptions : Type := { maxCumulWeight : Z }.

(** What [Dijkstra] returns: a path, or the pair [[dist, prev]]. *)
Inductive result : Type :=
  | Path (p : list node)
  | Maps (dist : gmap node number) (prev : gmap node nodeOrNullNode).

(** [dist.get(v) ?? Infinity] *)
Definition getDist (dist : gmap node number) (v : node) : number :=
  default Infinity (dist !! v).

(** [prev.get(e) ?? nullNode] *)
Definition getPrev (prev : gmap node nodeOrNullNode) (e : node) : nodeOrNullNode :=
  default nullNode (prev !! e).

(** [while (e !== nullNode) { path = [e, ...path]; e = prev.get(e) ?? nullNode }] *)
Fixpoint tracePath_while (fuel : nat) (prev : gmap node nodeOrNullNode)
    (e : nodeOrNullNode) (path : list node) : outcome (list node) :=
  match e with
  | None => Return path
  | Some n =>
      match fuel with
      | 0%nat => OutOfFuel
      | S fuel' => tracePath_while fuel' prev (getPrev prev n) (n :: path)
      end
  end.

(** [source && e === source] *)
Definition isSource (source : option node) (e : node) : bool :=
  match source with
  | Some s => truthy s && bool_decide (e = s)
  | None => false
  end.

Definition tracePath (fuel : nat) (prev : gmap node nodeOrNullNode)
    (target : node) (source : option node) : outcome (list node) :=
  if negb (bool_decide (prev !! target = Some nullNode)) || isSource source target
  then tracePath_while fuel prev (Some target) []
  else Return [].

Section Engine.
Context {FH : FibonacciHeap} {TN : ToNumber}.

(** The four structures owned by one call. *)
Record state : Type := mkState {
  dist : gmap node number;
  prev : gmap node nodeOrNullNode;
  Q : heap;
  QMapping : gmap node (option node)
}.

(** Lines 66 to 71. *)
Definition init (G : WeightedGraph.t) (s : node) : state :=
  fold_left
    (fun st e =>
       mkState (if looseNeq e s then <[e := Infinity]> (dist st) else dist st)
               (<[e := nullNode]> (prev st)) (Q st) (QMapping st))
    (WeightedGraph.nodesIterator G)
    (mkState {[s := Finite 0]} ∅ (Q_insert Q_new 0 s) {[s := Some s]}).

(** [O && alt > O.maxCumulWeight] *)
Definition overBudget (O : option DijkstraOptions) (alt : number) : bool :=
  match O with
  | Some o => number_ltb (Finite (maxCumulWeight o)) alt
  | None => false
  end.

(** The body of the [for] loop, lines 85 to 96, for the extracted entry
    [(key, u)] and its neighbour [v]. *)
Definition relax (G : WeightedGraph.t) (O : option DijkstraOptions)
    (key : Z) (u : node) (st : state) (v : node) : outcome state :=
  let! w := WeightedGraph.weight G u v in
  match w with
  | None => Return st
  | Some w =>
      let alt := jsAdd key w in
      if overBudget O alt then Return st
      else if number_ltb alt (getDist (dist st) v) then
        match alt with
        | Finite alt =>
            let dist' := <[v := Finite alt]> (dist st) in
            let prev' := <[v := Some u]> (prev st) in
            match QMapping st !! v with
            | Some (Some vINode) =>
                Return (mkState dist' prev' (Q_decreaseKey (Q st) vINode alt)
                                (QMapping st))
            | _ =>
                Return (mkState dist' prev' (Q_insert (Q st) alt v)
                                (<[v := Some v]> (QMapping st)))
            end
        | Infinity => Return st
        end
      else Return st
  end.

(** [t !== undefined && min.value === t] *)
Definition isTarget (t : option node) (value : node) : bool :=
  match t with
  | Some t => bool_decide (value = t)
  | None => false
  end.

(** The [while] loop, lines 73 to 98. *)
Fixpoint loop (fuel : nat) (G : WeightedGraph.t) (t : option node)
    (O : option DijkstraOptions) (st : state) : outcome state :=
  match fuel with
  | 0%nat => OutOfFuel
  | S fuel' =>
      if Q_isEmpty (Q st) then Return st
      else
        match Q_extractMinimum (Q st) with
        | None => Throw "TypeError"
        | Some (key, value, Q') =>
            let st1 := mkState (dist st) (prev st) Q'
                               (<[value := None]> (QMapping st)) in
            if isTarget t value then Return st1
            else
              let! st2 :=
                forOf (relax G O key value)
                      (default [] (WeightedGraph.neighborsIterator G value)) st1 in
              loop fuel' G t O st2
        end
  end.

(** [Dijkstra(G, [s, t], O)]; [t] and [O] are optional. *)
Definition Dijkstra (fuel : nat) (G : WeightedGraph.t) (s : node)
    (t : option node) (O : option DijkstraOptions) : outcome result :=
  let! st := loop fuel G t O (init G s) in
  match t with
  | Some t =>
      let! p := tracePath fuel (prev st) t (Some s) in
      Return (Path p)
  | None => Return (Maps (dist st) (prev st))
  end.

End Engine.

Arguments state {_}.
Arguments mkState {_} _ _ _ _.

(** ** The graph of the concrete scenarios *)

Definition A : node := Str "A".
Definition B : node := Str "B".
Definition C : node := Str "C".
Definition D : node := Str "D".

(** Arcs A→B (1), B→C (2), A→C (5). *)
Definition G3 : WeightedGraph.t :=
  WeightedGraph.addArc
    (WeightedGraph.addArc
       (WeightedGraph.addArc WeightedGraph.new A B (Some 1)) B C (Some 2))
    A C (Some 5).

(** Sequences of calls on a graph that starts empty. *)
Inductive call : Type :=
  | AddNode (n : node)
  | AddArc (n1 n2 : node) (w : option Z)
  | AddEdge (n1 n2 : node) (w : option Z)
  | RemoveArc (n1 n2 : node)
  | RemoveEdge (n1 n2 : node).

Definition perform (G : WeightedGraph.t) (c : call) : WeightedGraph.t :=
  match c with
  | AddNode n => WeightedGraph.addNode G n
  | AddArc n1 n2 w => WeightedGraph.addArc G n1 n2 w
  | AddEdge n1 n2 w => WeightedGraph.addEdge G n1 n2 w
  | RemoveArc n1 n2 => WeightedGraph.removeArc G n1 n2
  | RemoveEdge n1 n2 => WeightedGraph.removeEdge G n1 n2
  end.

Definition build (cs : list call) : WeightedGraph.t :=
  fold_left perform cs WeightedGraph.new.

Definition mentioned (c : call) : list node :=
  match c with
  | AddNode n => [n]
  | AddArc n1 n2 _ | AddEdge n1 n2 _ | RemoveArc n1 n2 | RemoveEdge n1 n2 => [n1; n2]
  end.

(** The weight map holds an entry for the ordered pair. *)
Definition hasWeight (G : WeightedGraph.t) (n1 n2 : node) : bool :=
  bool_decide (is_Some (WeightedGraph.weights G !! weightKey n1 n2)).

(** The keys of the pairs over [dom] are pairwise distinct. *)
Definition keysDistinct (dom : list node) : Prop :=
  forall a b c d, a ∈ dom -> b ∈ dom -> c ∈ dom -> d ∈ dom ->
    weightKey a b = weightKey c d -> a = c /\ b = d.

(** The distance and predecessor maps of the first scenario. *)
Definition G3dist : gmap node number :=
  <[C := Finite 3]> (<[B := Finite 1]> {[A := Finite 0]}).

Definition G3prev : gmap node nodeOrNullNode :=
  <[C := Some B]> (<[B := Some A]> {[A := nullNode]}).

(** A graph whose only node is the number 0. *)
Definition Gzero : WeightedGraph.t :=
  WeightedGraph.addNode WeightedGraph.new (Num 0).

(** Two calls whose pairs share the key ["a-b-c"]. *)
Definition Gclash : WeightedGraph.t :=
  build [AddArc (Str "a-b") (Str "c") (Some 1); RemoveArc (Str "a") (Str "b-c")].

(** [new WeightedGraph(adj, weights)] on an adjacency whose neighbour [B]
    is no key. *)
Definition Gdangling : WeightedGraph.t :=
  WeightedGraph.constructor (Some [(A, [B])]) (Some {[weightKey A B := 7]}).

(** ** Vocabulary of the properties *)

(** Every arc carries a weight, and no weight is negative. *)
Definition nonNegative (G : WeightedGraph.t) : Prop :=
  forall u v, WeightedGraph.arc G u v = true ->
    exists w, WeightedGraph.weights G !! weightKey u v = Some w /\ 0 <= w.

(** [v] can be reached from [s] along arcs. *)
Inductive reachable (G : WeightedGraph.t) (s : node) : node -> Prop :=
  | reachable_refl : reachable G s s
  | reachable_step u v :
      reachable G s u -> WeightedGraph.arc G u v = true -> reachable G s v.

(** The weight of the walk that leaves [u] with the weight [acc] behind it
    and goes on through [rest]: each arc adds its weight to the sum so far,
    as line 85 does from the source on; [None] when a step is no arc or has
    no weight. *)
Fixpoint weightFrom (G : WeightedGraph.t) (acc : number) (u : node)
    (rest : list node) : option number :=
  match rest with
  | [] => Some acc
  | v :: rest' =>
      match WeightedGraph.weight G u v with
      | Return (Some w) => weightFrom G (addNumber acc w) v rest'
      | _ => None
      end
  end.

(** The sum of the arc weights along a path, taken from its first node
    on. *)
Definition pathWeight (G : WeightedGraph.t) (p : list node) : option number :=
  match p with
  | [] => Some (Finite 0)
  | u :: rest => weightFrom G (Finite 0) u rest
  end.

(** The walk of [tracePath]'s loop from [v] back to a node without
    predecessor, read from that node to [v]. *)
Inductive traces (prev : gmap node nodeOrNullNode) : node -> list node -> Prop :=
  | traces_root v : getPrev prev v = None -> traces prev v [v]
  | traces_step v u p :
      getPrev prev v = Some u -> traces prev u p -> traces prev v (p ++ [v]).

(** Every node a search from [s] can meet. *)
Definition universe (G : WeightedGraph.t) (s : node) : list node :=
  s :: WeightedGraph.nodesIterator G ++ concat (map snd (WeightedGraph.adj G)).

(** [a <= b] on numbers. *)
Definition number_le (a b : number) : Prop :=
  match a, b with
  | Finite x, Finite y => x <= y
  | _, Infinity => True
  | Infinity, Finite _ => False
  end.

(** [nonNegative], as a test on the adjacency and the weights. *)
Definition nonNegativeb (G : WeightedGraph.t) : bool :=
  forallb
    (fun e : node * list node =>
       forallb
         (fun v =>
            match WeightedGraph.weights G !! weightKey (fst e) v with
            | Some w => Z.leb 0 w
            | None => false
            end)
         (snd e))
    (WeightedGraph.adj G).

(** No pending entry other than [u] has a key as small as [k]. *)
Definition uniqueMinimum (c : gmap node Z) (u : node) (k : Z) : bool :=
  forallb (fun e : node * Z => bool_decide (fst e = u) || Z.ltb k (snd e))
          (map_to_list c).

(** The run of [loop] never has two pending entries tie for the minimum. *)
Fixpoint tieFree {FH : FibonacciHeap} (fuel : nat) (G : WeightedGraph.t)
    (t : option node) (O : option DijkstraOptions) (st : state) : bool :=
  match fuel with
  | 0%nat => true
  | S fuel' =>
      if Q_isEmpty (Q st) then true
      else
        match Q_extractMinimum (Q st) with
        | None => true
        | Some (key, value, Q') =>
            uniqueMinimum (Q_contents (Q st)) value key
            && (if isTarget t value then true
                else
                  match forOf (relax G O key value)
                          (default [] (WeightedGraph.neighborsIterator G value))
                          (mkState (dist st) (prev st) Q'
                                   (<[value := None]> (QMapping st))) with
                  | Return st2 => tieFree fuel' G t O st2
                  | _ => true
                  end)
        end
  end.

(** The handle table, the queue and the distances of a state fit together. *)
Record tidy {FH : FibonacciHeap} (st : state) : Prop := {
  tidy_handle : forall v h, QMapping st !! v = Some (Some h) ->
    h = v /\ is_Some (Q_contents (Q st) !! v);
  tidy_queued : forall v, is_Some (Q_contents (Q st) !! v) ->
    QMapping st !! v = Some (Some v);
  tidy_key : forall v k, Q_contents (Q st) !! v = Some k ->
    getDist (dist st) v = Finite k
}.

(** Two states, over two priority queues, that hold the same data. *)
Definition same {FH1 FH2 : FibonacciHeap}
    (st1 : @state FH1) (st2 : @state FH2) : Prop :=
  dist st1 = dist st2 /\ prev st1 = prev st2
  /\ QMapping st1 = QMapping st2
  /\ Q_contents (Q st1) = Q_contents (Q st2).

Definition sameOutcome {FH1 FH2 : FibonacciHeap}
    (o1 : outcome (@state FH1)) (o2 : outcome (@state FH2)) : Prop :=
  match o1, o2 with
  | Return st1, Return st2 => same st1 st2
  | Throw m1, Throw m2 => m1 = m2
  | OutOfFuel, OutOfFuel => True
  | _, _ => False
  end.

(** The candidate distance of a relaxation that goes through. *)
Definition candidate (G : WeightedGraph.t) (O : option DijkstraOptions)
    (k : Z) (u : node) (dist : gmap node number) (v : node) : option Z :=
  match WeightedGraph.weight G u v with
  | Return (Some w) =>
      match jsAdd k w with
      | Finite alt =>
          if overBudget O (Finite alt) then None
          else if number_ltb (Finite alt) (getDist dist v) then Some alt
          else None
      | Infinity => None
      end
  | _ => None
  end.

(** Both nodes are strings, or both are numbers. *)
Definition sameKind (a b : node) : bool :=
  match a, b with
  | Str _, Str _ | Num _, Num _ => true
  | _, _ => false
  end.

(** ** Vocabulary of the further properties *)

(** The adjacency is what the calls of the class build: no node twice, no
    neighbour twice, every neighbour a node. *)
Definition wellFormed (G : Graph.t) : Prop :=
  NoDup (Graph.nodes G)
  /\ forall n l, JSMap.get (Graph.adj G) n = Some l ->
       NoDup l /\ forall v, v ∈ l -> v ∈ Graph.nodes G.

(** The weight a call stores, if it stores one, is not negative. *)
Definition storesNonNegative (c : call) : Prop :=
  match c with
  | AddArc _ _ w | AddEdge _ _ w => 0 <= default 0 w
  | _ => True
  end.

(** The node met after [n] steps of [tracePath]'s loop from [e], or
    [nullNode] if the loop has stopped by then. *)
Fixpoint ancestor (prev : gmap node nodeOrNullNode) (n : nat)
    (e : nodeOrNullNode) : nodeOrNullNode :=
  match n with
  | 0%nat => e
  | S n' =>
      match e with
      | Some v => ancestor prev n' (getPrev prev v)
      | None => nullNode
      end
  end.

(** Every distance recorded is within the bound, the initial 0 of the
    source apart. *)
Definition withinBudget {FH : FibonacciHeap} (s : node) (o : DijkstraOptions)
    (st : state) : Prop :=
  forall x d, getDist (dist st) x = Finite d ->
    d <= maxCumulWeight o \/ (x = s /\ d = 0).

(** Every arc that leaves a finalised node has been relaxed: the head of
    the arc is no farther than through that node. *)
Definition settled {FH : FibonacciHeap} (G : WeightedGraph.t)
    (fin : list node) (st : state) : Prop :=
  forall u v du w,
    u ∈ fin -> getDist (dist st) u = Finite du ->
    WeightedGraph.weight G u v = Return (Some w) ->
    number_le (getDist (dist st) v) (jsAdd du w).

(** A string, or an integer that the template literal prints digit for
    digit ([Number.isSafeInteger]). *)
Definition safeNode (n : node) : Prop :=
  match n with
  | Str _ => True
  | Num z => Z.abs z < two53
  end.

(** ** A reference priority queue

    The pending entries themselves, as a finite map; the minimum is searched
    among them. It serves to run the engine on concrete graphs. *)
Module MapHeap.

Definition better (e : node * Z) (acc : option (node * Z)) : option (node * Z) :=
  match acc with
  | None => Some e
  | Some m => if Z.leb (snd e) (snd m) then Some e else Some m
  end.

Definition minimum (l : list (node * Z)) : option (node * Z) :=
  foldr better None l.

Definition extractMinimum (h : gmap node Z) : option (Z * node * gmap node Z) :=
  match minimum (map_to_list h) with
  | Some (v, k) => Some (k, v, delete v h)
  | None => None
  end.

Definition isEmpty (h : gmap node Z) : bool := bool_decide (h = ∅).

Lemma minimum_None l : minimum l = None <-> l = [].
Proof.
  destruct l as [|e l]; simpl; [tauto|].
  split; [|discriminate].
  unfold better. destruct (minimum l) as [m|]; [|discriminate].
  destruct (Z.leb (snd e) (snd m)); discriminate.
Qed.

Lemma minimum_Some l e :
  minimum l = Some e -> e ∈ l /\ forall e', e' ∈ l -> snd e <= snd e'.
Proof.
  revert e. induction l as [|a l IH]; intros e; simpl; [discriminate|].
  unfold better. destruct (minimum l) as [m|] eqn:Hm.
  - destruct (IH m eq_refl) as [Hin Hle].
    destruct (Z.leb (snd a) (snd m)) eqn:Hc; intros [= <-].
    + apply Z.leb_le in Hc. split; [left|].
      intros e' [->|He']%elem_of_cons; [lia|]. specialize (Hle e' He'). lia.
    + apply Z.leb_gt in Hc. split; [by right|].
      intros e' [->|He']%elem_of_cons; [lia|]. by apply Hle.
  - intros [= <-]. apply minimum_None in Hm as ->. split; [left|].
    intros e' [->|He']%elem_of_cons; [lia|]. by apply elem_of_nil in He'.
Qed.

#[refine] Definition instance : FibonacciHeap := {|
  heap := gmap node Z;
  Q_new := ∅;
  Q_isEmpty := isEmpty;
  Q_insert := fun h k v => <[v := k]> h;
  Q_decreaseKey := fun h v k => <[v := k]> h;
  Q_extractMinimum := extractMinimum;
  Q_contents := fun h => h
|}.
Proof.
  - reflexivity.
  - intros h. unfold isEmpty. apply bool_decide_eq_true.
  - reflexivity.
  - reflexivity.
  - intros h. unfold extractMinimum.
    destruct (minimum (map_to_list h)) as [[v k]|] eqn:Hm.
    + split; [discriminate|]. intros ->. by rewrite map_to_list_empty in Hm.
    + split; [|done]. intros _. apply minimum_None in Hm.
      by apply map_to_list_empty_iff.
  - intros h k v h'. unfold extractMinimum.
    destruct (minimum (map_to_list h)) as [[v0 k0]|] eqn:Hm; [|discriminate].
    intros [= -> -> <-]. apply minimum_Some in Hm as [Hin Hle].
    apply elem_of_map_to_list in Hin. split; [done|]. split; [|done].
    intros v' k' Hv'. apply (Hle (v', k')). by apply elem_of_map_to_list.
Defined.

End MapHeap.

(** A second reference queue, which settles a tie for the minimum the other
    way round. *)
Module TieLastHeap.

Definition better (e : node * Z) (acc : option (node * Z)) : option (node * Z) :=
  match acc with
  | None => Some e
  | Some m => if Z.ltb (snd e) (snd m) then Some e else Some m
  end.

Definition minimum (l : list (node * Z)) : option (node * Z) :=
  foldr better None l.

Definition extractMinimum (h : gmap node Z) : option (Z * node * gmap node Z) :=
  match minimum (map_to_list h) with
  | Some (v, k) => Some (k, v, delete v h)
  | None => None
  end.

Lemma tieLast_minimum_None l : minimum l = None <-> l = [].
Proof.
  destruct l as [|e l]; simpl; [tauto|].
  split; [|discriminate].
  unfold better. destruct (minimum l) as [m|]; [|discriminate].
  destruct (Z.ltb (snd e) (snd m)); discriminate.
Qed.

Lemma tieLast_minimum_Some l e :
  minimum l = Some e -> e ∈ l /\ forall e', e' ∈ l -> snd e <= snd e'.
Proof.
  revert e. induction l as [|a l IH]; intros e; simpl; [discriminate|].
  unfold better. destruct (minimum l) as [m|] eqn:Hm.
  - destruct (IH m eq_refl) as [Hin Hle].
    destruct (Z.ltb (snd a) (snd m)) eqn:Hc; intros [= <-].
    + apply Z.ltb_lt in Hc. split; [left|].
      intros e' [->|He']%elem_of_cons; [lia|]. specialize (Hle e' He'). lia.
    + apply Z.ltb_ge in Hc. split; [by right|].
      intros e' [->|He']%elem_of_cons; [lia|]. by apply Hle.
  - intros [= <-]. apply tieLast_minimum_None in Hm as ->. split; [left|].
    intros e' [->|He']%elem_of_cons; [lia|]. by apply elem_of_nil in He'.
Qed.

#[refine] Definition instance : FibonacciHeap := {|
  heap := gmap node Z;
  Q_new := ∅;
  Q_isEmpty := MapHeap.isEmpty;
  Q_insert := fun h k v => <[v := k]> h;
  Q_decreaseKey := fun h v k => <[v := k]> h;
  Q_extractMinimum := extractMinimum;
  Q_contents := fun h => h
|}.
Proof.
  - reflexivity.
  - intros h. unfold MapHeap.isEmpty. apply bool_decide_eq_true.
  - reflexivity.
  - reflexivity.
  - intros h. unfold extractMinimum.
    destruct (minimum (map_to_list h)) as [[v k]|] eqn:Hm.
    + split; [discriminate|]. intros ->. by rewrite map_to_list_empty in Hm.
    + split; [|done]. intros _. apply tieLast_minimum_None in Hm.
      by apply map_to_list_empty_iff.
  - intros h k v h'. unfold extractMinimum.
    destruct (minimum (map_to_list h)) as [[v0 k0]|] eqn:Hm; [|discriminate].
    intros [= -> -> <-]. apply tieLast_minimum_Some in Hm as [Hin Hle].
    apply elem_of_map_to_list in Hin. split; [done|]. split; [|done].
    intros v' k' Hv'. apply (Hle (v', k')). by apply elem_of_map_to_list.
Defined.

End TieLastHeap.

(** A diamond with two routes of weight 2 from A to D. *)
Definition Gdiamond : WeightedGraph.t :=
  build [AddArc A B (Some 1); AddArc A C (Some 1);
         AddArc B D (Some 1); AddArc C D (Some 1)].

(** Two arcs in a row, A→B and B→C, each of weight 2^1023: the largest
    power of two among the doubles. *)
Definition two1023 : Z := Eval vm_compute in 2 ^ 1023.

Definition Goverflow : WeightedGraph.t :=
  build [AddArc A B (Some two1023); AddArc B C (Some two1023)].

(** The nodes of [l] have no arc to a node outside [l]. *)
Definition staysWithin (G : WeightedGraph.t) (l : list node) : bool :=
  forallb
    (fun u =>
       forallb (fun v => bool_decide (v ∈ l))
               (default [] (WeightedGraph.neighborsIterator G u)))
    l.

(** A conversion that reads the empty string and signed decimal integers. *)
Module Decimal.

Definition digit (c : Ascii.ascii) : option Z :=
  let n := Z.of_N (Ascii.N_of_ascii c) in
  if Z.leb 48 n && Z.leb n 57 then Some (n - 48) else None.

Fixpoint digits (acc : Z) (s : string) : option Z :=
  match s with
  | EmptyString => Some acc
  | String c s' =>
      match digit c with
      | Some d => digits (10 * acc + d) s'
      | None => None
      end
  end.

Definition toNumber (s : string) : option Z :=
  match s with
  | EmptyString => Some 0
  | String c EmptyString => digits 0 s
  | String c s' =>
      if Ascii.eqb c "-"%char then Z.opp <$> digits 0 s'
      else if Ascii.eqb c "+"%char then digits 0 s'
      else digits 0 s
  end.

Definition instance : ToNumber := toNumber.

End Decimal.

(** * Properties of the graph classes *)

Section MapFacts.
Context {V : Type}.
Implicit Types (m : list (node * V)) (k : node) (v : V).

Lemma get_set m k v k' :
  JSMap.get (JSMap.set m k v) k' = if decide (k = k') then Some v else JSMap.get m k'.
Proof.
  induction m as [|[k0 v0] m IH]; simpl.
  - reflexivity.
  - destruct (decide (k0 = k)) as [->|Hne]; simpl.
    + destruct (decide (k = k')); reflexivity.
    + rewrite IH. destruct (decide (k0 = k')) as [->|]; [|reflexivity].
      rewrite decide_False; [reflexivity | congruence].
Qed.

Lemma set_same m k v : JSMap.get m k = Some v -> JSMap.set m k v = m.
Proof.
  induction m as [|[k0 v0] m IH]; simpl; [discriminate|].
  destruct (decide (k0 = k)) as [->|Hne].
  - by intros [= ->].
  - intros Hg. by rewrite IH.
Qed.

Lemma has_get m k : JSMap.has m k = true <-> is_Some (JSMap.get m k).
Proof.
  unfold JSMap.has. destruct (JSMap.get m k); split; done.
Qed.

Lemma get_keys m k : is_Some (JSMap.get m k) <-> k ∈ JSMap.keys m.
Proof.
  induction m as [|[k0 v0] m IH]; simpl.
  - split; [by intros [? ?] | by intros ?%elem_of_nil].
  - destruct (decide (k0 = k)) as [->|Hne].
    + split; [intros _; left | by eexists].
    + rewrite IH. split; [by right|].
      by intros [?|?]%elem_of_cons; [congruence|].
Qed.
End MapFacts.

Lemma JSSet_has_add s n x :
  JSSet.has (JSSet.add s n) x = true <-> x = n \/ JSSet.has s x = true.
Proof.
  unfold JSSet.add, JSSet.has.
  destruct (bool_decide (n ∈ s)) eqn:Hn; rewrite ?bool_decide_eq_true in *.
  - split; [by right|]. by intros [->|].
  - rewrite elem_of_app, list_elem_of_singleton. tauto.
Qed.

Lemma JSSet_has_delete s n x :
  JSSet.has (JSSet.delete s n) x = true <-> x <> n /\ JSSet.has s x = true.
Proof.
  unfold JSSet.delete, JSSet.has. rewrite !bool_decide_eq_true, list_elem_of_filter.
  tauto.
Qed.

Lemma JSSet_add_present s n : JSSet.has s n = true -> JSSet.add s n = s.
Proof. unfold JSSet.add. by intros ->. Qed.

Section GraphFacts.
Implicit Types (G : Graph.t) (n x y : node).

Lemma arc_addNode G n x y : Graph.arc (Graph.addNode G n) x y = Graph.arc G x y.
Proof.
  unfold Graph.addNode, Graph.arc, JSMap.has.
  destruct (JSMap.get (Graph.adj G) n) eqn:Hn; simpl; [reflexivity|].
  rewrite get_set. destruct (decide (n = x)) as [->|]; [|reflexivity].
  by rewrite Hn.
Qed.

Lemma addNode_present G n :
  JSMap.has (Graph.adj G) n = true -> Graph.addNode G n = G.
Proof. unfold Graph.addNode. by intros ->. Qed.

Lemma has_addNode G n x :
  JSMap.has (Graph.adj (Graph.addNode G n)) x = true
  <-> x = n \/ JSMap.has (Graph.adj G) x = true.
Proof.
  unfold Graph.addNode. destruct (JSMap.has (Graph.adj G) n) eqn:Hn; simpl.
  - split; [by right|]. by intros [->|].
  - unfold JSMap.has in *. rewrite get_set.
    destruct (decide (n = x)) as [->|].
    + split; [by left|done].
    + split; [by right|]. by intros [->|].
Qed.

Lemma arc_addArc G n1 n2 x y :
  Graph.arc (Graph.addArc G n1 n2) x y = true
  <-> (x = n1 /\ y = n2) \/ Graph.arc G x y = true.
Proof.
  unfold Graph.addArc.
  set (G2 := Graph.addNode (Graph.addNode G n1) n2).
  assert (Harc : Graph.arc G2 x y = Graph.arc G x y)
    by (unfold G2; by rewrite !arc_addNode).
  assert (Hhas : is_Some (JSMap.get (Graph.adj G2) n1)).
  { apply has_get. unfold G2. apply has_addNode. right. apply has_addNode. by left. }
  destruct Hhas as [s Hs]. rewrite Hs. rewrite <- Harc.
  unfold Graph.arc; simpl. rewrite get_set.
  destruct (decide (n1 = x)) as [<-|Hne].
  - rewrite Hs, JSSet_has_add. split.
    + intros [->|Hin]; [by left | by right].
    + intros [[_ ->]|Hin]; [by left | by right].
  - split; [by right|]. by intros [[-> _]|].
Qed.

Lemma arc_removeArc G n1 n2 x y :
  Graph.arc (Graph.removeArc G n1 n2) x y = true
  <-> ~ (x = n1 /\ y = n2) /\ Graph.arc G x y = true.
Proof.
  unfold Graph.removeArc, Graph.arc.
  destruct (JSMap.get (Graph.adj G) n1) as [s|] eqn:Hs; simpl.
  - rewrite get_set. destruct (decide (n1 = x)) as [<-|Hne].
    + rewrite Hs, JSSet_has_delete. split.
      * intros [Hy Hin]. split; [|done]. by intros [_ ->].
      * intros [Hno Hin]. split; [|done]. intros ->. by apply Hno.
    + split; [|tauto]. intros Hxy. split; [|done]. by intros [-> _].
  - split; [|tauto]. intros Hxy. split; [|done].
    intros [-> ->]. by rewrite Hs in Hxy.
Qed.

Lemma addArc_present G n1 n2 :
  Graph.arc G n1 n2 = true -> JSMap.has (Graph.adj G) n2 = true ->
  Graph.addArc G n1 n2 = G.
Proof.
  unfold Graph.arc, Graph.addArc. intros Harc Hn2.
  destruct (JSMap.get (Graph.adj G) n1) as [s|] eqn:Hs; [|discriminate].
  rewrite (addNode_present G n1) by (apply has_get; by eexists).
  rewrite (addNode_present G n2) by done.
  rewrite Hs, JSSet_add_present by done.
  rewrite set_same by done. by destruct G.
Qed.
End GraphFacts.

Section WeightedGraphFacts.
Implicit Types (G : WeightedGraph.t) (n x y : node) (w : option Z).

Lemma weighted_arc_addArc G n1 n2 w x y :
  WeightedGraph.arc (WeightedGraph.addArc G n1 n2 w) x y = true
  <-> (x = n1 /\ y = n2) \/ WeightedGraph.arc G x y = true.
Proof. apply arc_addArc. Qed.

Lemma weighted_arc_removeArc G n1 n2 x y :
  WeightedGraph.arc (WeightedGraph.removeArc G n1 n2) x y = true
  <-> ~ (x = n1 /\ y = n2) /\ WeightedGraph.arc G x y = true.
Proof. apply arc_removeArc. Qed.

Lemma weight_throws G n1 n2 :
  WeightedGraph.weight G n1 n2 = Throw "Invalid nodes"
  <-> WeightedGraph.arc G n1 n2 = false.
Proof.
  unfold WeightedGraph.weight.
  destruct (WeightedGraph.arc G n1 n2); simpl; split; done.
Qed.

Lemma weight_of_arc G n1 n2 :
  WeightedGraph.arc G n1 n2 = true ->
  WeightedGraph.weight G n1 n2
  = Return (WeightedGraph.weights G !! weightKey n1 n2).
Proof. unfold WeightedGraph.weight. by intros ->. Qed.

(** The weight map and the adjacency agree on the pairs over [dom]. *)
Definition synced (dom : list node) G : Prop :=
  forall x y, x ∈ dom -> y ∈ dom ->
    hasWeight G x y = true <-> WeightedGraph.arc G x y = true.

Lemma hasWeight_addArc G n1 n2 w x y :
  hasWeight (WeightedGraph.addArc G n1 n2 w) x y = true
  <-> weightKey n1 n2 = weightKey x y \/ hasWeight G x y = true.
Proof.
  unfold hasWeight, WeightedGraph.addArc; simpl.
  rewrite !bool_decide_eq_true, lookup_insert.
  destruct (decide (weightKey n1 n2 = weightKey x y)); [|tauto].
  split; [by left | by eexists].
Qed.

Lemma hasWeight_removeArc G n1 n2 x y :
  hasWeight (WeightedGraph.removeArc G n1 n2) x y = true
  <-> weightKey n1 n2 <> weightKey x y /\ hasWeight G x y = true.
Proof.
  unfold hasWeight, WeightedGraph.removeArc; simpl.
  rewrite !bool_decide_eq_true, lookup_delete.
  destruct (decide (weightKey n1 n2 = weightKey x y)); [|tauto].
  split; [by intros [? ?] | tauto].
Qed.

Lemma synced_addArc dom G n1 n2 w :
  keysDistinct dom -> n1 ∈ dom -> n2 ∈ dom ->
  synced dom G -> synced dom (WeightedGraph.addArc G n1 n2 w).
Proof.
  intros Hk H1 H2 HG x y Hx Hy.
  rewrite hasWeight_addArc, weighted_arc_addArc, (HG x y Hx Hy).
  split; (intros [Heq|Harc]; [left|by right]).
  - by destruct (Hk n1 n2 x y H1 H2 Hx Hy Heq) as [-> ->].
  - by destruct Heq as [-> ->].
Qed.

Lemma synced_removeArc dom G n1 n2 :
  keysDistinct dom -> n1 ∈ dom -> n2 ∈ dom ->
  synced dom G -> synced dom (WeightedGraph.removeArc G n1 n2).
Proof.
  intros Hk H1 H2 HG x y Hx Hy.
  rewrite hasWeight_removeArc, weighted_arc_removeArc, (HG x y Hx Hy).
  split; (intros [Hne Harc]; split; [|done]).
  - intros [-> ->]. by apply Hne.
  - intros Heq. apply Hne.
    by destruct (Hk n1 n2 x y H1 H2 Hx Hy Heq) as [-> ->].
Qed.

Lemma synced_perform dom G c :
  keysDistinct dom -> (forall n, n ∈ mentioned c -> n ∈ dom) ->
  synced dom G -> synced dom (perform G c).
Proof.
  intros Hk Hc HG.
  destruct c as [n|n1 n2 w|n1 n2 w|n1 n2|n1 n2]; simpl in *.
  - intros x y Hx Hy. unfold WeightedGraph.arc, WeightedGraph.addNode; simpl.
    rewrite arc_addNode. by apply HG.
  - apply synced_addArc; auto; apply Hc; set_solver.
  - unfold WeightedGraph.addEdge.
    do 2 (apply synced_addArc; auto; try (apply Hc; set_solver)).
  - apply synced_removeArc; auto; apply Hc; set_solver.
  - unfold WeightedGraph.removeEdge.
    do 2 (apply synced_removeArc; auto; try (apply Hc; set_solver)).
Qed.

(** On identifiers whose keys do not collide, the weight map follows the
    adjacency through every sequence of calls. *)
Lemma synced_build dom cs :
  keysDistinct dom ->
  (forall c n, c ∈ cs -> n ∈ mentioned c -> n ∈ dom) ->
  synced dom (build cs).
Proof.
  intros Hk. unfold build.
  assert (H0 : synced dom WeightedGraph.new).
  { intros x y _ _. unfold hasWeight; simpl.
    rewrite bool_decide_eq_true, lookup_empty. split; [by intros [? ?]|done]. }
  revert H0. generalize WeightedGraph.new.
  induction cs as [|c cs IH]; intros G HG Hcs; simpl; [done|].
  apply IH.
  - apply synced_perform; [done| |done]. intros n. apply Hcs. left.
  - intros c' n Hc'. apply Hcs. by right.
Qed.

End WeightedGraphFacts.

Lemma G3_keysDistinct : keysDistinct [A; B; C].
Proof.
  intros a b c d Ha Hb Hc Hd.
  repeat match goal with
  | H : _ ∈ _ :: _ |- _ => apply elem_of_cons in H as [->|H]
  | H : _ ∈ [] |- _ => by apply elem_of_nil in H
  end; by vm_compute.
Qed.

(** The graph of the scenarios, built by three calls, is in step. *)
Lemma G3_synced : synced [A; B; C] G3.
Proof.
  apply (synced_build [A; B; C]
           [AddArc A B (Some 1); AddArc B C (Some 2); AddArc A C (Some 5)]).
  - apply G3_keysDistinct.
  - intros c n Hc Hn.
    repeat (apply elem_of_cons in Hc as [->|Hc];
            [simpl in Hn;
             repeat (apply elem_of_cons in Hn as [->|Hn];
                     [repeat first [apply list_elem_of_here
                                   | apply list_elem_of_further]|]);
             by apply elem_of_nil in Hn|]).
    by apply elem_of_nil in Hc.
Qed.

(** * Properties of the engine *)

Lemma forOf_invariant {X S : Type} (body : S -> X -> outcome S)
    (P : list X -> S -> Prop) (xs : list X) (st : S) :
  P [] st ->
  (forall seen x st, x ∈ xs -> P seen st ->
     exists st', body st x = Return st' /\ P (seen ++ [x]) st') ->
  exists st', forOf body xs st = Return st' /\ P xs st'.
Proof.
  intros H0 Hstep.
  assert (Hgen : forall rest seen st, seen ++ rest = xs -> P seen st ->
            exists st', forOf body rest st = Return st' /\ P xs st').
  { induction rest as [|x rest IH]; intros seen st0 Heq HP; simpl.
    - rewrite app_nil_r in Heq. subst seen. by exists st0.
    - destruct (Hstep seen x st0) as (st1 & -> & HP1); [|done|].
      { rewrite <- Heq. apply elem_of_app. right. left. }
      simpl. apply (IH (seen ++ [x])); [|done].
      by rewrite <- app_assoc. }
  by apply (Hgen xs []).
Qed.

(** ** The sum of two doubles *)

Lemma number_le_refl a : number_le a a.
Proof. destruct a; simpl; [lia | done]. Qed.

Lemma number_le_trans a b c : number_le a b -> number_le b c -> number_le a c.
Proof. destruct a, b, c; simpl; try done. lia. Qed.

Lemma number_ltb_le a b : number_ltb a b = true -> number_le a b.
Proof.
  destruct a, b; simpl; try done. rewrite Z.ltb_lt. lia.
Qed.

Lemma number_le_Finite a d :
  number_le a (Finite d) -> exists d', a = Finite d' /\ d' <= d.
Proof. destruct a as [d'|]; simpl; [|done]. intros Hle. by exists d'. Qed.

Lemma number_ltb_ge a b : number_ltb a b = false -> number_le b a.
Proof.
  destruct a, b; simpl; try done. rewrite Z.ltb_ge. lia.
Qed.

Lemma two53_eq : two53 = 2 ^ 53.
Proof. reflexivity. Qed.

Lemma roundToGrid_bounds g z :
  0 < g -> z / g * g <= roundToGrid g z <= (z / g + 1) * g.
Proof.
  intros Hg. unfold roundToGrid.
  destruct (2 * (z mod g) <? g); [nia|].
  destruct (g <? 2 * (z mod g)); [nia|].
  destruct (Z.even (z / g)); nia.
Qed.

Lemma roundToGrid_mono g a b :
  0 < g -> a <= b -> roundToGrid g a <= roundToGrid g b.
Proof.
  intros Hg Hab.
  pose proof (Z.div_le_mono a b g Hg Hab) as Hq.
  pose proof (roundToGrid_bounds g a Hg) as Ha.
  pose proof (roundToGrid_bounds g b Hg) as Hb.
  destruct (Z.eq_dec (a / g) (b / g)) as [Heq|Hne].
  - pose proof (Z.div_mod a g ltac:(lia)) as Hda.
    pose proof (Z.div_mod b g ltac:(lia)) as Hdb.
    assert (Hr : a mod g <= b mod g) by nia.
    unfold roundToGrid. rewrite Heq.
    destruct (2 * (a mod g) <? g) eqn:H1.
    + destruct (2 * (b mod g) <? g); [lia|].
      destruct (g <? 2 * (b mod g)); [nia|].
      destruct (Z.even (b / g)); nia.
    + apply Z.ltb_ge in H1.
      destruct (2 * (b mod g) <? g) eqn:H2; [apply Z.ltb_lt in H2; lia|].
      destruct (g <? 2 * (a mod g)) eqn:H3.
      * apply Z.ltb_lt in H3.
        destruct (g <? 2 * (b mod g)) eqn:H4; [lia|apply Z.ltb_ge in H4; lia].
      * destruct (g <? 2 * (b mod g)) eqn:H4.
        -- destruct (Z.even (b / g)); nia.
        -- destruct (Z.even (b / g)); lia.
  - assert (a / g + 1 <= b / g) by lia. nia.
Qed.

Lemma roundToGrid_multiple g z :
  0 < g -> z mod g = 0 -> roundToGrid g z = z.
Proof.
  intros Hg Hr. unfold roundToGrid. rewrite Hr.
  pose proof (Z.div_mod z g ltac:(lia)).
  destruct (2 * 0 <? g) eqn:H1; [nia|]. apply Z.ltb_ge in H1. lia.
Qed.

Lemma roundToGrid_is_multiple g z :
  0 < g -> roundToGrid g z mod g = 0.
Proof.
  intros Hg. unfold roundToGrid.
  destruct (2 * (z mod g) <? g); [apply Z.mod_mul; lia|].
  destruct (g <? 2 * (z mod g)); [apply Z.mod_mul; lia|].
  destruct (Z.even (z / g)); apply Z.mod_mul; lia.
Qed.

(** In the binade of z: l = log2 z, g = 2^(l-52). *)
Lemma binade z :
  two53 < z ->
  let l := Z.log2 z in
  let g := 2 ^ (l - 52) in
  53 <= l /\ 0 < g /\ 2 ^ l = 2 ^ 52 * g /\ 2 ^ l <= z < 2 * 2 ^ l
  /\ 2 ^ l <= roundToGrid g z <= 2 * 2 ^ l.
Proof.
  intros Hz l g. rewrite two53_eq in Hz.
  assert (Hpos : 0 < z) by (pose proof (Z.pow_pos_nonneg 2 53); lia).
  pose proof (Z.log2_spec z Hpos) as [Hlo Hhi]. fold l in Hlo, Hhi.
  assert (Hl : 53 <= l).
  { apply Z.log2_le_pow2; [lia|]. lia. }
  assert (Hg : 0 < g) by (apply Z.pow_pos_nonneg; lia).
  assert (Hpow : 2 ^ l = 2 ^ 52 * g).
  { unfold g. rewrite <- Z.pow_add_r by lia. f_equal. lia. }
  rewrite Z.pow_succ_r in Hhi by lia.
  split; [done|]. split; [done|]. split; [done|]. split; [lia|].
  pose proof (roundToGrid_bounds g z Hg) as Hb.
  assert (H52 : 0 < 2 ^ 52) by (apply Z.pow_pos_nonneg; lia).
  assert (Hq1 : 2 ^ 52 <= z / g).
  { apply Z.div_le_lower_bound; lia. }
  assert (Hq2 : z / g < 2 * 2 ^ 52).
  { apply Z.div_lt_upper_bound; lia. }
  nia.
Qed.

Lemma roundPos_mono a b :
  0 <= a -> a <= b -> number_le (roundPos a) (roundPos b).
Proof.
  intros Ha Hab. unfold roundPos.
  destruct (a <=? two53) eqn:Ea; destruct (b <=? two53) eqn:Eb.
  - simpl. lia.
  - apply Z.leb_le in Ea. apply Z.leb_gt in Eb.
    destruct (binade b Eb) as (Hl & Hg & Hp & Hz & Hr).
    destruct (two1024 <=? _); simpl; [done|].
    assert (2 ^ 53 <= 2 ^ Z.log2 b) by (apply Z.pow_le_mono_r; lia).
    rewrite two53_eq in Ea. lia.
  - apply Z.leb_gt in Ea. apply Z.leb_le in Eb. lia.
  - apply Z.leb_gt in Ea. apply Z.leb_gt in Eb.
    destruct (binade a Ea) as (Hla & Hga & Hpa & Hza & Hra).
    destruct (binade b Eb) as (Hlb & Hgb & Hpb & Hzb & Hrb).
    assert (Hc : roundToGrid (2 ^ (Z.log2 a - 52)) a
                 <= roundToGrid (2 ^ (Z.log2 b - 52)) b).
    { destruct (Z.eq_dec (Z.log2 a) (Z.log2 b)) as [Heq|Hne].
      - rewrite Heq. apply roundToGrid_mono; [by rewrite <- Heq|done].
      - assert (Hlt : Z.log2 a + 1 <= Z.log2 b).
        { pose proof (Z.log2_le_mono a b Hab). lia. }
        assert (2 ^ (Z.log2 a + 1) <= 2 ^ Z.log2 b)
          by (apply Z.pow_le_mono_r; lia).
        rewrite Z.pow_add_r in * by lia. lia. }
    destruct (two1024 <=? roundToGrid (2 ^ (Z.log2 a - 52)) a) eqn:Oa;
      destruct (two1024 <=? roundToGrid (2 ^ (Z.log2 b - 52)) b) eqn:Ob;
      simpl; try done.
    apply Z.leb_le in Oa. apply Z.leb_gt in Ob. lia.
Qed.

Lemma roundPos_fixed z c :
  0 <= z -> roundPos z = Finite c -> 0 <= c /\ roundPos c = Finite c.
Proof.
  intros Hz. unfold roundPos at 1.
  destruct (z <=? two53) eqn:Ez.
  - intros [= <-]. split; [done|]. unfold roundPos. by rewrite Ez.
  - apply Z.leb_gt in Ez.
    destruct (binade z Ez) as (Hl & Hg & Hp & Hzl & Hr).
    destruct (two1024 <=? _) eqn:Ov; [done|]. intros [= <-].
    apply Z.leb_gt in Ov.
    set (g := 2 ^ (Z.log2 z - 52)) in *.
    set (c := roundToGrid g z) in *.
    assert (H53 : 2 ^ 53 <= 2 ^ Z.log2 z) by (apply Z.pow_le_mono_r; lia).
    assert (Hmul : c mod g = 0) by (apply roundToGrid_is_multiple; done).
    split; [lia|].
    unfold roundPos.
    destruct (c <=? two53) eqn:Ec; [done|].
    assert (Hlog : Z.log2 c = Z.log2 z \/ c = 2 ^ (Z.log2 z + 1)).
    { destruct (Z.eq_dec c (2 * 2 ^ Z.log2 z)) as [->|Hne].
      - right. rewrite Z.pow_add_r by lia. lia.
      - left. apply Z.log2_unique; [lia|].
        rewrite Z.pow_succ_r by lia. lia. }
    destruct Hlog as [Hlog|Hc2].
    + rewrite Hlog. fold g. rewrite roundToGrid_multiple by done.
      apply Z.leb_gt in Ov. by rewrite Ov.
    + assert (Hlc : Z.log2 c = Z.log2 z + 1).
      { rewrite Hc2. apply Z.log2_pow2. lia. }
      rewrite Hlc.
      rewrite roundToGrid_multiple.
      * apply Z.leb_gt in Ov. by rewrite Ov.
      * apply Z.pow_pos_nonneg; lia.
      * rewrite Hc2.
        replace (Z.log2 z + 1) with (52 + (Z.log2 z + 1 - 52)) at 1 by lia.
        rewrite Z.pow_add_r by lia. apply Z.mod_mul.
        pose proof (Z.pow_pos_nonneg 2 (Z.log2 z + 1 - 52)). lia.
Qed.

Lemma jsAdd_nonneg a b : 0 <= a -> 0 <= b -> jsAdd a b = roundPos (a + b).
Proof.
  intros Ha Hb. unfold jsAdd, roundDouble, negInfinity.
  assert (H0 : 0 < two1024) by done.
  rewrite (proj2 (Z.leb_gt _ _)) by lia.
  rewrite (proj2 (Z.leb_gt _ _)) by lia. simpl.
  by rewrite (proj2 (Z.leb_le _ _)) by lia.
Qed.

(** The sum of two non-negative integers is exact up to 2^53. *)
Lemma jsAdd_exact a b :
  0 <= a -> 0 <= b -> a + b <= two53 -> jsAdd a b = Finite (a + b).
Proof.
  intros Ha Hb Hle. rewrite jsAdd_nonneg by done. unfold roundPos.
  by rewrite (proj2 (Z.leb_le _ _) Hle).
Qed.

(** Beyond, it is rounded: to the even neighbour when it falls half way,
    and to [Infinity] past the largest double. *)
Lemma jsAdd_rounds :
  jsAdd two53 1 = Finite two53
  /\ jsAdd two53 3 = Finite (two53 + 4)
  /\ jsAdd (two1024 - 2 ^ 971) (2 ^ 970 - 1) = Finite (two1024 - 2 ^ 971)
  /\ jsAdd (two1024 - 2 ^ 971) (2 ^ 970) = Infinity
  /\ jsAdd (- two53) (- 1) = Finite (- two53).
Proof. by vm_compute. Qed.

(** On non-negative numbers the sum grows with its first term. *)
Lemma jsAdd_mono a b w :
  0 <= a -> a <= b -> 0 <= w -> number_le (jsAdd a w) (jsAdd b w).
Proof.
  intros Ha Hab Hw. rewrite !jsAdd_nonneg by lia.
  apply roundPos_mono; lia.
Qed.

(** Adding a non-negative number to a double gives a double that is no
    smaller. *)
Lemma jsAdd_ge k w alt :
  0 <= k -> roundPos k = Finite k -> 0 <= w -> jsAdd k w = Finite alt ->
  k <= alt /\ roundPos alt = Finite alt.
Proof.
  intros Hk Hfix Hw. rewrite jsAdd_nonneg by done. intros Halt.
  pose proof (roundPos_mono k (k + w) Hk ltac:(lia)) as Hle.
  rewrite Hfix, Halt in Hle. simpl in Hle. split; [done|].
  by destruct (roundPos_fixed (k + w) alt ltac:(lia) Halt).
Qed.

Section PathFacts.
Context (G : WeightedGraph.t).
Implicit Types (prev : gmap node nodeOrNullNode) (p : list node) (u v : node).

Lemma weightFrom_snoc acc x l u v :
  weightFrom G acc x (l ++ [u; v])
  = match weightFrom G acc x (l ++ [u]), WeightedGraph.weight G u v with
    | Some r, Return (Some w) => Some (addNumber r w)
    | _, _ => None
    end.
Proof.
  revert acc x. induction l as [|y l IH]; intros acc x; simpl.
  - by destruct (WeightedGraph.weight G x u) as [[w1|]| |].
  - by destruct (WeightedGraph.weight G x y) as [[w1|]| |].
Qed.

Lemma pathWeight_snoc p u v :
  pathWeight G (p ++ [u; v])
  = match pathWeight G (p ++ [u]), WeightedGraph.weight G u v with
    | Some r, Return (Some w) => Some (addNumber r w)
    | _, _ => None
    end.
Proof.
  destruct p as [|x l]; simpl.
  - by destruct (WeightedGraph.weight G u v) as [[w|]| |].
  - apply weightFrom_snoc.
Qed.

Lemma traces_last prev v p : traces prev v p -> exists q, p = q ++ [v].
Proof. intros [v' Hv|v' u q Hu Hq]; [by exists [] | by exists q]. Qed.

Lemma traces_frame prev v p x y :
  traces prev v p -> x ∉ p -> traces (<[x := y]> prev) v p.
Proof.
  induction 1 as [v Hv|v u p Hu Hp IH]; intros Hx.
  - apply traces_root. unfold getPrev in *. rewrite lookup_insert_ne; [done|].
    intros ->. apply Hx. left.
  - apply traces_step with u.
    + unfold getPrev in *. rewrite lookup_insert_ne; [done|].
      intros ->. apply Hx. apply elem_of_app. right. left.
    + apply IH. intros Hin. apply Hx. apply elem_of_app. by left.
Qed.

Lemma tracePath_while_null fuel prev acc :
  tracePath_while fuel prev nullNode acc = Return acc.
Proof. by destruct fuel. Qed.

Lemma tracePath_while_traces prev v p :
  traces prev v p ->
  forall fuel acc, (length p <= fuel)%nat ->
    tracePath_while fuel prev (Some v) acc = Return (p ++ acc).
Proof.
  induction 1 as [v Hv|v u p Hu Hp IH]; intros fuel acc Hfuel.
  - destruct fuel as [|fuel]; simpl in *; [lia|].
    rewrite Hv. apply tracePath_while_null.
  - rewrite length_app in Hfuel. simpl in Hfuel.
    destruct fuel as [|fuel]; simpl; [lia|].
    rewrite Hu. rewrite IH by lia. by rewrite <- app_assoc.
Qed.

End PathFacts.

Lemma getDist_insert_eq (d : gmap node number) v a :
  getDist (<[v := a]> d) v = a.
Proof. unfold getDist. by rewrite lookup_insert_eq. Qed.

Lemma getDist_insert_ne (d : gmap node number) v x a :
  v <> x -> getDist (<[v := a]> d) x = getDist d x.
Proof. intros. unfold getDist. by rewrite lookup_insert_ne. Qed.

Lemma getDist_Finite (d : gmap node number) v z :
  getDist d v = Finite z <-> d !! v = Some (Finite z).
Proof.
  unfold getDist. destruct (d !! v) as [a|]; simpl; split; try done.
  - by intros ->.
  - by intros [= ->].
Qed.

Lemma getPrev_insert_eq (p : gmap node nodeOrNullNode) v a :
  getPrev (<[v := a]> p) v = a.
Proof. unfold getPrev. by rewrite lookup_insert_eq. Qed.

Lemma getPrev_insert_ne (p : gmap node nodeOrNullNode) v x a :
  v <> x -> getPrev (<[v := a]> p) x = getPrev p x.
Proof. intros. unfold getPrev. by rewrite lookup_insert_ne. Qed.

Lemma getPrev_Some (p : gmap node nodeOrNullNode) v u :
  getPrev p v = Some u <-> p !! v = Some (Some u).
Proof.
  unfold getPrev, nullNode. destruct (p !! v) as [a|]; simpl; split; try done.
  - by intros ->.
  - by intros [= ->].
Qed.

Lemma number_ltb_Finite a b :
  number_ltb (Finite a) b = true <-> b = Infinity \/ exists z, b = Finite z /\ a < z.
Proof.
  destruct b as [z|]; simpl.
  - rewrite Z.ltb_lt. split.
    + intros Hlt. right. by exists z.
    + intros [|(z' & [= <-] & Hlt)]; done.
  - split; [by left|done].
Qed.

Lemma arc_neighbors G u v :
  WeightedGraph.arc G u v = true
  <-> v ∈ default [] (WeightedGraph.neighborsIterator G u).
Proof.
  unfold WeightedGraph.arc, Graph.arc, WeightedGraph.neighborsIterator,
    Graph.neighborsIterator.
  destruct (JSMap.get (Graph.adj (WeightedGraph.super G)) u) as [l|]; simpl.
  - unfold JSSet.has. apply bool_decide_eq_true.
  - split; [done | by intros ?%elem_of_nil].
Qed.

Lemma weight_Return_arc G u v ow :
  WeightedGraph.weight G u v = Return ow -> WeightedGraph.arc G u v = true.
Proof.
  unfold WeightedGraph.weight. by destruct (WeightedGraph.arc G u v).
Qed.

Lemma get_elem_of {V : Type} (m : list (node * V)) k v :
  JSMap.get m k = Some v -> (k, v) ∈ m.
Proof.
  induction m as [|[k0 v0] m IH]; simpl; [done|].
  destruct (decide (k0 = k)) as [->|Hne].
  - intros [= ->]. left.
  - intros Hg. right. by apply IH.
Qed.

Lemma arc_universe G s u v :
  WeightedGraph.arc G u v = true -> v ∈ universe G s.
Proof.
  unfold WeightedGraph.arc, Graph.arc, universe, WeightedGraph.adj.
  destruct (JSMap.get (Graph.adj (WeightedGraph.super G)) u) as [l|] eqn:Hl;
    [|done].
  unfold JSSet.has. rewrite bool_decide_eq_true. intros Hv.
  right. apply elem_of_app. right. apply list_elem_of_In, in_concat.
  exists l. split; [|by apply list_elem_of_In].
  apply in_map_iff. exists (u, l). split; [done|].
  apply list_elem_of_In. by apply get_elem_of.
Qed.

Section EngineFacts.
Context {FH : FibonacciHeap} {TN : ToNumber}.

(** What one relaxation does to the state: nothing, or the single update of
    lines 90 to 95. *)
Lemma relax_cases G O k u st v st' :
  relax G O k u st v = Return st' ->
  st' = st
  \/ exists w alt,
       WeightedGraph.weight G u v = Return (Some w)
       /\ jsAdd k w = Finite alt
       /\ overBudget O (Finite alt) = false
       /\ number_ltb (Finite alt) (getDist (dist st) v) = true
       /\ dist st' = <[v := Finite alt]> (dist st)
       /\ prev st' = <[v := Some u]> (prev st)
       /\ ((QMapping st !! v = Some (Some v)
            /\ Q st' = Q_decreaseKey (Q st) v alt
            /\ QMapping st' = QMapping st)
           \/ (forall h, QMapping st !! v = Some (Some h) -> h <> v)
              /\ (exists h, QMapping st !! v = Some (Some h)
                            /\ Q st' = Q_decreaseKey (Q st) h alt
                            /\ QMapping st' = QMapping st)
           \/ ((QMapping st !! v = None \/ QMapping st !! v = Some None)
               /\ Q st' = Q_insert (Q st) alt v
               /\ QMapping st' = <[v := Some v]> (QMapping st))).
Proof.
  unfold relax, bind.
  destruct (WeightedGraph.weight G u v) as [[w|]| |]; try done.
  - destruct (overBudget O (jsAdd k w)) eqn:Hb; [intros [= <-]; by left|].
    destruct (number_ltb (jsAdd k w) (getDist (dist st) v)) eqn:Hlt;
      [|intros [= <-]; by left].
    destruct (jsAdd k w) as [alt|] eqn:Halt; [|intros [= <-]; by left].
    destruct (QMapping st !! v) as [[h|]|] eqn:Hq; intros [= <-]; right;
      exists w, alt; simpl; repeat (split; [done|]).
    + destruct (decide (h = v)) as [->|Hne].
      * by left.
      * right; left. split; [by intros h' [= <-]|]. by exists h.
    + right; right. split; [by right | done].
    + right; right. split; [by left | done].
  - intros [= <-]. by left.
Qed.

(** A relaxation over an arc that has a weight returns. *)
Lemma relax_returns G O k u st v w :
  WeightedGraph.weight G u v = Return (Some w) ->
  exists st', relax G O k u st v = Return st'.
Proof.
  intros Hw. unfold relax, bind. rewrite Hw.
  destruct (overBudget O (jsAdd k w)); [by eexists|].
  destruct (number_ltb (jsAdd k w) (getDist (dist st) v)); [|by eexists].
  destruct (jsAdd k w); [|by eexists].
  destruct (QMapping st !! v) as [[h|]|]; by eexists.
Qed.

End EngineFacts.

(** ** The invariant of the search under non-negative weights *)

Section Invariant.
Context {FH : FibonacciHeap} {TN : ToNumber}.
Variables (G : WeightedGraph.t) (s : node).
Hypothesis weights_nonneg : nonNegative G.

(** [fin] lists the finalised nodes, latest first; [m] is the key of the
    latest extraction. *)
Record Inv (fin : list node) (m : Z) (st : state) : Prop := {
  inv_nodup : NoDup fin;
  inv_fin : forall v, v ∈ fin <-> QMapping st !! v = Some None;
  inv_univ : forall v, is_Some (QMapping st !! v) -> v ∈ universe G s;
  inv_handle : forall v h, QMapping st !! v = Some (Some h) ->
    h = v /\ is_Some (Q_contents (Q st) !! v);
  inv_queued : forall v, is_Some (Q_contents (Q st) !! v) ->
    QMapping st !! v = Some (Some v);
  inv_key : forall v k, Q_contents (Q st) !! v = Some k ->
    getDist (dist st) v = Finite k /\ m <= k;
  inv_done : forall v, v ∈ fin ->
    exists d, getDist (dist st) v = Finite d /\ d <= m;
  inv_seen : forall v d, getDist (dist st) v = Finite d ->
    is_Some (QMapping st !! v);
  inv_source : 0 <= m /\ getDist (dist st) s = Finite 0;
  inv_double : forall v d, getDist (dist st) v = Finite d ->
    0 <= d /\ roundPos d = Finite d;
  inv_tree : forall v u, getPrev (prev st) v = Some u ->
    u ∈ fin /\ exists du w d,
      getDist (dist st) u = Finite du
      /\ WeightedGraph.weight G u v = Return (Some w)
      /\ jsAdd du w = Finite d
      /\ getDist (dist st) v = Finite d;
  inv_parent : forall v d, getDist (dist st) v = Finite d ->
    v = s \/ exists u, getPrev (prev st) v = Some u;
  inv_chain : forall v d, getDist (dist st) v = Finite d ->
    exists p, traces (prev st) v p /\ pathWeight G p = Some (Finite d)
              /\ forall x, x ∈ p -> x = v \/ x ∈ fin;
  inv_reach : forall v d, getDist (dist st) v = Finite d -> reachable G s v;
  inv_nodes : forall v, v ∈ WeightedGraph.nodesIterator G ->
    is_Some (prev st !! v);
  inv_null : forall v, prev st !! v = Some nullNode ->
    v ∈ WeightedGraph.nodesIterator G
}.

Lemma weight_nonneg u v :
  WeightedGraph.arc G u v = true ->
  exists w, WeightedGraph.weight G u v = Return (Some w) /\ 0 <= w.
Proof.
  intros Harc. destruct (weights_nonneg u v Harc) as (w & Hw & Hle).
  exists w. split; [|done]. by rewrite weight_of_arc, Hw.
Qed.

(** Lines 75 to 77: the extracted node joins the finalised ones. *)
Lemma extract_inv fin m st k u Q' :
  Inv fin m st ->
  Q_extractMinimum (Q st) = Some (k, u, Q') ->
  Inv (u :: fin) k
      (mkState (dist st) (prev st) Q' (<[u := None]> (QMapping st)))
  /\ getDist (dist st) u = Finite k /\ u ∉ fin.
Proof.
  intros HI Hex.
  apply Q_extractMinimum_Some in Hex as (Hu & Hmin & HQ').
  pose proof (inv_queued _ _ _ HI u (mk_is_Some _ _ Hu)) as HuQ.
  destruct (inv_key _ _ _ HI u k Hu) as [Hdu Hmk].
  assert (Hufin : u ∉ fin).
  { intros Hin. apply (inv_fin _ _ _ HI) in Hin. congruence. }
  split; [|done].
  constructor; simpl.
  - apply NoDup_cons. split; [done | apply HI].
  - intros v. rewrite elem_of_cons, lookup_insert.
    destruct (decide (u = v)) as [->|Hne].
    + split; [done | by left].
    + rewrite <- (inv_fin _ _ _ HI). split; [|by right].
      by intros [->|].
  - intros v. rewrite lookup_insert. destruct (decide (u = v)) as [<-|Hne].
    + intros _. apply (inv_univ _ _ _ HI). by rewrite HuQ.
    + apply HI.
  - intros v h. rewrite lookup_insert. destruct (decide (u = v)) as [<-|Hne];
      [done|].
    intros Hv. rewrite HQ', lookup_delete_ne by done.
    by apply (inv_handle _ _ _ HI).
  - intros v. rewrite HQ', lookup_delete.
    destruct (decide (u = v)) as [<-|Hne]; [by intros [? ?]|].
    intros Hv. rewrite lookup_insert_ne by done. by apply (inv_queued _ _ _ HI).
  - intros v k'. rewrite HQ', lookup_delete.
    destruct (decide (u = v)) as [<-|Hne]; [done|].
    intros Hv. split; [by apply (inv_key _ _ _ HI v k' Hv) | by apply (Hmin v)].
  - intros v [->|Hv]%elem_of_cons.
    + exists k. split; [done | lia].
    + destruct (inv_done _ _ _ HI v Hv) as (d & Hd & Hle). exists d.
      split; [done | lia].
  - intros v d Hd. rewrite lookup_insert.
    destruct (decide (u = v)); [done|]. by apply (inv_seen _ _ _ HI v d).
  - destruct (inv_source _ _ _ HI) as [Hm0 Hs]. split; [lia | done].
  - apply HI.
  - intros v u' Hp. destruct (inv_tree _ _ _ HI v u' Hp) as [Hin Hrest].
    split; [by right | done].
  - apply HI.
  - intros v d Hd. destruct (inv_chain _ _ _ HI v d Hd) as (p & Hp & Hw & Hel).
    exists p. split; [done|]. split; [done|].
    intros x Hx. destruct (Hel x Hx) as [->|Hin]; [by left | right; by right].
  - apply HI.
  - apply HI.
  - apply HI.
Qed.

(** The update of lines 90 to 95 keeps the invariant. *)
Lemma update_inv fin k st st' u v w alt :
  Inv fin k st ->
  u ∈ fin -> getDist (dist st) u = Finite k ->
  WeightedGraph.arc G u v = true ->
  WeightedGraph.weight G u v = Return (Some w) -> 0 <= w ->
  jsAdd k w = Finite alt ->
  number_ltb (Finite alt) (getDist (dist st) v) = true ->
  dist st' = <[v := Finite alt]> (dist st) ->
  prev st' = <[v := Some u]> (prev st) ->
  Q_contents (Q st') = <[v := alt]> (Q_contents (Q st)) ->
  QMapping st' = <[v := Some v]> (QMapping st) ->
  Inv fin k st'.
Proof.
  intros HI Hu Hdu Harc Hw Hw0 Halt Hlt Hd Hp Hc Hq.
  destruct (inv_double _ _ _ HI u k Hdu) as [Hk0 Hkfix].
  destruct (jsAdd_ge k w alt Hk0 Hkfix Hw0 Halt) as [Hge Haltfix].
  assert (Hvfin : v ∉ fin).
  { intros Hv. destruct (inv_done _ _ _ HI v Hv) as (d & Hdv & Hle).
    rewrite Hdv in Hlt. simpl in Hlt. apply Z.ltb_lt in Hlt. lia. }
  assert (Huv : u <> v) by (intros ->; done).
  assert (Hsv : s <> v).
  { intros <-. destruct (inv_source _ _ _ HI) as [_ Hs].
    rewrite Hs in Hlt. simpl in Hlt. apply Z.ltb_lt in Hlt. lia. }
  assert (Hdne : forall x, v <> x -> getDist (dist st') x = getDist (dist st) x).
  { intros x Hx. rewrite Hd. by apply getDist_insert_ne. }
  assert (Hdv : getDist (dist st') v = Finite alt).
  { rewrite Hd. apply getDist_insert_eq. }
  assert (Hpne : forall x, v <> x -> getPrev (prev st') x = getPrev (prev st) x).
  { intros x Hx. rewrite Hp. by apply getPrev_insert_ne. }
  assert (Hpv : getPrev (prev st') v = Some u).
  { rewrite Hp. apply getPrev_insert_eq. }
  constructor.
  - apply HI.
  - intros x. rewrite Hq, lookup_insert. destruct (decide (v = x)) as [<-|Hne].
    + split; [done | discriminate].
    + apply HI.
  - intros x. rewrite Hq, lookup_insert. destruct (decide (v = x)) as [<-|Hne].
    + intros _. by apply arc_universe with u.
    + apply HI.
  - intros x h. rewrite Hq, Hc, !lookup_insert.
    destruct (decide (v = x)) as [<-|Hne].
    + intros [= <-]. split; [done | by eexists].
    + apply HI.
  - intros x. rewrite Hq, Hc, !lookup_insert.
    destruct (decide (v = x)) as [<-|Hne]; [done | apply HI].
  - intros x k'. rewrite Hc, lookup_insert.
    destruct (decide (v = x)) as [<-|Hne].
    + intros [= <-]. split; [done | lia].
    + rewrite Hdne by done. apply HI.
  - intros x Hx. rewrite Hdne by (intros ->; done). by apply (inv_done _ _ _ HI).
  - intros x d. rewrite Hq, lookup_insert.
    destruct (decide (v = x)) as [<-|Hne]; [done|].
    rewrite Hdne by done. apply HI.
  - rewrite Hdne by done. apply HI.
  - intros x d. destruct (decide (v = x)) as [<-|Hne].
    + rewrite Hdv. intros [= <-]. split; [lia | done].
    + rewrite Hdne by done. apply HI.
  - intros x u'. destruct (decide (v = x)) as [<-|Hne].
    + rewrite Hpv. intros [= <-]. split; [done|].
      exists k, w, alt. rewrite Hdne by done. by rewrite Hdv.
    + rewrite Hpne by done. intros Hx.
      destruct (inv_tree _ _ _ HI x u' Hx)
        as (Hu' & du & w' & d & H1 & H2 & H3 & H4).
      split; [done|]. exists du, w', d.
      rewrite !Hdne by (done || (intros ->; done)). done.
  - intros x d. destruct (decide (v = x)) as [<-|Hne].
    + intros _. right. by exists u.
    + rewrite Hdne, Hpne by done. apply HI.
  - intros x d. destruct (decide (v = x)) as [<-|Hne].
    + rewrite Hdv. intros [= <-].
      destruct (inv_chain _ _ _ HI u k Hdu) as (pu & Htr & Hpw & Hel).
      assert (Hall : forall y, y ∈ pu -> y ∈ fin).
      { intros y Hy. by destruct (Hel y Hy) as [->|]. }
      exists (pu ++ [v]). split; [|split].
      * apply traces_step with u; [done|]. rewrite Hp.
        apply traces_frame; [done|]. intros Hin. by apply Hvfin, Hall.
      * destruct (traces_last _ _ _ Htr) as [q ->].
        rewrite <- app_assoc. simpl. rewrite pathWeight_snoc, Hpw, Hw.
        simpl. by rewrite Halt.
      * intros y [Hy| ->%list_elem_of_singleton]%elem_of_app;
          [right; by apply Hall | by left].
    + rewrite Hdne by done. intros Hx.
      destruct (inv_chain _ _ _ HI x d Hx) as (p & Htr & Hpw & Hel).
      exists p. split; [|done]. rewrite Hp. apply traces_frame; [done|].
      intros Hin. destruct (Hel v Hin) as [->|]; done.
  - intros x d. destruct (decide (v = x)) as [<-|Hne].
    + intros _. apply reachable_step with u; [|done].
      by apply (inv_reach _ _ _ HI u k).
    + rewrite Hdne by done. apply HI.
  - intros x Hx. rewrite Hp, lookup_insert.
    destruct (decide (v = x)); [done|]. by apply HI.
  - intros x. rewrite Hp, lookup_insert.
    destruct (decide (v = x)); [done|]. apply HI.
Qed.

(** One relaxation from the node [u] just finalised with key [k]. *)
Lemma relax_inv O fin k st u v :
  Inv fin k st ->
  u ∈ fin -> getDist (dist st) u = Finite k ->
  WeightedGraph.arc G u v = true ->
  exists st',
    relax G O k u st v = Return st'
    /\ Inv fin k st'
    /\ (forall x, x ∈ fin ->
          dist st' !! x = dist st !! x /\ prev st' !! x = prev st !! x).
Proof.
  intros HI Hu Hdu Harc.
  destruct (weight_nonneg u v Harc) as (w & Hw & Hw0).
  destruct (relax_returns G O k u st v w Hw) as [st' Hr].
  exists st'. split; [done|].
  destruct (relax_cases _ _ _ _ _ _ _ Hr)
    as [->|(w' & alt & Hw' & Halt & Hb & Hlt & Hd & Hp & Hcase)]; [done|].
  rewrite Hw in Hw'. injection Hw' as <-.
  assert (Hvfin : v ∉ fin).
  { intros Hv. destruct (inv_done _ _ _ HI v Hv) as (d & Hdv & Hle).
    destruct (inv_double _ _ _ HI u k Hdu) as [Hk0 Hkfix].
    destruct (jsAdd_ge k w alt Hk0 Hkfix Hw0 Halt) as [Hge _].
    rewrite Hdv in Hlt. simpl in Hlt. apply Z.ltb_lt in Hlt. lia. }
  assert (Hcq : Q_contents (Q st') = <[v := alt]> (Q_contents (Q st))
                /\ QMapping st' = <[v := Some v]> (QMapping st)).
  { destruct Hcase as [(Hq & -> & ->)|[(Hno & h & Hq & _)|(Hq & -> & ->)]].
    - destruct (inv_handle _ _ _ HI v v Hq) as [_ [k0 Hk0]].
      destruct (inv_key _ _ _ HI v k0 Hk0) as [Hdv _].
      rewrite Hdv in Hlt. simpl in Hlt. apply Z.ltb_lt in Hlt.
      split.
      + apply Q_decreaseKey_spec with k0; [done | lia].
      + by rewrite insert_id.
    - destruct (inv_handle _ _ _ HI v h Hq) as [-> _]. by destruct (Hno v).
    - split; [|done]. apply Q_insert_spec.
      destruct (Q_contents (Q st) !! v) as [k0|] eqn:Hk0; [|done].
      pose proof (inv_queued _ _ _ HI v (mk_is_Some _ _ Hk0)) as Hq'.
      destruct Hq as [Hq|Hq]; congruence. }
  destruct Hcq as [Hc Hq].
  split; [by eapply update_inv|].
  intros x Hx. rewrite Hd, Hp.
  rewrite !lookup_insert_ne by (intros ->; done). done.
Qed.

(** Lines 82 to 97: the whole [for] loop over the neighbours of [u]. *)
Lemma relaxAll_inv O fin k st u :
  Inv fin k st ->
  u ∈ fin -> getDist (dist st) u = Finite k ->
  exists st',
    forOf (relax G O k u)
          (default [] (WeightedGraph.neighborsIterator G u)) st = Return st'
    /\ Inv fin k st'
    /\ (forall x, x ∈ fin ->
          dist st' !! x = dist st !! x /\ prev st' !! x = prev st !! x).
Proof.
  intros HI Hu Hdu.
  set (P := fun (seen : list node) (st' : state) =>
    Inv fin k st'
    /\ (forall x, x ∈ fin ->
          dist st' !! x = dist st !! x /\ prev st' !! x = prev st !! x)).
  destruct (forOf_invariant (relax G O k u) P
              (default [] (WeightedGraph.neighborsIterator G u)) st)
    as (st' & Hrun & HI' & Hfr).
  - by unfold P.
  - intros seen v st1 Hv (HI1 & Hfr1).
    apply arc_neighbors in Hv.
    assert (Hdu1 : getDist (dist st1) u = Finite k).
    { unfold getDist. destruct (Hfr1 u Hu) as [-> _]. exact Hdu. }
    destruct (relax_inv O fin k st1 u v HI1 Hu Hdu1 Hv)
      as (st2 & Hr & HI2 & Hfr2).
    exists st2. split; [done|]. unfold P. split; [done|].
    intros x Hx. destruct (Hfr1 x Hx) as [<- <-]. by apply Hfr2.
  - by exists st'.
Qed.

(** One turn of the [while] loop that does not stop on the target. *)
Lemma step_inv O fin m st k u Q' :
  Inv fin m st ->
  Q_extractMinimum (Q st) = Some (k, u, Q') ->
  exists st2,
    forOf (relax G O k u)
          (default [] (WeightedGraph.neighborsIterator G u))
          (mkState (dist st) (prev st) Q' (<[u := None]> (QMapping st)))
    = Return st2
    /\ Inv (u :: fin) k st2
    /\ (forall x, x ∈ u :: fin ->
          dist st2 !! x = dist st !! x /\ prev st2 !! x = prev st !! x).
Proof.
  intros HI Hex.
  destruct (extract_inv fin m st k u Q' HI Hex) as (HI1 & Hdu & Hufin).
  destruct (relaxAll_inv O (u :: fin) k _ u HI1) as (st2 & Hrun & HI2 & Hfr);
    [left | done |].
  exists st2. split; [done|]. split; [done|].
  intros x Hx. by apply (Hfr x).
Qed.

Lemma fin_length fin m st :
  Inv fin m st -> (length fin <= length (universe G s))%nat.
Proof.
  intros HI. apply submseteq_length, NoDup_submseteq; [apply HI|].
  intros x Hx. apply (inv_univ _ _ _ HI).
  apply (inv_fin _ _ _ HI) in Hx. by rewrite Hx.
Qed.

(** What the loop leaves behind when it returns. *)
Lemma loop_inv t O fuel :
  forall fin m st st',
    Inv fin m st -> loop fuel G t O st = Return st' ->
    exists fin' m',
      Inv fin' m' st'
      /\ (forall x, x ∈ fin ->
            x ∈ fin' /\ dist st' !! x = dist st !! x
            /\ prev st' !! x = prev st !! x)
      /\ (t = None -> Q_contents (Q st') = ∅).
Proof.
  induction fuel as [|fuel IH]; intros fin m st st' HI; simpl; [done|].
  destruct (Q_isEmpty (Q st)) eqn:Hempty.
  { intros [= <-]. exists fin, m. split; [done|]. split; [done|].
    intros _. by apply Q_isEmpty_spec. }
  destruct (Q_extractMinimum (Q st)) as [[[k u] Q']|] eqn:Hex; [|done].
  destruct (isTarget t u) eqn:Ht.
  { intros [= <-]. destruct (extract_inv fin m st k u Q' HI Hex) as (HI1 & _ & _).
    exists (u :: fin), k. split; [done|]. split.
    - intros x Hx. split; [by right | done].
    - intros ->. done. }
  destruct (step_inv O fin m st k u Q' HI Hex) as (st2 & -> & HI2 & Hfr).
  simpl. intros Hloop.
  destruct (IH (u :: fin) k st2 st' HI2 Hloop) as (fin' & m' & HI' & Hfr' & Hcl').
  exists fin', m'. split; [done|]. split; [|done].
  intros x Hx. destruct (Hfr' x) as (Hin & Hd & Hp); [by right|].
  destruct (Hfr x) as [Hd2 Hp2]; [by right|]. split; [done|]. split; congruence.
Qed.

(** The loop returns once the fuel exceeds the nodes left to finalise. *)
Lemma loop_terminates t O fuel :
  forall fin m st,
    Inv fin m st ->
    (length (universe G s) < fuel + length fin)%nat ->
    exists st', loop fuel G t O st = Return st'.
Proof.
  induction fuel as [|fuel IH]; intros fin m st HI Hfuel.
  { pose proof (fin_length fin m st HI). lia. }
  simpl. destruct (Q_isEmpty (Q st)) eqn:Hempty; [by eexists|].
  destruct (Q_extractMinimum (Q st)) as [[[k u] Q']|] eqn:Hex.
  - destruct (isTarget t u); [by eexists|].
    destruct (step_inv O fin m st k u Q' HI Hex) as (st2 & -> & HI2 & _).
    simpl. apply (IH (u :: fin) k st2 HI2).
    change (length (u :: fin)) with (S (length fin)). lia.
  - apply Q_extractMinimum_None, Q_isEmpty_spec in Hex. congruence.
Qed.

Lemma loop_fuel_mono t O fuel :
  forall fuel' st st',
    loop fuel G t O st = Return st' -> (fuel <= fuel')%nat ->
    loop fuel' G t O st = Return st'.
Proof.
  induction fuel as [|fuel IH]; intros fuel' st st'; simpl; [done|].
  intros Hrun Hle. destruct fuel' as [|fuel']; [lia|]. simpl.
  destruct (Q_isEmpty (Q st)); [done|].
  destruct (Q_extractMinimum (Q st)) as [[[k u] Q']|]; [|done].
  destruct (isTarget t u); [done|].
  destruct (forOf _ _ _) as [st2| |]; simpl in *; try done.
  apply IH; [done | lia].
Qed.

(** The early exit stops on a state of the full search in which the target
    already holds its final distance. *)
Lemma early_full tt O fuel :
  forall fin m st stF,
    Inv fin m st -> loop fuel G None O st = Return stF ->
    exists stE finE mE,
      loop fuel G (Some tt) O st = Return stE
      /\ Inv finE mE stE
      /\ getDist (dist stE) tt = getDist (dist stF) tt.
Proof.
  induction fuel as [|fuel IH]; intros fin m st stF HI; simpl; [done|].
  destruct (Q_isEmpty (Q st)) eqn:Hempty.
  { intros [= <-]. by exists st, fin, m. }
  destruct (Q_extractMinimum (Q st)) as [[[k u] Q']|] eqn:Hex; [|done].
  destruct (step_inv O fin m st k u Q' HI Hex) as (st2 & -> & HI2 & Hfr).
  simpl. intros Hfull.
  destruct (bool_decide (u = tt)) eqn:Hu.
  - apply bool_decide_eq_true in Hu as <-.
    destruct (extract_inv fin m st k u Q' HI Hex) as (HI1 & _ & _).
    eexists _, (u :: fin), k. split; [done|]. split; [done|]. simpl.
    destruct (loop_inv None O fuel (u :: fin) k st2 stF HI2 Hfull)
      as (finF & mF & _ & HfrF & _).
    destruct (HfrF u) as (_ & Hd & _); [left|].
    destruct (Hfr u) as [Hd2 _]; [left|].
    unfold getDist. by rewrite Hd, Hd2.
  - by apply (IH (u :: fin) k st2 stF HI2).
Qed.

Lemma looseNeq_refl n : looseNeq n n = false.
Proof. destruct n; simpl; by rewrite bool_decide_eq_true_2. Qed.

Lemma init_fold (l : list node) (st0 : state) :
  let st :=
    fold_left
      (fun st e =>
         mkState (if looseNeq e s then <[e := Infinity]> (dist st) else dist st)
                 (<[e := nullNode]> (prev st)) (Q st) (QMapping st))
      l st0 in
  Q st = Q st0 /\ QMapping st = QMapping st0
  /\ dist st !! s = dist st0 !! s
  /\ (forall v, dist st !! v = dist st0 !! v \/ dist st !! v = Some Infinity)
  /\ (forall v, prev st !! v
                = if decide (v ∈ l) then Some nullNode else prev st0 !! v).
Proof.
  revert st0. induction l as [|e l IH]; intros st0; simpl.
  - repeat split; try done. by left.
  - destruct (IH (mkState
                    (if looseNeq e s then <[e := Infinity]> (dist st0) else dist st0)
                    (<[e := nullNode]> (prev st0)) (Q st0) (QMapping st0)))
      as (HQ & HM & Hs & Hd & Hp); simpl in *.
    split; [done|]. split; [done|]. split; [|split].
    + rewrite Hs. destruct (looseNeq e s) eqn:Hne; [|done].
      rewrite lookup_insert_ne; [done|]. intros ->.
      by rewrite looseNeq_refl in Hne.
    + intros v. destruct (Hd v) as [Hv|Hv]; [|by right].
      rewrite Hv. destruct (looseNeq e s); [|by left].
      rewrite lookup_insert. destruct (decide (e = v)); [by right | by left].
    + intros v. rewrite Hp. rewrite lookup_insert.
      destruct (decide (v ∈ l)) as [Hin|Hin].
      * rewrite decide_True; [done | by right].
      * destruct (decide (e = v)) as [->|Hne].
        -- rewrite decide_True; [done | left].
        -- rewrite decide_False; [done|].
           intros [->|?]%elem_of_cons; done.
Qed.

Lemma init_spec :
  Q (init G s) = Q_insert Q_new 0 s
  /\ QMapping (init G s) = {[s := Some s]}
  /\ getDist (dist (init G s)) s = Finite 0
  /\ (forall v, v <> s -> getDist (dist (init G s)) v = Infinity)
  /\ (forall v, getPrev (prev (init G s)) v = None)
  /\ (forall v, prev (init G s) !! v
                = if decide (v ∈ WeightedGraph.nodesIterator G)
                  then Some nullNode else None).
Proof.
  unfold init.
  destruct (init_fold (WeightedGraph.nodesIterator G)
              (mkState {[s := Finite 0]} ∅ (Q_insert Q_new 0 s) {[s := Some s]}))
    as (HQ & HM & Hs & Hd & Hp); simpl in *.
  split; [done|]. split; [done|]. split; [|split; [|split]].
  - unfold getDist. by rewrite Hs, lookup_singleton_eq.
  - intros v Hv. unfold getDist. destruct (Hd v) as [->| ->]; [|done].
    by rewrite lookup_singleton_ne.
  - intros v. unfold getPrev. rewrite Hp.
    by destruct (decide (v ∈ WeightedGraph.nodesIterator G)).
  - intros v. by rewrite Hp.
Qed.

Lemma init_inv : Inv [] 0 (init G s).
Proof.
  destruct init_spec as (HQ & HM & Hs & Hd & Hp & Hn).
  assert (Hc : Q_contents (Q (init G s)) = {[s := 0]}).
  { rewrite HQ, Q_insert_spec; rewrite Q_new_spec; [|done].
    by rewrite insert_empty. }
  assert (Hfinite : forall v d, getDist (dist (init G s)) v = Finite d -> v = s).
  { intros v d Hv. destruct (decide (v = s)) as [|Hne]; [done|].
    by rewrite Hd in Hv. }
  constructor.
  - apply NoDup_nil_2.
  - intros v. rewrite HM, lookup_singleton.
    split; [by intros ?%elem_of_nil|]. by destruct (decide (s = v)).
  - intros v. rewrite HM, lookup_singleton.
    destruct (decide (s = v)) as [<-|]; [intros _; left | by intros [? ?]].
  - intros v h. rewrite HM, Hc, !lookup_singleton.
    destruct (decide (s = v)) as [<-|]; [|done].
    intros [= <-]. split; [done | by eexists].
  - intros v. rewrite HM, Hc, !lookup_singleton.
    destruct (decide (s = v)) as [<-|]; [done | by intros [? ?]].
  - intros v k. rewrite Hc, lookup_singleton.
    destruct (decide (s = v)) as [<-|]; [|done]. by intros [= <-].
  - by intros v ?%elem_of_nil.
  - intros v d Hv. rewrite (Hfinite v d Hv), HM, lookup_singleton_eq. by eexists.
  - done.
  - intros v d Hv. pose proof (Hfinite v d Hv) as ->.
    rewrite Hs in Hv. by injection Hv as <-.
  - intros v u. by rewrite Hp.
  - intros v d Hv. left. by apply (Hfinite v d).
  - intros v d Hv. pose proof (Hfinite v d Hv) as ->.
    rewrite Hs in Hv. injection Hv as <-.
    exists [s]. split; [by apply traces_root|]. split; [done|].
    intros x ->%list_elem_of_singleton. by left.
  - intros v d Hv. rewrite (Hfinite v d Hv). apply reachable_refl.
  - intros v Hv. rewrite Hn. by rewrite decide_True.
  - intros v. rewrite Hn.
    by destruct (decide (v ∈ WeightedGraph.nodesIterator G)).
Qed.

Lemma finite_finalised fin m st v d :
  Inv fin m st -> Q_contents (Q st) = ∅ ->
  getDist (dist st) v = Finite d -> v ∈ fin.
Proof.
  intros HI Hc Hv. destruct (inv_seen _ _ _ HI v d Hv) as [[h|] Hq].
  - destruct (inv_handle _ _ _ HI v h Hq) as [_ [k Hk]].
    by rewrite Hc, lookup_empty in Hk.
  - by apply (inv_fin _ _ _ HI).
Qed.

(** The full search returns, and what it returns. *)
Lemma full_search O :
  exists st fin m,
    (forall fuel, (length (universe G s) < fuel)%nat ->
       loop fuel G None O (init G s) = Return st)
    /\ Inv fin m st
    /\ Q_contents (Q st) = ∅.
Proof.
  destruct (loop_terminates None O (S (length (universe G s))) [] 0 (init G s))
    as [st Hrun]; [apply init_inv | simpl; lia |].
  destruct (loop_inv None O _ [] 0 (init G s) st init_inv Hrun)
    as (fin & m & HI & _ & Hc).
  exists st, fin, m. split; [|split; [done | by apply Hc]].
  intros fuel Hfuel. eapply loop_fuel_mono; [exact Hrun | lia].
Qed.

(** The search for one target returns too, on a state of the invariant. *)
Lemma target_search t O :
  exists st fin m,
    (forall fuel, (length (universe G s) < fuel)%nat ->
       loop fuel G (Some t) O (init G s) = Return st)
    /\ Inv fin m st.
Proof.
  destruct (loop_terminates (Some t) O (S (length (universe G s))) [] 0 (init G s))
    as [st Hrun]; [apply init_inv | simpl; lia |].
  destruct (loop_inv (Some t) O _ [] 0 (init G s) st init_inv Hrun)
    as (fin & m & HI & _).
  exists st, fin, m. split; [|done].
  intros fuel Hfuel. eapply loop_fuel_mono; [exact Hrun | lia].
Qed.

(** In what the full search returns, the distance of a node is the sum of
    the distance of its predecessor and the weight of the arc between
    them. *)
Lemma full_search_tree :
  exists dist prev,
    (forall fuel, (length (universe G s) < fuel)%nat ->
       Dijkstra fuel G s None None = Return (Maps dist prev))
    /\ forall v d, dist !! v = Some (Finite d) -> v <> s ->
         exists u du w,
           prev !! v = Some (Some u)
           /\ dist !! u = Some (Finite du)
           /\ WeightedGraph.weight G u v = Return (Some w)
           /\ jsAdd du w = Finite d
           /\ (du + w <= two53 -> d = du + w).
Proof.
  destruct (full_search None) as (st & fin & m & Hrun & HI & _).
  exists (dist st), (prev st). split.
  - intros fuel Hfuel. unfold Dijkstra. by rewrite Hrun.
  - intros v d Hd Hvs. apply getDist_Finite in Hd.
    destruct (inv_parent _ _ _ HI v d Hd) as [|[u Hu]]; [done|].
    destruct (inv_tree _ _ _ HI v u Hu) as (_ & du & w & d' & Hdu & Hw & Hsum & Hdv).
    rewrite Hd in Hdv. injection Hdv as ->.
    exists u, du, w. split; [by apply getPrev_Some|].
    split; [by apply getDist_Finite|]. split; [done|]. split; [done|].
    intros Hsafe.
    destruct (inv_double _ _ _ HI u du Hdu) as [Hdu0 _].
    destruct (weight_nonneg u v (weight_Return_arc G u v (Some w) Hw))
      as (w' & Hw' & Hw0).
    assert (w' = w) as -> by congruence.
    rewrite jsAdd_exact in Hsum by done. by injection Hsum.
Qed.

(** A node of the graph that cannot be reached gets the empty path. *)
Lemma unreached_node_path O t :
  t ∈ WeightedGraph.nodesIterator G -> ~ reachable G s t ->
  forall fuel, (length (universe G s) < fuel)%nat ->
    Dijkstra fuel G s (Some t) O = Return (Path []).
Proof.
  intros Hnode Hunreach fuel Hfuel.
  destruct (target_search t O) as (st & fin & m & Hrun & HI).
  unfold Dijkstra. rewrite Hrun by done. simpl.
  assert (Hnull : prev st !! t = Some nullNode).
  { destruct (inv_nodes _ _ _ HI t Hnode) as [[u|] Hp]; [|done].
    apply getPrev_Some in Hp.
    destruct (inv_tree _ _ _ HI t u Hp) as (_ & du & w & d & _ & _ & _ & Hd).
    destruct Hunreach. by apply (inv_reach _ _ _ HI t d). }
  unfold tracePath. rewrite Hnull, bool_decide_eq_true_2 by done. simpl.
  rewrite bool_decide_eq_false_2, andb_false_r; [done|].
  intros ->. apply Hunreach, reachable_refl.
Qed.

(** A target that is no node of the graph and cannot be reached is returned
    as a path of its own. *)
Lemma absent_target_path O t :
  t ∉ WeightedGraph.nodesIterator G -> ~ reachable G s t ->
  forall fuel, (length (universe G s) < fuel)%nat ->
    Dijkstra fuel G s (Some t) O = Return (Path [t]).
Proof.
  intros Hnode Hunreach fuel Hfuel.
  destruct (target_search t O) as (st & fin & m & Hrun & HI).
  unfold Dijkstra. rewrite Hrun by done. simpl.
  assert (Hnone : prev st !! t = None).
  { destruct (prev st !! t) as [[u|]|] eqn:Hp; [| |done].
    - apply getPrev_Some in Hp.
      destruct (inv_tree _ _ _ HI t u Hp) as (_ & du & w & d & _ & _ & _ & Hd).
      destruct Hunreach. by apply (inv_reach _ _ _ HI t d).
    - destruct Hnode. by apply (inv_null _ _ _ HI). }
  unfold tracePath. rewrite Hnone. simpl.
  destruct fuel as [|fuel]; [lia|]. simpl.
  unfold getPrev. rewrite Hnone. simpl.
  by rewrite tracePath_while_null.
Qed.

End Invariant.

(** ** Fuel *)

Lemma tracePath_while_fuel_mono prev fuel :
  forall fuel' e acc p,
    tracePath_while fuel prev e acc = Return p -> (fuel <= fuel')%nat ->
    tracePath_while fuel' prev e acc = Return p.
Proof.
  induction fuel as [|fuel IH]; intros fuel' e acc p Hrun Hle.
  - destruct e as [n|]; simpl in Hrun; [done|].
    injection Hrun as <-. apply tracePath_while_null.
  - destruct e as [n|]; simpl in Hrun.
    + destruct fuel' as [|fuel']; [lia|]. simpl. apply IH; [done | lia].
    + injection Hrun as <-. apply tracePath_while_null.
Qed.

Lemma tracePath_fuel_mono prev fuel fuel' target source p :
  tracePath fuel prev target source = Return p -> (fuel <= fuel')%nat ->
  tracePath fuel' prev target source = Return p.
Proof.
  unfold tracePath. destruct (_ || _); [|done].
  apply tracePath_while_fuel_mono.
Qed.

Lemma nonNegativeb_spec G : nonNegativeb G = true -> nonNegative G.
Proof.
  unfold nonNegativeb, nonNegative. intros Hall u v Harc.
  unfold WeightedGraph.arc, Graph.arc in Harc.
  destruct (JSMap.get (Graph.adj (WeightedGraph.super G)) u) as [l|] eqn:Hl;
    [|done].
  apply get_elem_of in Hl. unfold JSSet.has in Harc.
  apply bool_decide_eq_true in Harc.
  rewrite forallb_forall in Hall.
  specialize (Hall (u, l)). simpl in Hall.
  rewrite forallb_forall in Hall.
  specialize (Hall ltac:(by apply list_elem_of_In) v ltac:(by apply list_elem_of_In)).
  destruct (WeightedGraph.weights G !! weightKey u v) as [w|]; [|done].
  exists w. split; [done|]. by apply Z.leb_le.
Qed.

Section Fuel.
Context {FH : FibonacciHeap} {TN : ToNumber}.

Lemma Dijkstra_fuel_mono fuel fuel' G s t O r :
  Dijkstra fuel G s t O = Return r -> (fuel <= fuel')%nat ->
  Dijkstra fuel' G s t O = Return r.
Proof.
  unfold Dijkstra. intros Hrun Hle.
  destruct (loop fuel G t O (init G s)) as [st| |] eqn:Hloop; try done.
  rewrite (loop_fuel_mono G t O fuel fuel' _ st Hloop Hle). simpl in *.
  destruct t as [t|]; [|done].
  destruct (tracePath fuel (prev st) t (Some s)) as [p| |] eqn:Hp; try done.
  by rewrite (tracePath_fuel_mono _ fuel fuel' _ _ p Hp Hle).
Qed.

End Fuel.

(** ** Distances only decrease *)

Section Monotone.
Context {FH : FibonacciHeap}.

Lemma relax_write G O k u st v st' :
  relax G O k u st v = Return st' ->
  dist st' = dist st
  \/ exists alt,
       dist st' = <[v := Finite alt]> (dist st)
       /\ number_ltb (Finite alt) (getDist (dist st) v) = true.
Proof.
  intros Hr. destruct (relax_cases _ _ _ _ _ _ _ Hr)
    as [->|(w & alt & _ & _ & _ & Hlt & Hd & _)]; [by left|].
  right. by exists alt.
Qed.

Lemma relax_le G O k u st v st' x :
  relax G O k u st v = Return st' ->
  number_le (getDist (dist st') x) (getDist (dist st) x).
Proof.
  intros Hr. destruct (relax_write _ _ _ _ _ _ _ Hr) as [->|(alt & -> & Hlt)].
  - apply number_le_refl.
  - destruct (decide (v = x)) as [<-|Hne].
    + rewrite getDist_insert_eq. by apply number_ltb_le.
    + rewrite getDist_insert_ne by done. apply number_le_refl.
Qed.

Lemma forOf_relax_le G O k u x xs :
  forall st st',
    forOf (relax G O k u) xs st = Return st' ->
    number_le (getDist (dist st') x) (getDist (dist st) x).
Proof.
  induction xs as [|v xs IH]; intros st st'; simpl.
  - intros [= <-]. apply number_le_refl.
  - destruct (relax G O k u st v) as [st1| |] eqn:Hr; simpl; try done.
    intros Hrest. eapply number_le_trans; [by apply IH|].
    by eapply relax_le.
Qed.

Lemma loop_le G t O x fuel :
  forall st st',
    loop fuel G t O st = Return st' ->
    number_le (getDist (dist st') x) (getDist (dist st) x).
Proof.
  induction fuel as [|fuel IH]; intros st st'; simpl; [done|].
  destruct (Q_isEmpty (Q st)); [intros [= <-]; apply number_le_refl|].
  destruct (Q_extractMinimum (Q st)) as [[[k u] Q']|]; [|done].
  destruct (isTarget t u); [intros [= <-]; apply number_le_refl|].
  destruct (forOf _ _ _) as [st2| |] eqn:Hfor; simpl; try done.
  intros Hloop. eapply number_le_trans; [by apply IH|].
  by apply (forOf_relax_le _ _ _ _ x _ _ _ Hfor).
Qed.

End Monotone.

(** ** Independence from the priority queue

    When no two pending entries ever tie for the minimum, the contract of
    the queue determines the whole run. *)

Lemma uniqueMinimum_spec c u k v k' :
  uniqueMinimum c u k = true -> c !! v = Some k' -> v = u \/ k < k'.
Proof.
  unfold uniqueMinimum. rewrite forallb_forall. intros Hall Hv.
  specialize (Hall (v, k')). simpl in Hall.
  destruct (orb_prop _ _ (Hall ltac:(by apply list_elem_of_In, elem_of_map_to_list))) as [Heq|Hlt].
  - left. by apply bool_decide_eq_true in Heq.
  - right. by apply Z.ltb_lt.
Qed.

Section Tidy.
Context {FH : FibonacciHeap}.

Lemma extract_tidy st k u Q' :
  tidy st -> Q_extractMinimum (Q st) = Some (k, u, Q') ->
  tidy (mkState (dist st) (prev st) Q' (<[u := None]> (QMapping st))).
Proof.
  intros HT Hex. apply Q_extractMinimum_Some in Hex as (Hu & _ & HQ').
  constructor; simpl.
  - intros v h. rewrite lookup_insert. destruct (decide (u = v)); [done|].
    intros Hv. rewrite HQ', lookup_delete_ne by done.
    by apply (tidy_handle _ HT).
  - intros v. rewrite HQ', lookup_delete.
    destruct (decide (u = v)); [by intros [? ?]|].
    intros Hv. rewrite lookup_insert_ne by done. by apply (tidy_queued _ HT).
  - intros v k'. rewrite HQ', lookup_delete.
    destruct (decide (u = v)); [done|]. apply (tidy_key _ HT).
Qed.

(** A relaxation, told by what it does to the data of a tidy state. *)
Lemma relax_effect G O k u st v :
  tidy st ->
  match WeightedGraph.weight G u v with
  | Throw msg => relax G O k u st v = Throw msg
  | OutOfFuel => relax G O k u st v = OutOfFuel
  | Return _ =>
      exists st',
        relax G O k u st v = Return st' /\ tidy st'
        /\ match candidate G O k u (dist st) v with
           | None => st' = st
           | Some alt =>
               dist st' = <[v := Finite alt]> (dist st)
               /\ prev st' = <[v := Some u]> (prev st)
               /\ QMapping st' = <[v := Some v]> (QMapping st)
               /\ Q_contents (Q st') = <[v := alt]> (Q_contents (Q st))
           end
  end.
Proof.
  intros HT. unfold relax, candidate, bind.
  destruct (WeightedGraph.weight G u v) as [[w|]| |]; try done.
  2: { by exists st. }
  destruct (jsAdd k w) as [alt|] eqn:Halt.
  2: { destruct (overBudget O Infinity); by exists st. }
  destruct (overBudget O (Finite alt)); [by exists st|].
  destruct (number_ltb (Finite alt) (getDist (dist st) v)) eqn:Hlt;
    [|by exists st].
  assert (Hmade : forall st',
            dist st' = <[v := Finite alt]> (dist st) ->
            QMapping st' = <[v := Some v]> (QMapping st) ->
            Q_contents (Q st') = <[v := alt]> (Q_contents (Q st)) ->
            tidy st').
  { intros st' Hd Hq Hc. constructor.
    - intros x h. rewrite Hq, Hc, !lookup_insert.
      destruct (decide (v = x)) as [<-|]; [|apply HT].
      intros [= <-]. split; [done | by eexists].
    - intros x. rewrite Hq, Hc, !lookup_insert.
      destruct (decide (v = x)) as [<-|]; [done | apply HT].
    - intros x k'. rewrite Hd, Hc, lookup_insert.
      destruct (decide (v = x)) as [<-|Hne].
      + intros [= <-]. apply getDist_insert_eq.
      + rewrite getDist_insert_ne by done. apply HT. }
  destruct (QMapping st !! v) as [[h|]|] eqn:Hq.
  - destruct (tidy_handle _ HT v h Hq) as [-> [k0 Hk0]].
    pose proof (tidy_key _ HT v k0 Hk0) as Hdv.
    rewrite Hdv in Hlt. simpl in Hlt. apply Z.ltb_lt in Hlt.
    assert (Hc : Q_contents (Q_decreaseKey (Q st) v alt)
                 = <[v := alt]> (Q_contents (Q st))).
    { apply Q_decreaseKey_spec with k0; [done | lia]. }
    eexists. split; [done|]. simpl.
    split; [apply Hmade; simpl; try done; by rewrite insert_id|].
    split; [done|]. split; [done|]. split; [by rewrite insert_id | done].
  - assert (Hc : Q_contents (Q_insert (Q st) alt v)
                 = <[v := alt]> (Q_contents (Q st))).
    { apply Q_insert_spec.
      destruct (Q_contents (Q st) !! v) as [k0|] eqn:Hk0; [|done].
      pose proof (tidy_queued _ HT v (mk_is_Some _ _ Hk0)). congruence. }
    eexists. split; [done|]. simpl. split; [by apply Hmade|]. done.
  - assert (Hc : Q_contents (Q_insert (Q st) alt v)
                 = <[v := alt]> (Q_contents (Q st))).
    { apply Q_insert_spec.
      destruct (Q_contents (Q st) !! v) as [k0|] eqn:Hk0; [|done].
      pose proof (tidy_queued _ HT v (mk_is_Some _ _ Hk0)). congruence. }
    eexists. split; [done|]. simpl. split; [by apply Hmade|]. done.
Qed.

End Tidy.

Section HeapIndependence.
Context {FH1 FH2 : FibonacciHeap}.

Lemma relax_same G O k u v (st1 : @state FH1) (st2 : @state FH2) :
  same st1 st2 -> tidy st1 -> tidy st2 ->
  match relax G O k u st1 v, relax G O k u st2 v with
  | Return a, Return b => same a b /\ tidy a /\ tidy b
  | Throw m1, Throw m2 => m1 = m2
  | OutOfFuel, OutOfFuel => True
  | _, _ => False
  end.
Proof.
  intros (Hd & Hp & Hq & Hc) HT1 HT2.
  pose proof (relax_effect G O k u st1 v HT1) as H1.
  pose proof (relax_effect G O k u st2 v HT2) as H2.
  rewrite <- Hd in H2.
  destruct (WeightedGraph.weight G u v) as [ow|msg|].
  - destruct H1 as (a & -> & HTa & Ha). destruct H2 as (b & -> & HTb & Hb).
    split; [|done].
    destruct (candidate G O k u (dist st1) v) as [alt|].
    + destruct Ha as (Ha1 & Ha2 & Ha3 & Ha4).
      destruct Hb as (Hb1 & Hb2 & Hb3 & Hb4).
      unfold same. by rewrite Ha1, Ha2, Ha3, Ha4, Hb1, Hb2, Hb3, Hb4, Hp, Hq, Hc.
    + subst a b. done.
  - by rewrite H1, H2.
  - by rewrite H1, H2.
Qed.

Lemma forOf_relax_same G O k u xs :
  forall (st1 : @state FH1) (st2 : @state FH2),
    same st1 st2 -> tidy st1 -> tidy st2 ->
    match forOf (relax G O k u) xs st1, forOf (relax G O k u) xs st2 with
    | Return a, Return b => same a b /\ tidy a /\ tidy b
    | Throw m1, Throw m2 => m1 = m2
    | OutOfFuel, OutOfFuel => True
    | _, _ => False
    end.
Proof.
  induction xs as [|v xs IH]; intros st1 st2 Hsame HT1 HT2; simpl; [done|].
  pose proof (relax_same G O k u v st1 st2 Hsame HT1 HT2) as Hstep.
  destruct (relax G O k u st1 v) as [a| |], (relax G O k u st2 v) as [b| |];
    simpl; try done.
  destruct Hstep as (Hab & HTa & HTb). by apply IH.
Qed.

Lemma loop_same G t O fuel :
  forall (st1 : @state FH1) (st2 : @state FH2),
    same st1 st2 -> tidy st1 -> tidy st2 ->
    tieFree fuel G t O st1 = true ->
    sameOutcome (loop fuel G t O st1) (loop fuel G t O st2).
Proof.
  induction fuel as [|fuel IH]; intros st1 st2 Hsame HT1 HT2; simpl; [done|].
  pose proof Hsame as (Hd & Hp & Hq & Hc).
  assert (Hempty : Q_isEmpty (Q st1) = Q_isEmpty (Q st2)).
  { destruct (Q_isEmpty (Q st1)) eqn:H1, (Q_isEmpty (Q st2)) eqn:H2; try done.
    - apply Q_isEmpty_spec in H1. rewrite Hc in H1.
      apply Q_isEmpty_spec in H1. congruence.
    - apply Q_isEmpty_spec in H2. rewrite <- Hc in H2.
      apply Q_isEmpty_spec in H2. congruence. }
  rewrite <- Hempty. destruct (Q_isEmpty (Q st1)) eqn:He1; [done|].
  destruct (Q_extractMinimum (Q st1)) as [[[k1 u1] Q1]|] eqn:Hex1.
  2: { apply Q_extractMinimum_None, Q_isEmpty_spec in Hex1. congruence. }
  destruct (Q_extractMinimum (Q st2)) as [[[k2 u2] Q2]|] eqn:Hex2.
  2: { apply Q_extractMinimum_None in Hex2. rewrite <- Hc in Hex2.
       apply Q_isEmpty_spec in Hex2. congruence. }
  intros [Huniq Hrest]%andb_prop.
  pose proof (extract_tidy st1 k1 u1 Q1 HT1 Hex1) as HT1'.
  pose proof (extract_tidy st2 k2 u2 Q2 HT2 Hex2) as HT2'.
  apply Q_extractMinimum_Some in Hex1 as (Hu1 & Hmin1 & HQ1).
  apply Q_extractMinimum_Some in Hex2 as (Hu2 & Hmin2 & HQ2).
  assert (Heq : u2 = u1 /\ k2 = k1).
  { rewrite <- Hc in Hu2.
    destruct (uniqueMinimum_spec _ u1 k1 u2 k2 Huniq Hu2) as [->|Hlt].
    - split; [done | congruence].
    - rewrite Hc in Hu1. specialize (Hmin2 u1 k1 Hu1). lia. }
  destruct Heq as [-> ->].
  set (a := mkState (dist st1) (prev st1) Q1 (<[u1 := None]> (QMapping st1))) in *.
  set (b := mkState (dist st2) (prev st2) Q2 (<[u1 := None]> (QMapping st2))) in *.
  assert (Hab : same a b).
  { unfold same, a, b; simpl. by rewrite Hd, Hp, Hq, HQ1, HQ2, Hc. }
  destruct (isTarget t u1); [done|].
  pose proof (forOf_relax_same G O k1 u1
                (default [] (WeightedGraph.neighborsIterator G u1)) a b Hab HT1' HT2')
    as Hfor.
  destruct (forOf (relax G O k1 u1) _ a) as [a'| |],
           (forOf (relax G O k1 u1) _ b) as [b'| |]; simpl; try done.
  destruct Hfor as (Hab' & HTa & HTb). by apply IH.
Qed.

End HeapIndependence.

Lemma looseNeq_sameKind (TN1 TN2 : ToNumber) a b :
  sameKind a b = true -> @looseNeq TN1 a b = @looseNeq TN2 a b.
Proof. by destruct a, b. Qed.

Lemma init_tidy {FH : FibonacciHeap} {TN : ToNumber} G s : tidy (init G s).
Proof.
  destruct (init_spec G s) as (HQ & HM & Hs & _).
  assert (Hc : Q_contents (Q (init G s)) = {[s := 0]}).
  { rewrite HQ, Q_insert_spec; rewrite Q_new_spec; [|done].
    by rewrite insert_empty. }
  constructor.
  - intros v h. rewrite HM, Hc, !lookup_singleton.
    destruct (decide (s = v)) as [<-|]; [|done].
    intros [= <-]. split; [done | by eexists].
  - intros v. rewrite HM, Hc, !lookup_singleton.
    destruct (decide (s = v)) as [<-|]; [done | by intros [? ?]].
  - intros v k. rewrite Hc, lookup_singleton.
    destruct (decide (s = v)) as [<-|]; [|done]. by intros [= <-].
Qed.

Section ReferenceRun.
Context {FH1 FH2 : FibonacciHeap} {TN1 TN2 : ToNumber}.

Lemma init_agree G s :
  (forall e, e ∈ WeightedGraph.nodesIterator G ->
     @looseNeq TN1 e s = @looseNeq TN2 e s) ->
  same (@init FH1 TN1 G s) (@init FH2 TN2 G s).
Proof.
  intros Hagree. unfold init.
  assert (H0 : same (FH1 := FH1) (FH2 := FH2)
                 (mkState {[s := Finite 0]} ∅ (Q_insert Q_new 0 s) {[s := Some s]})
                 (mkState {[s := Finite 0]} ∅ (Q_insert Q_new 0 s) {[s := Some s]})).
  { unfold same; simpl. do 3 (split; [done|]).
    by rewrite !Q_insert_spec, !Q_new_spec by (by rewrite Q_new_spec). }
  revert H0. generalize (mkState (FH := FH1) {[s := Finite 0]} ∅ (Q_insert Q_new 0 s) {[s := Some s]}).
  generalize (mkState (FH := FH2) {[s := Finite 0]} ∅ (Q_insert Q_new 0 s) {[s := Some s]}).
  induction (WeightedGraph.nodesIterator G) as [|e l IH]; intros b a Hab;
    simpl in *; [done|].
  apply IH; [intros e' He'; apply Hagree; by right|].
  destruct Hab as (Hd & Hp & Hq & Hc). unfold same; simpl.
  rewrite (Hagree e) by left. by rewrite Hd, Hp, Hq, Hc.
Qed.

(** The result of a search whose run has no tie does not depend on the
    priority queue, nor on a conversion that line 70 never calls on to tell
    a node from the source. *)
Lemma Dijkstra_agree fuel G s t O :
  (forall e, e ∈ WeightedGraph.nodesIterator G ->
     @looseNeq TN1 e s = @looseNeq TN2 e s) ->
  tieFree fuel G t O (@init FH1 TN1 G s) = true ->
  @Dijkstra FH2 TN2 fuel G s t O = @Dijkstra FH1 TN1 fuel G s t O.
Proof.
  intros Hagree Hfree. unfold Dijkstra.
  pose proof (loop_same G t O fuel _ _ (init_agree G s Hagree)
                (init_tidy G s) (init_tidy G s) Hfree) as Hrun.
  unfold sameOutcome in Hrun.
  destruct (loop fuel G t O (@init FH1 TN1 G s)) as [a|m1|],
           (loop fuel G t O (@init FH2 TN2 G s)) as [b|m2|]; simpl; try done.
  - destruct Hrun as (Hd & Hp & _). by rewrite Hd, Hp.
  - by rewrite Hrun.
Qed.

Lemma Dijkstra_same fuel G s t O :
  forallb (fun e => sameKind e s) (WeightedGraph.nodesIterator G) = true ->
  tieFree fuel G t O (@init FH1 TN1 G s) = true ->
  @Dijkstra FH2 TN2 fuel G s t O = @Dijkstra FH1 TN1 fuel G s t O.
Proof.
  intros Hkind. apply Dijkstra_agree. intros e He.
  apply looseNeq_sameKind. rewrite forallb_forall in Hkind.
  apply Hkind. by apply list_elem_of_In.
Qed.

End ReferenceRun.

(** What the reference queue computes without a tie, every queue computes. *)
Lemma by_reference {FH : FibonacciHeap} {TN : ToNumber} fuel0 G s t O r :
  forallb (fun e => sameKind e s) (WeightedGraph.nodesIterator G) = true ->
  tieFree fuel0 G t O (@init MapHeap.instance Decimal.instance G s) = true ->
  @Dijkstra MapHeap.instance Decimal.instance fuel0 G s t O = Return r ->
  forall fuel, (fuel0 <= fuel)%nat -> Dijkstra fuel G s t O = Return r.
Proof.
  intros Hkind Hfree Href fuel Hfuel.
  apply Dijkstra_fuel_mono with fuel0; [|done].
  rewrite <- Href. by apply Dijkstra_same.
Qed.

(** ** The arcs of the finalised nodes are settled *)

Section Settled.
Context {FH : FibonacciHeap} {TN : ToNumber}.
Variables (G : WeightedGraph.t) (s : node).
Hypothesis weights_nonneg : nonNegative G.

Lemma relax_bound k u st v st' w :
  relax G None k u st v = Return st' ->
  WeightedGraph.weight G u v = Return (Some w) ->
  number_le (getDist (dist st') v) (jsAdd k w).
Proof.
  unfold relax, bind. intros Hr Hw. rewrite Hw in Hr. simpl in Hr.
  destruct (number_ltb (jsAdd k w) (getDist (dist st) v)) eqn:Hlt.
  - destruct (jsAdd k w) as [alt|]; [|done].
    assert (Hv : getDist (dist st') v = Finite alt).
    { destruct (QMapping st !! v) as [[h|]|]; injection Hr as <-; simpl;
        apply getDist_insert_eq. }
    rewrite Hv. apply number_le_refl.
  - injection Hr as <-. by apply number_ltb_ge.
Qed.

(** The relaxations from the node just finalised settle its arcs. *)
Lemma relaxAll_settled fin k st u :
  Inv G s (u :: fin) k st ->
  getDist (dist st) u = Finite k ->
  settled G fin st ->
  exists st',
    forOf (relax G None k u)
          (default [] (WeightedGraph.neighborsIterator G u)) st = Return st'
    /\ Inv G s (u :: fin) k st'
    /\ settled G (u :: fin) st'.
Proof.
  intros HI Hdu Hset.
  set (P := fun (seen : list node) (st' : state) =>
    Inv G s (u :: fin) k st'
    /\ (forall x, x ∈ u :: fin -> dist st' !! x = dist st !! x)
    /\ (forall x, number_le (getDist (dist st') x) (getDist (dist st) x))
    /\ (forall v w, v ∈ seen ->
          WeightedGraph.weight G u v = Return (Some w) ->
          number_le (getDist (dist st') v) (jsAdd k w))).
  destruct (forOf_invariant (relax G None k u) P
              (default [] (WeightedGraph.neighborsIterator G u)) st)
    as (st' & Hrun & HI' & Hfr & Hle & Hseen).
  - unfold P. split; [done|]. split; [done|].
    split; [intros x; apply number_le_refl|]. by intros v w ?%elem_of_nil.
  - intros seen v st1 Hv (HI1 & Hfr1 & Hle1 & Hseen1).
    apply arc_neighbors in Hv.
    assert (Hdu1 : getDist (dist st1) u = Finite k).
    { unfold getDist. rewrite Hfr1 by left. exact Hdu. }
    destruct (relax_inv G s weights_nonneg None (u :: fin) k st1 u v HI1)
      as (st2 & Hr & HI2 & Hfr2); [left | done | done |].
    exists st2. split; [done|]. unfold P. split; [done|]. split; [|split].
    + intros x Hx. rewrite <- (Hfr1 x Hx). by apply Hfr2.
    + intros x. eapply number_le_trans; [|apply Hle1]. by eapply relax_le.
    + intros y w [Hy| ->%list_elem_of_singleton]%elem_of_app Hw.
      * eapply number_le_trans; [by eapply relax_le|]. by apply Hseen1.
      * by apply (relax_bound k u st1 v st2 w).
  - exists st'. split; [done|]. split; [done|].
    intros u' v du w [->|Hu']%elem_of_cons Hdu' Hw.
    + assert (du = k) as ->.
      { unfold getDist in Hdu'. rewrite Hfr in Hdu' by left.
        unfold getDist in Hdu. congruence. }
      apply Hseen; [|done]. by apply arc_neighbors, weight_Return_arc with (Some w).
    + assert (Hold : getDist (dist st) u' = Finite du).
      { unfold getDist in *. rewrite <- Hfr by (by right). exact Hdu'. }
      eapply number_le_trans; [apply Hle|]. by apply (Hset u' v du w).
Qed.

Lemma loop_settled fuel :
  forall fin m st st',
    Inv G s fin m st -> settled G fin st ->
    loop fuel G None None st = Return st' ->
    exists fin' m',
      Inv G s fin' m' st' /\ settled G fin' st' /\ Q_contents (Q st') = ∅.
Proof.
  induction fuel as [|fuel IH]; intros fin m st st' HI Hset; simpl; [done|].
  destruct (Q_isEmpty (Q st)) eqn:Hempty.
  { intros [= <-]. exists fin, m. split; [done|]. split; [done|].
    by apply Q_isEmpty_spec. }
  destruct (Q_extractMinimum (Q st)) as [[[k u] Q']|] eqn:Hex; [|done].
  destruct (extract_inv G s fin m st k u Q' HI Hex) as (HI1 & Hdu & _).
  destruct (relaxAll_settled fin k _ u HI1 Hdu Hset) as (st2 & -> & HI2 & Hset2).
  simpl. intros Hloop. by apply (IH (u :: fin) k st2 st' HI2 Hset2).
Qed.

Lemma settled_init : settled G [] (init G s).
Proof. by intros u v du w ?%elem_of_nil. Qed.

(** No walk from the source weighs less than the distance recorded. *)
Lemma settled_optimal fin m st :
  Inv G s fin m st -> settled G fin st -> Q_contents (Q st) = ∅ ->
  forall q v W,
    head q = Some s -> last q = Some v -> pathWeight G q = Some W ->
    number_le (getDist (dist st) v) W.
Proof.
  intros HI Hset Hc q.
  induction q as [|u q IH] using rev_ind; intros v W Hhead Hlast Hpw; [done|].
  rewrite last_snoc in Hlast. injection Hlast as ->.
  destruct q as [|x q _] using rev_ind.
  - simpl in *. injection Hhead as ->. injection Hpw as <-.
    rewrite (proj2 (inv_source _ _ _ _ _ HI)). apply number_le_refl.
  - rewrite <- app_assoc in Hpw. simpl in Hpw. rewrite pathWeight_snoc in Hpw.
    destruct (pathWeight G (q ++ [x])) as [r|] eqn:Hr; [|done].
    destruct (WeightedGraph.weight G x v) as [[w|]| |] eqn:Hw; try done.
    injection Hpw as <-.
    assert (Hx : number_le (getDist (dist st) x) r).
    { apply IH; [|by rewrite last_snoc | done]. destruct q; simpl in *; done. }
    destruct r as [r|]; [|by destruct (getDist (dist st) v)].
    apply number_le_Finite in Hx as (dx & Hdx & Hle). simpl.
    pose proof (finite_finalised G s fin m st x dx HI Hc Hdx) as Hfin.
    destruct (inv_double _ _ _ _ _ HI x dx Hdx) as [Hdx0 _].
    destruct (weight_nonneg G weights_nonneg x v
                (weight_Return_arc G x v (Some w) Hw)) as (w' & Hw' & Hw0).
    assert (w' = w) as -> by congruence.
    eapply number_le_trans; [by apply (Hset x v dx w)|].
    by apply jsAdd_mono.
Qed.

(** The full search ends on a state whose arcs are all settled. *)
Lemma full_settled :
  exists st fin m,
    (forall fuel, (length (universe G s) < fuel)%nat ->
       loop fuel G None None (init G s) = Return st)
    /\ Inv G s fin m st /\ settled G fin st /\ Q_contents (Q st) = ∅.
Proof.
  destruct (full_search G s weights_nonneg None) as (st & _ & _ & Hrun & _).
  destruct (loop_settled (S (length (universe G s))) [] 0 (init G s) st
              (init_inv G s) settled_init (Hrun _ (Nat.lt_succ_diag_r _)))
    as (fin & m & HI & Hset & Hc).
  by exists st, fin, m.
Qed.

(** The target of a search that stops early is traced back to a path whose
    weight is the distance of the full search, when some walk to the target
    has a finite weight. *)
Lemma target_path_weight v q W :
  head q = Some s -> last q = Some v -> pathWeight G q = Some (Finite W) ->
  exists N dist prev p d,
    (forall fuel, (N <= fuel)%nat ->
       Dijkstra fuel G s None None = Return (Maps dist prev)
       /\ Dijkstra fuel G s (Some v) None = Return (Path p))
    /\ dist !! v = Some (Finite d)
    /\ pathWeight G p = Some (Finite d).
Proof.
  intros Hhead Hlast Hpw.
  destruct full_settled as (stF & finF & mF & HrunF & HIF & HsetF & HcF).
  pose proof (settled_optimal finF mF stF HIF HsetF HcF q v (Finite W)
                Hhead Hlast Hpw) as Hopt.
  apply number_le_Finite in Hopt as (d & Hd & _).
  set (N0 := S (length (universe G s))).
  destruct (early_full G s weights_nonneg v None N0 [] 0 (init G s) stF
              (init_inv G s))
    as (stE & finE & mE & HrunE & HIE & HdE); [apply HrunF; unfold N0; lia|].
  rewrite Hd in HdE.
  destruct (inv_chain _ _ _ _ _ HIE v d HdE) as (p & Htr & Hpwp & _).
  assert (Hloops : forall fuel, (N0 <= fuel)%nat ->
            loop fuel G None None (init G s) = Return stF
            /\ loop fuel G (Some v) None (init G s) = Return stE).
  { intros fuel Hfuel. split.
    - apply HrunF. unfold N0 in Hfuel. lia.
    - by apply loop_fuel_mono with N0. }
  destruct (negb (bool_decide (prev stE !! v = Some nullNode))
            || isSource (Some s) v) eqn:Hguard.
  - exists (Nat.max N0 (length p)), (dist stF), (prev stF), p, d.
    split; [|split; [by apply getDist_Finite | done]].
    intros fuel Hfuel. destruct (Hloops fuel) as [HF HE]; [lia|].
    unfold Dijkstra. rewrite HF, HE. simpl. split; [done|].
    unfold tracePath. rewrite Hguard.
    rewrite (tracePath_while_traces _ v p Htr) by lia.
    by rewrite app_nil_r.
  - exists N0, (dist stF), (prev stF), [], d.
    split; [|split; [by apply getDist_Finite |]].
    + intros fuel Hfuel. destruct (Hloops fuel Hfuel) as [HF HE].
      unfold Dijkstra. rewrite HF, HE. simpl. split; [done|].
      unfold tracePath. by rewrite Hguard.
    + apply orb_false_iff in Hguard as [Hnull _].
      apply negb_false_iff, bool_decide_eq_true in Hnull.
      destruct (inv_parent _ _ _ _ _ HIE v d HdE) as [->|[u Hu]].
      * destruct (inv_source _ _ _ _ _ HIE) as [_ Hs]. rewrite Hs in HdE.
        by injection HdE as <-.
      * unfold getPrev in Hu. by rewrite Hnull in Hu.
Qed.

End Settled.

(** * The properties stated by the specification *)

(** ** Source equal to target *)

(** What a search whose target is its source returns, on every graph. *)
Lemma source_as_target {FH : FibonacciHeap} {TN : ToNumber} G s O fuel :
  Dijkstra (S fuel) G s (Some s) O
  = Return (Path (if bool_decide (s ∈ WeightedGraph.nodesIterator G)
                     && negb (truthy s)
                  then [] else [s])).
Proof.
  destruct (init_spec G s) as (HQ & HM & Hs & _ & Hp & Hn).
  assert (Hc : Q_contents (Q (init G s)) = {[s := 0]}).
  { rewrite HQ, Q_insert_spec; rewrite Q_new_spec; [|done].
    by rewrite insert_empty. }
  unfold Dijkstra. simpl.
  destruct (Q_isEmpty (Q (init G s))) eqn:He.
  { apply Q_isEmpty_spec in He. rewrite Hc in He.
    by apply (f_equal (fun m => m !! s)) in He;
      rewrite lookup_singleton_eq, lookup_empty in He. }
  destruct (Q_extractMinimum (Q (init G s))) as [[[k u] Q']|] eqn:Hex.
  2: { apply Q_extractMinimum_None, Q_isEmpty_spec in Hex. congruence. }
  apply Q_extractMinimum_Some in Hex as (Hu & _ & _).
  rewrite Hc, lookup_singleton in Hu.
  destruct (decide (s = u)) as [<-|]; [|done].
  unfold isTarget. rewrite bool_decide_eq_true_2 by done. simpl.
  unfold tracePath, isSource. rewrite Hn.
  rewrite (bool_decide_eq_true_2 (s = s)) by done. rewrite andb_true_r.
  destruct (decide (s ∈ WeightedGraph.nodesIterator G)) as [Hin|Hin].
  - rewrite (bool_decide_eq_true_2 _ Hin), bool_decide_eq_true_2 by done.
    simpl. destruct (truthy s); simpl; [|done].
    by rewrite Hp, tracePath_while_null.
  - rewrite (bool_decide_eq_false_2 _ Hin), bool_decide_eq_false_2 by done.
    simpl. by rewrite Hp, tracePath_while_null.
Qed.

(** C1: a search whose target is its source should return the one-element
    path of the source. On the graph whose only node is the number 0, the
    search from 0 to 0 returns the empty path, with every priority queue:
    the test [source && e === source] reads the source 0 as absent. *)
Theorem source_zero_gets_empty_path
    (FH : FibonacciHeap) (TN : ToNumber) (fuel : nat) :
  Dijkstra (S fuel) Gzero (Num 0) (Some (Num 0)) None = Return (Path []).
Proof. by rewrite source_as_target. Qed.

(** ** Unreachable targets *)

(** C2: a target that cannot be reached should get the empty path. The
    string D is no node of the graph of the scenarios and no arc leads to
    it, yet the search from A to D returns the path [[D]], with every
    priority queue: [prev.get(D)] is [undefined], which the test against
    [nullNode] lets through. *)
Theorem absent_target_gets_itself
    (FH : FibonacciHeap) (TN : ToNumber) (fuel : nat) :
  Dijkstra (4 + fuel) G3 A (Some D) None = Return (Path [D]).
Proof.
  apply (by_reference 4 G3 A (Some D) None); [done | done | done | lia].
Qed.

(** ** Weights and adjacency *)

(** C3: after every sequence of calls the weight map should hold an entry
    for a pair exactly when the adjacency holds its arc. After
    [addArc("a-b", "c", 1)] and [removeArc("a", "b-c")] the arc from "a-b"
    to "c" is still there and its weight is gone: both pairs are filed under
    the key "a-b-c". *)
Theorem clash_arc_without_weight :
  WeightedGraph.arc Gclash (Str "a-b") (Str "c") = true
  /\ hasWeight Gclash (Str "a-b") (Str "c") = false
  /\ weightKey (Str "a-b") (Str "c") = weightKey (Str "a") (Str "b-c").
Proof. by vm_compute. Qed.

(** C4: [weight] should return the stored numeric weight of every arc that
    exists, never an absent value. On the graph of C3 the arc from "a-b" to
    "c" exists, [weight] does not throw, and what it returns is
    [undefined]. *)
Theorem clash_weight_undefined :
  WeightedGraph.arc Gclash (Str "a-b") (Str "c") = true
  /\ WeightedGraph.weight Gclash (Str "a-b") (Str "c") = Return None.
Proof. by vm_compute. Qed.

(** [weight] throws exactly on the missing arcs, and reads the weight map
    under the key of the pair otherwise. *)
Lemma weight_reads_key G n1 n2 :
  (WeightedGraph.weight G n1 n2 = Throw "Invalid nodes"
   <-> WeightedGraph.arc G n1 n2 = false)
  /\ (WeightedGraph.arc G n1 n2 = true ->
      WeightedGraph.weight G n1 n2
      = Return (WeightedGraph.weights G !! weightKey n1 n2)).
Proof. split; [apply weight_throws | apply weight_of_arc]. Qed.

(** On a graph constructed from an adjacency in which the head of the arc
    is no key, [addArc] on that arc registers the head: the adjacency
    grows. *)
Lemma addArc_registers_head :
  WeightedGraph.arc Gdangling A B = true
  /\ WeightedGraph.adj (WeightedGraph.addArc Gdangling A B (Some 3))
     <> WeightedGraph.adj Gdangling.
Proof. split; [by vm_compute | by vm_compute]. Qed.

(** C10 (amended): when the arc from [n1] to [n2] exists and [n2] is a
    registered node, [addArc(n1, n2, w)] leaves the adjacency as it is and
    stores [w] as the weight of the arc, 0 when [w] is omitted; [addEdge]
    without a weight stores 0 as well. *)
Theorem addArc_existing_arc G n1 n2 w :
  WeightedGraph.arc G n1 n2 = true ->
  JSMap.has (WeightedGraph.adj G) n2 = true ->
  WeightedGraph.adj (WeightedGraph.addArc G n1 n2 w) = WeightedGraph.adj G
  /\ WeightedGraph.weights (WeightedGraph.addArc G n1 n2 w) !! weightKey n1 n2
     = Some (default 0 w)
  /\ WeightedGraph.weights (WeightedGraph.addArc G n1 n2 None) !! weightKey n1 n2
     = Some 0
  /\ WeightedGraph.weights (WeightedGraph.addEdge G n1 n2 None) !! weightKey n1 n2
     = Some 0.
Proof.
  intros Harc Hn2. split; [|split; [|split]].
  - unfold WeightedGraph.addArc, WeightedGraph.adj; simpl.
    by rewrite addArc_present.
  - unfold WeightedGraph.addArc; simpl. apply lookup_insert_eq.
  - unfold WeightedGraph.addArc; simpl. apply lookup_insert_eq.
  - unfold WeightedGraph.addEdge, WeightedGraph.addArc; simpl.
    rewrite lookup_insert.
    destruct (decide (weightKey n2 n1 = weightKey n1 n2)); [done|].
    apply lookup_insert_eq.
Qed.

Lemma addArc_existing_arc_witness :
  WeightedGraph.arc G3 A B = true
  /\ JSMap.has (WeightedGraph.adj G3) B = true
  /\ WeightedGraph.adj (WeightedGraph.addArc G3 A B (Some 9)) = WeightedGraph.adj G3
  /\ WeightedGraph.weights (WeightedGraph.addArc G3 A B (Some 9)) !! weightKey A B
     = Some 9.
Proof.
  split; [reflexivity|]. split; [reflexivity|].
  destruct (addArc_existing_arc G3 A B (Some 9) eq_refl eq_refl) as (Hadj & Hw & _).
  split; [exact Hadj | exact Hw].
Defined.

(** ** The concrete scenarios *)

(** C5: on the graph with arcs A→B (1), B→C (2) and A→C (5), the full
    search from A returns the distances {A: 0, B: 1, C: 3} and the
    predecessors {A: nullNode, B: A, C: B}, and the search from A to C
    returns the path [A, B, C], with every priority queue and once the
    fuel covers the four turns of the loop. *)
Theorem scenario_three_arcs
    (FH : FibonacciHeap) (TN : ToNumber) (fuel : nat) :
  (4 <= fuel)%nat ->
  Dijkstra fuel G3 A None None = Return (Maps G3dist G3prev)
  /\ Dijkstra fuel G3 A (Some C) None = Return (Path [A; B; C]).
Proof.
  intros Hfuel. split.
  - by apply (by_reference 4 G3 A None None).
  - by apply (by_reference 4 G3 A (Some C) None).
Qed.

Lemma scenario_three_arcs_witness :
  (4 <= 4)%nat
  /\ @Dijkstra MapHeap.instance Decimal.instance 4 G3 A None None
     = Return (Maps G3dist G3prev)
  /\ @Dijkstra MapHeap.instance Decimal.instance 4 G3 A (Some C) None
     = Return (Path [A; B; C]).
Proof.
  split; [lia|].
  apply (scenario_three_arcs MapHeap.instance Decimal.instance 4). lia.
Defined.

(** C6: with the option [maxCumulWeight], a relaxation whose candidate
    distance, the sum computed on line 85, is above the bound leaves the
    whole state as it is (distances, predecessors, queue and handle table);
    and on the graph of C5 the search from A to C under the bound 2 returns
    the empty path. *)
Theorem budget_skips_relaxation
    (FH : FibonacciHeap) (TN : ToNumber) :
  (forall G bound k u st v w,
     WeightedGraph.weight G u v = Return (Some w) ->
     number_ltb (Finite bound) (jsAdd k w) = true ->
     relax G (Some {| maxCumulWeight := bound |}) k u st v = Return st)
  /\ (forall fuel, (3 <= fuel)%nat ->
        Dijkstra fuel G3 A (Some C) (Some {| maxCumulWeight := 2 |})
        = Return (Path [])).
Proof.
  split.
  - intros G bound k u st v w Hw Hover. unfold relax, bind. rewrite Hw.
    unfold overBudget, maxCumulWeight. by rewrite Hover.
  - intros fuel Hfuel.
    by apply (by_reference 3 G3 A (Some C) (Some {| maxCumulWeight := 2 |})).
Qed.

Lemma budget_skips_relaxation_witness :
  WeightedGraph.weight G3 A C = Return (Some 5)
  /\ number_ltb (Finite 2) (jsAdd 0 5) = true
  /\ @relax MapHeap.instance G3 (Some {| maxCumulWeight := 2 |}) 0 A
       (@init MapHeap.instance Decimal.instance G3 A) C
     = Return (@init MapHeap.instance Decimal.instance G3 A)
  /\ (3 <= 3)%nat
  /\ @Dijkstra MapHeap.instance Decimal.instance 3 G3 A (Some C)
       (Some {| maxCumulWeight := 2 |})
     = Return (Path []).
Proof.
  destruct (budget_skips_relaxation MapHeap.instance Decimal.instance)
    as [Hskip Hrun].
  split; [reflexivity|]. split; [reflexivity|].
  split; [apply (Hskip G3 2 0 A _ C 5); reflexivity|].
  split; [lia|]. apply Hrun. lia.
Defined.

(** ** The search on non-negative weights *)

(** With two arcs of weight 2^1023 in a row the second sum is [Infinity]:
    the node C, which can be reached from A, keeps the distance [Infinity]
    in the full search, and the search from A to C returns the empty path,
    whose arcs sum to 0. *)
Lemma overflow_hides_reachable_node :
  nonNegative Goverflow
  /\ reachable Goverflow A C
  /\ jsAdd two1023 two1023 = Infinity
  /\ @Dijkstra MapHeap.instance Decimal.instance 4 Goverflow A None None
     = Return (Maps (<[C := Infinity]> (<[B := Finite two1023]> {[A := Finite 0]}))
                    (<[C := nullNode]> (<[B := Some A]> {[A := nullNode]})))
  /\ @Dijkstra MapHeap.instance Decimal.instance 4 Goverflow A (Some C) None
     = Return (Path [])
  /\ pathWeight Goverflow [] = Some (Finite 0).
Proof.
  split; [by apply nonNegativeb_spec|].
  split.
  { apply reachable_step with B; [|reflexivity].
    apply reachable_step with A; [apply reachable_refl | reflexivity]. }
  split; [by vm_compute|]. split; [by vm_compute|]. split; by vm_compute.
Qed.

(** C7 (amended): on a graph whose weights are non-negative, for every node
    [v] to which a walk from [s] leads whose weight, summed from [s] on, is
    finite, both searches return once the fuel is large enough, and the
    distance the full search records for [v] is the sum of the arc weights
    along the path that the search from [s] to [v] returns. *)
Theorem full_distance_is_path_weight
    (FH : FibonacciHeap) (TN : ToNumber) (G : WeightedGraph.t) (s v : node)
    (q : list node) (W : Z) :
  nonNegative G ->
  head q = Some s -> last q = Some v -> pathWeight G q = Some (Finite W) ->
  exists N dist prev p d,
    (forall fuel, (N <= fuel)%nat ->
       Dijkstra fuel G s None None = Return (Maps dist prev)
       /\ Dijkstra fuel G s (Some v) None = Return (Path p))
    /\ dist !! v = Some (Finite d)
    /\ pathWeight G p = Some (Finite d).
Proof. intros Hnn. by apply target_path_weight. Qed.

Lemma G3_nonNegative : nonNegative G3.
Proof. by apply nonNegativeb_spec. Qed.

Lemma full_distance_is_path_weight_witness :
  nonNegative G3
  /\ head [A; C] = Some A /\ last [A; C] = Some C
  /\ pathWeight G3 [A; C] = Some (Finite 5)
  /\ exists N dist prev p d,
       (forall fuel, (N <= fuel)%nat ->
          @Dijkstra MapHeap.instance Decimal.instance fuel G3 A None None
          = Return (Maps dist prev)
          /\ @Dijkstra MapHeap.instance Decimal.instance fuel G3 A (Some C) None
             = Return (Path p))
       /\ dist !! C = Some (Finite d)
       /\ pathWeight G3 p = Some (Finite d).
Proof.
  split; [exact G3_nonNegative|].
  split; [reflexivity|]. split; [reflexivity|]. split; [reflexivity|].
  exact (full_distance_is_path_weight MapHeap.instance Decimal.instance
           G3 A C [A; C] 5 G3_nonNegative eq_refl eq_refl eq_refl).
Defined.

(** C8: a relaxation either leaves the distance map as it is or writes one
    entry, and the value written is strictly below the one recorded before,
    an unset one counting as [Infinity]; hence through any run of the loop,
    from any state, no recorded distance increases. *)
Theorem distance_never_increases (FH : FibonacciHeap) :
  (forall G O k u st v st',
     relax G O k u st v = Return st' ->
     dist st' = dist st
     \/ exists alt,
          dist st' = <[v := Finite alt]> (dist st)
          /\ number_ltb (Finite alt) (getDist (dist st) v) = true)
  /\ (forall fuel G t O st st' x,
        loop fuel G t O st = Return st' ->
        number_le (getDist (dist st') x) (getDist (dist st) x)).
Proof.
  split.
  - intros G O k u st v st'. apply relax_write.
  - intros fuel G t O st st' x. apply loop_le.
Qed.

(** C9: on a graph whose weights are non-negative the full search returns
    once the fuel exceeds the number of nodes it can meet, and in the maps
    it returns every node other than the source that has a finite distance
    has a predecessor, and its distance is the sum, as line 85 computes it,
    of the distance of the predecessor and the weight of the arc between
    them: their exact sum as long as that does not exceed 2^53. *)
Theorem distance_through_predecessor
    (FH : FibonacciHeap) (TN : ToNumber) (G : WeightedGraph.t) (s : node) :
  nonNegative G ->
  exists dist prev,
    (forall fuel, (length (universe G s) < fuel)%nat ->
       Dijkstra fuel G s None None = Return (Maps dist prev))
    /\ forall v d, dist !! v = Some (Finite d) -> v <> s ->
         exists u du w,
           prev !! v = Some (Some u)
           /\ dist !! u = Some (Finite du)
           /\ WeightedGraph.weight G u v = Return (Some w)
           /\ jsAdd du w = Finite d
           /\ (du + w <= two53 -> d = du + w).
Proof. intros Hnn. by apply full_search_tree. Qed.

Lemma distance_through_predecessor_witness :
  nonNegative G3
  /\ exists dist prev,
       (forall fuel, (length (universe G3 A) < fuel)%nat ->
          @Dijkstra MapHeap.instance Decimal.instance fuel G3 A None None
          = Return (Maps dist prev))
       /\ forall v d, dist !! v = Some (Finite d) -> v <> A ->
            exists u du w,
              prev !! v = Some (Some u)
              /\ dist !! u = Some (Finite du)
              /\ WeightedGraph.weight G3 u v = Return (Some w)
              /\ jsAdd du w = Finite d
              /\ (du + w <= two53 -> d = du + w).
Proof.
  split; [exact G3_nonNegative|].
  exact (distance_through_predecessor MapHeap.instance Decimal.instance
           G3 A G3_nonNegative).
Defined.

Lemma distance_never_increases_witness :
  exists st',
    @relax MapHeap.instance G3 None 0 A
      (@init MapHeap.instance Decimal.instance G3 A) B = Return st'
    /\ (dist st' = dist (@init MapHeap.instance Decimal.instance G3 A)
        \/ exists alt,
             dist st'
             = <[B := Finite alt]> (dist (@init MapHeap.instance Decimal.instance G3 A))
             /\ number_ltb (Finite alt)
                  (getDist (dist (@init MapHeap.instance Decimal.instance G3 A)) B)
                = true).
Proof.
  eexists. split; [reflexivity|].
  apply (proj1 (distance_never_increases MapHeap.instance) G3 None 0 A _ B).
  reflexivity.
Defined.

(** * Further properties of the graph classes *)

Section MoreMapFacts.
Context {V : Type}.
Implicit Types (m : list (node * V)) (k : node) (v : V).

Lemma keys_set m k v :
  JSMap.keys (JSMap.set m k v)
  = if JSMap.has m k then JSMap.keys m else JSMap.keys m ++ [k].
Proof.
  unfold JSMap.has, JSMap.keys.
  induction m as [|[k0 v0] m IH]; simpl; [done|].
  destruct (decide (k0 = k)) as [->|Hne]; simpl; [done|].
  rewrite IH. by destruct (JSMap.get m k).
Qed.

Lemma has_keys m k : JSMap.has m k = true <-> k ∈ JSMap.keys m.
Proof. rewrite has_get. apply get_keys. Qed.

Lemma keys_set_present m k v :
  JSMap.has m k = true -> JSMap.keys (JSMap.set m k v) = JSMap.keys m.
Proof. intros Hk. by rewrite keys_set, Hk. Qed.
End MoreMapFacts.

Section MoreGraphFacts.
Implicit Types (G : Graph.t) (n x y a b : node).

Lemma nodes_addNode G n :
  Graph.nodes (Graph.addNode G n)
  = if JSMap.has (Graph.adj G) n then Graph.nodes G else Graph.nodes G ++ [n].
Proof.
  unfold Graph.addNode, Graph.nodes, Graph.nodesIterator.
  destruct (JSMap.has (Graph.adj G) n) eqn:Hn; simpl; [done|].
  by rewrite keys_set, Hn.
Qed.

Lemma nodes_addNode_prefix G n :
  Graph.nodes G `prefix_of` Graph.nodes (Graph.addNode G n).
Proof.
  rewrite nodes_addNode. destruct (JSMap.has (Graph.adj G) n); [done|].
  by apply prefix_app_r.
Qed.

Lemma elem_of_nodes_addNode G n x :
  x ∈ Graph.nodes (Graph.addNode G n) <-> x = n \/ x ∈ Graph.nodes G.
Proof.
  unfold Graph.nodes, Graph.nodesIterator.
  rewrite <- !has_keys. apply has_addNode.
Qed.

Lemma nodes_addArc G n1 n2 :
  Graph.nodes (Graph.addArc G n1 n2)
  = Graph.nodes (Graph.addNode (Graph.addNode G n1) n2).
Proof.
  unfold Graph.addArc.
  destruct (JSMap.get (Graph.adj (Graph.addNode (Graph.addNode G n1) n2)) n1)
    as [s|] eqn:Hs; [|done].
  unfold Graph.nodes, Graph.nodesIterator; simpl.
  apply keys_set_present, has_get. by rewrite Hs.
Qed.

Lemma nodes_removeArc G n1 n2 :
  Graph.nodes (Graph.removeArc G n1 n2) = Graph.nodes G.
Proof.
  unfold Graph.removeArc.
  destruct (JSMap.get (Graph.adj G) n1) as [s|] eqn:Hs; [|done].
  unfold Graph.nodes, Graph.nodesIterator; simpl.
  apply keys_set_present, has_get. by rewrite Hs.
Qed.

Lemma nodes_addArc_prefix G n1 n2 :
  Graph.nodes G `prefix_of` Graph.nodes (Graph.addArc G n1 n2).
Proof.
  rewrite nodes_addArc.
  etrans; [apply (nodes_addNode_prefix G n1) | apply nodes_addNode_prefix].
Qed.

End MoreGraphFacts.

(** X1: no call on a weighted graph removes a node or changes the order in
    which the nodes are enumerated: the node list before the call is a
    prefix of the node list after it. *)
Theorem nodes_only_grow (G : WeightedGraph.t) (c : call) :
  Graph.nodes (WeightedGraph.super G)
  `prefix_of` Graph.nodes (WeightedGraph.super (perform G c)).
Proof.
  destruct c as [n|n1 n2 w|n1 n2 w|n1 n2|n1 n2]; simpl.
  - apply nodes_addNode_prefix.
  - apply nodes_addArc_prefix.
  - etrans; [apply (nodes_addArc_prefix _ n1 n2) | apply nodes_addArc_prefix].
  - by rewrite nodes_removeArc.
  - by rewrite !nodes_removeArc.
Qed.

Section WellFormed.
Implicit Types (G : Graph.t) (n x y a b : node).

Lemma get_addNode G n x :
  JSMap.get (Graph.adj (Graph.addNode G n)) x
  = if decide (n = x)
    then Some (default [] (JSMap.get (Graph.adj G) n))
    else JSMap.get (Graph.adj G) x.
Proof.
  unfold Graph.addNode, JSMap.has.
  destruct (JSMap.get (Graph.adj G) n) as [l|] eqn:Hn; simpl.
  - destruct (decide (n = x)) as [<-|]; [done | done].
  - rewrite get_set. by destruct (decide (n = x)).
Qed.

Lemma wellFormed_new : wellFormed Graph.new.
Proof. split; [apply NoDup_nil_2 | done]. Qed.

Lemma wellFormed_addNode G n : wellFormed G -> wellFormed (Graph.addNode G n).
Proof.
  intros [Hnodes Hadj]. split.
  - rewrite nodes_addNode. destruct (JSMap.has (Graph.adj G) n) eqn:Hn; [done|].
    apply NoDup_app. split; [done|]. split; [|apply NoDup_singleton].
    intros x Hx ->%list_elem_of_singleton.
    apply has_keys in Hx. unfold Graph.nodes, Graph.nodesIterator in *. congruence.
  - intros x l. rewrite get_addNode.
    destruct (decide (n = x)) as [<-|Hne].
    + destruct (JSMap.get (Graph.adj G) n) as [l0|] eqn:Hn; simpl; intros [= <-].
      * destruct (Hadj n l0 Hn) as [Hnd Hin]. split; [done|].
        intros v Hv. apply elem_of_nodes_addNode. right. by apply Hin.
      * split; [apply NoDup_nil_2 | by intros v ?%elem_of_nil].
    + intros Hx. destruct (Hadj x l Hx) as [Hnd Hin]. split; [done|].
      intros v Hv. apply elem_of_nodes_addNode. right. by apply Hin.
Qed.

Lemma wellFormed_addArc G n1 n2 : wellFormed G -> wellFormed (Graph.addArc G n1 n2).
Proof.
  intros HG.
  pose proof (wellFormed_addNode _ n2 (wellFormed_addNode G n1 HG)) as [Hnodes Hadj].
  pose proof (nodes_addArc G n1 n2) as Hsame.
  split; [by rewrite Hsame|]. rewrite Hsame.
  assert (Hn2 : n2 ∈ Graph.nodes (Graph.addNode (Graph.addNode G n1) n2)).
  { apply elem_of_nodes_addNode. by left. }
  unfold Graph.addArc.
  destruct (JSMap.get (Graph.adj (Graph.addNode (Graph.addNode G n1) n2)) n1)
    as [s|] eqn:Hs; [|done].
  intros x l. simpl. rewrite get_set.
  destruct (decide (n1 = x)) as [<-|Hne]; [|apply Hadj].
  intros [= <-]. destruct (Hadj n1 s Hs) as [Hnd Hin].
  unfold JSSet.add, JSSet.has. destruct (bool_decide (n2 ∈ s)) eqn:Hb; [done|].
  apply bool_decide_eq_false in Hb. split.
  - apply NoDup_app. split; [done|]. split; [|apply NoDup_singleton].
    by intros v Hv ->%list_elem_of_singleton.
  - intros v [Hv| ->%list_elem_of_singleton]%elem_of_app; [by apply Hin | done].
Qed.

Lemma wellFormed_removeArc G n1 n2 :
  wellFormed G -> wellFormed (Graph.removeArc G n1 n2).
Proof.
  intros [Hnodes Hadj]. pose proof (nodes_removeArc G n1 n2) as Hsame.
  split; [by rewrite Hsame|]. rewrite Hsame.
  unfold Graph.removeArc.
  destruct (JSMap.get (Graph.adj G) n1) as [s|] eqn:Hs; [|done].
  intros x l. simpl. rewrite get_set.
  destruct (decide (n1 = x)) as [<-|Hne]; [|apply Hadj].
  intros [= <-]. destruct (Hadj n1 s Hs) as [Hnd Hin].
  unfold JSSet.delete. split; [by apply NoDup_filter|].
  intros v [_ Hv]%list_elem_of_filter. by apply Hin.
Qed.

Lemma wellFormed_perform (G : WeightedGraph.t) (c : call) :
  wellFormed (WeightedGraph.super G) ->
  wellFormed (WeightedGraph.super (perform G c)).
Proof.
  intros HG. destruct c as [n|n1 n2 w|n1 n2 w|n1 n2|n1 n2]; simpl.
  - by apply wellFormed_addNode.
  - by apply wellFormed_addArc.
  - by do 2 apply wellFormed_addArc.
  - by apply wellFormed_removeArc.
  - by do 2 apply wellFormed_removeArc.
Qed.

End WellFormed.

(** X2: whatever the sequence of calls on a graph that starts empty, the
    adjacency stays well formed: no node is registered twice, no neighbour
    is listed twice, and every neighbour is a registered node. *)
Theorem built_wellFormed (cs : list call) :
  wellFormed (WeightedGraph.super (build cs)).
Proof.
  unfold build.
  assert (H0 : wellFormed (WeightedGraph.super WeightedGraph.new))
    by apply wellFormed_new.
  revert H0. generalize WeightedGraph.new.
  induction cs as [|c cs IH]; intros G HG; simpl; [done|].
  apply IH. by apply wellFormed_perform.
Qed.

Lemma G3_wellFormed : wellFormed (WeightedGraph.super G3).
Proof.
  change (WeightedGraph.super G3)
    with (Graph.addArc (Graph.addArc (Graph.addArc Graph.new A B) B C) A C).
  do 3 apply wellFormed_addArc. apply wellFormed_new.
Qed.

Lemma edgeAB_wellFormed :
  wellFormed (WeightedGraph.super (build [AddEdge A B None])).
Proof.
  change (WeightedGraph.super (build [AddEdge A B None]))
    with (Graph.addArc (Graph.addArc Graph.new A B) B A).
  do 2 apply wellFormed_addArc. apply wellFormed_new.
Qed.

Section Enumerations.
Implicit Types (G : Graph.t) (n x y a b : node).

Lemma flat_map_bind {X Y : Type} (f : X -> list Y) (l : list X) :
  flat_map f l = l ≫= f.
Proof. induction l as [|x l IH]; simpl; [done | by rewrite IH]. Qed.

Lemma arc_nodes G a b :
  Graph.arc G a b = true -> a ∈ Graph.nodes G.
Proof.
  unfold Graph.arc. intros Harc.
  apply get_keys. by destruct (JSMap.get (Graph.adj G) a).
Qed.

Lemma arc_head_node G a b :
  wellFormed G -> Graph.arc G a b = true -> b ∈ Graph.nodes G.
Proof.
  intros [_ Hadj]. unfold Graph.arc.
  destruct (JSMap.get (Graph.adj G) a) as [l|] eqn:Hl; [|done].
  unfold JSSet.has. rewrite bool_decide_eq_true. by apply (Hadj a l Hl).
Qed.

Lemma elem_of_arcs G a b :
  (a, b) ∈ Graph.arcs G
  <-> a ∈ Graph.nodes G /\ b ∈ Graph.nodes G /\ Graph.arc G a b = true.
Proof.
  unfold Graph.arcs. rewrite !flat_map_bind, list_elem_of_bind. split.
  - intros (n1 & Hin & Hn1). rewrite flat_map_bind, list_elem_of_bind in Hin.
    destruct Hin as (n2 & Hin & Hn2).
    destruct (Graph.arc G n1 n2) eqn:Harc; [|by apply elem_of_nil in Hin].
    apply list_elem_of_singleton in Hin as [= -> ->]. done.
  - intros (Ha & Hb & Harc). exists a. split; [|done].
    rewrite flat_map_bind, list_elem_of_bind. exists b. split; [|done].
    rewrite Harc. by apply list_elem_of_singleton.
Qed.

Lemma elem_of_edges G a b :
  (a, b) ∈ Graph.edges G
  <-> exists i j, (i <= j)%nat /\ Graph.nodes G !! i = Some a
                  /\ Graph.nodes G !! j = Some b /\ Graph.edge G a b = true.
Proof.
  unfold Graph.edges. rewrite flat_map_bind, list_elem_of_bind. split.
  - intros (i & Hin & Hi). rewrite flat_map_bind, list_elem_of_bind in Hin.
    destruct Hin as (j & Hin & Hj).
    apply list_elem_of_In, in_seq in Hj.
    destruct (Graph.nodes G !! i) as [ni|] eqn:Hni; [|by apply elem_of_nil in Hin].
    destruct (Graph.nodes G !! j) as [nj|] eqn:Hnj; [|by apply elem_of_nil in Hin].
    destruct (Graph.edge G ni nj) eqn:He; [|by apply elem_of_nil in Hin].
    apply list_elem_of_singleton in Hin as [= -> ->].
    exists i, j. split; [lia | done].
  - intros (i & j & Hij & Hi & Hj & He).
    pose proof (lookup_lt_Some _ _ _ Hi). pose proof (lookup_lt_Some _ _ _ Hj).
    exists i. split; [|apply list_elem_of_In, in_seq; lia].
    rewrite flat_map_bind, list_elem_of_bind. exists j.
    split; [|apply list_elem_of_In, in_seq; lia].
    rewrite Hi, Hj, He. by apply list_elem_of_singleton.
Qed.

End Enumerations.

(** X3: on a well-formed graph, [arcs] lists every arc, and lists it once. *)
Theorem arcs_lists_each_arc_once (G : Graph.t) :
  wellFormed G ->
  NoDup (Graph.arcs G)
  /\ forall a b, (a, b) ∈ Graph.arcs G <-> Graph.arc G a b = true.
Proof.
  intros HG. split.
  - destruct HG as [Hnodes _]. unfold Graph.arcs. rewrite flat_map_bind.
    apply NoDup_bind; [| |done].
    + intros n1 n1' [a b] _ _ H1 H2.
      rewrite flat_map_bind, list_elem_of_bind in H1, H2.
      destruct H1 as (n2 & H1 & _), H2 as (n2' & H2 & _).
      destruct (Graph.arc G n1 n2); [|by apply elem_of_nil in H1].
      destruct (Graph.arc G n1' n2'); [|by apply elem_of_nil in H2].
      apply list_elem_of_singleton in H1, H2. congruence.
    + intros n1 _. rewrite flat_map_bind. apply NoDup_bind; [| |done].
      * intros n2 n2' [a b] _ _ H1 H2.
        destruct (Graph.arc G n1 n2); [|by apply elem_of_nil in H1].
        destruct (Graph.arc G n1 n2'); [|by apply elem_of_nil in H2].
        apply list_elem_of_singleton in H1, H2. congruence.
      * intros n2 _. destruct (Graph.arc G n1 n2);
          [apply NoDup_singleton | apply NoDup_nil_2].
  - intros a b. rewrite elem_of_arcs. split; [by intros (_ & _ & ?)|].
    intros Harc. split; [by apply arc_nodes with b|].
    split; [by apply arc_head_node with a | done].
Qed.

Lemma arcs_lists_each_arc_once_witness :
  wellFormed (WeightedGraph.super G3)
  /\ NoDup (Graph.arcs (WeightedGraph.super G3))
  /\ forall a b, (a, b) ∈ Graph.arcs (WeightedGraph.super G3)
                 <-> Graph.arc (WeightedGraph.super G3) a b = true.
Proof.
  split.
  - exact G3_wellFormed.
  - exact (arcs_lists_each_arc_once (WeightedGraph.super G3) G3_wellFormed).
Defined.

(** X4: on a well-formed graph, [edges] lists only pairs joined in both
    directions, lists every such pair in one order or the other, and never
    lists a pair of distinct nodes in both orders. *)
Theorem edges_lists_each_edge_once (G : Graph.t) :
  wellFormed G ->
  (forall a b, (a, b) ∈ Graph.edges G -> Graph.edge G a b = true)
  /\ (forall a b, Graph.edge G a b = true ->
        (a, b) ∈ Graph.edges G \/ (b, a) ∈ Graph.edges G)
  /\ (forall a b, a <> b -> (a, b) ∈ Graph.edges G -> (b, a) ∉ Graph.edges G).
Proof.
  intros [Hnodes _]. split; [|split].
  - intros a b (i & j & _ & _ & _ & He)%elem_of_edges. done.
  - intros a b He. pose proof He as [Hab Hba]%andb_prop.
    apply arc_nodes, list_elem_of_lookup in Hab as [i Hi].
    apply arc_nodes, list_elem_of_lookup in Hba as [j Hj].
    destruct (decide (i <= j)%nat).
    + left. apply elem_of_edges. by exists i, j.
    + right. apply elem_of_edges. exists j, i.
      split; [lia|]. split; [done|]. split; [done|].
      unfold Graph.edge in *. by rewrite andb_comm.
  - intros a b Hne (i & j & Hij & Hi & Hj & _)%elem_of_edges
      (i' & j' & Hij' & Hi' & Hj' & _)%elem_of_edges.
    pose proof (NoDup_lookup _ _ _ _ Hnodes Hi Hj') as ->.
    pose proof (NoDup_lookup _ _ _ _ Hnodes Hj Hi') as ->.
    assert (i' = j') as -> by lia. congruence.
Qed.

Lemma edges_lists_each_edge_once_witness :
  wellFormed (WeightedGraph.super (build [AddEdge A B None]))
  /\ (A, B) ∈ Graph.edges (WeightedGraph.super (build [AddEdge A B None]))
  /\ (B, A) ∉ Graph.edges (WeightedGraph.super (build [AddEdge A B None])).
Proof.
  pose proof edgeAB_wellFormed as Hwf.
  split; [exact Hwf|].
  assert (Hin : (A, B) ∈ Graph.edges (WeightedGraph.super (build [AddEdge A B None]))).
  { vm_compute. left. }
  split; [exact Hin|].
  apply (proj2 (proj2 (edges_lists_each_edge_once _ Hwf)) A B); [discriminate | exact Hin].
Defined.

(** X5: on a well-formed graph, [connections(n)] holds exactly the nodes
    adjacent to [n], and being connected is symmetric. *)
Theorem connections_are_adjacent (G : Graph.t) (n x : node) :
  wellFormed G ->
  (x ∈ Graph.connections G n <-> Graph.adjacent G n x = true)
  /\ (x ∈ Graph.connections G n <-> n ∈ Graph.connections G x).
Proof.
  intros HG.
  assert (Hconn : forall a b,
            b ∈ Graph.connections G a <-> Graph.adjacent G a b = true).
  { intros a b. unfold Graph.connections.
    rewrite list_elem_of_In, filter_In, <- list_elem_of_In.
    split; [by intros [_ ?]|]. intros Hadj. split; [|done].
    unfold Graph.adjacent in Hadj. apply orb_prop in Hadj as [Harc|Harc].
    - by apply arc_head_node with a.
    - by apply arc_nodes with a. }
  split; [apply Hconn|]. rewrite !Hconn. unfold Graph.adjacent.
  by rewrite orb_comm.
Qed.

Lemma connections_are_adjacent_witness :
  wellFormed (WeightedGraph.super G3)
  /\ (C ∈ Graph.connections (WeightedGraph.super G3) A
      <-> Graph.adjacent (WeightedGraph.super G3) A C = true).
Proof.
  pose proof G3_wellFormed as Hwf.
  split; [exact Hwf|].
  exact (proj1 (connections_are_adjacent (WeightedGraph.super G3) A C Hwf)).
Defined.

(** X6: on a well-formed graph, [degree(n)] is the number of nodes that
    [n] has an arc to; it is 0 for a value that is no node. *)
Theorem degree_counts_arcs (G : Graph.t) (n : node) :
  wellFormed G ->
  Graph.degree G n
  = length (List.filter (fun m => Graph.arc G n m) (Graph.nodes G))
  /\ (n ∉ Graph.nodes G -> Graph.degree G n = 0%nat).
Proof.
  intros [Hnodes Hadj]. unfold Graph.degree, Graph.arc.
  destruct (JSMap.get (Graph.adj G) n) as [l|] eqn:Hl.
  - destruct (Hadj n l Hl) as [Hnd Hin]. split.
    + apply Permutation_length, NoDup_Permutation; [done | |].
      * apply NoDup_ListNoDup, List.NoDup_filter. by apply NoDup_ListNoDup.
      * intros x. rewrite (list_elem_of_In (List.filter _ _) x), filter_In,
          <- list_elem_of_In.
        unfold JSSet.has. rewrite bool_decide_eq_true.
        split; [intros Hx; split; [by apply Hin | done] | by intros [_ ?]].
    + intros Hn. destruct Hn. apply get_keys. by rewrite Hl.
  - split; [|done]. clear. induction (Graph.nodes G) as [|m ms IH]; [done | exact IH].
Qed.

Lemma degree_counts_arcs_witness :
  wellFormed (WeightedGraph.super G3)
  /\ Graph.degree (WeightedGraph.super G3) A
     = length (List.filter (fun m => Graph.arc (WeightedGraph.super G3) A m)
                 (Graph.nodes (WeightedGraph.super G3))).
Proof.
  pose proof G3_wellFormed as Hwf.
  split; [exact Hwf|].
  exact (proj1 (degree_counts_arcs (WeightedGraph.super G3) A Hwf)).
Defined.

(** X7: [addArc(n1, n2)] adds the arc from [n1] to [n2] to those that
    were there and registers both ends; [removeArc(n1, n2)] takes that one
    arc away and keeps the node list. *)
Theorem arcs_after_addArc_removeArc (G : Graph.t) (n1 n2 x y : node) :
  (Graph.arc (Graph.addArc G n1 n2) x y = true
   <-> (x = n1 /\ y = n2) \/ Graph.arc G x y = true)
  /\ n1 ∈ Graph.nodes (Graph.addArc G n1 n2)
  /\ n2 ∈ Graph.nodes (Graph.addArc G n1 n2)
  /\ (Graph.arc (Graph.removeArc G n1 n2) x y = true
      <-> ~ (x = n1 /\ y = n2) /\ Graph.arc G x y = true)
  /\ Graph.nodes (Graph.removeArc G n1 n2) = Graph.nodes G.
Proof.
  split; [apply arc_addArc|]. rewrite nodes_addArc.
  split; [apply elem_of_nodes_addNode; right; apply elem_of_nodes_addNode; by left|].
  split; [apply elem_of_nodes_addNode; by left|].
  split; [apply arc_removeArc | apply nodes_removeArc].
Qed.

(** X8: after [addEdge(n1, n2)] the two nodes are joined by an edge, in
    whichever order they are asked; after [removeEdge(n1, n2)] they are
    not even adjacent; every other arc is as it was before either call. *)
Theorem edge_after_addEdge_removeEdge (G : Graph.t) (n1 n2 : node) :
  Graph.edge (Graph.addEdge G n1 n2) n1 n2 = true
  /\ Graph.edge (Graph.addEdge G n1 n2) n2 n1 = true
  /\ Graph.adjacent (Graph.removeEdge G n1 n2) n1 n2 = false
  /\ forall x y, ~ (x = n1 /\ y = n2) -> ~ (x = n2 /\ y = n1) ->
       Graph.arc (Graph.addEdge G n1 n2) x y = Graph.arc G x y
       /\ Graph.arc (Graph.removeEdge G n1 n2) x y = Graph.arc G x y.
Proof.
  assert (H12 : Graph.arc (Graph.addEdge G n1 n2) n1 n2 = true).
  { unfold Graph.addEdge. apply arc_addArc. right. apply arc_addArc. by left. }
  assert (H21 : Graph.arc (Graph.addEdge G n1 n2) n2 n1 = true).
  { unfold Graph.addEdge. apply arc_addArc. by left. }
  unfold Graph.edge, Graph.adjacent. rewrite H12, H21.
  split; [done|]. split; [done|]. split.
  - apply orb_false_iff. split; apply not_true_is_false;
      unfold Graph.removeEdge; rewrite !arc_removeArc; tauto.
  - intros x y Hn12 Hn21. unfold Graph.addEdge, Graph.removeEdge. split.
    + destruct (Graph.arc G x y) eqn:Hxy.
      * apply arc_addArc. right. apply arc_addArc. by right.
      * apply not_true_is_false. rewrite !arc_addArc. rewrite Hxy.
        intros [?|[?|?]]; done.
    + destruct (Graph.arc G x y) eqn:Hxy.
      * rewrite !arc_removeArc. done.
      * apply not_true_is_false. rewrite !arc_removeArc. rewrite Hxy.
        by intros (_ & _ & ?).
Qed.

(** * Further properties of the weights *)

Section MoreWeightFacts.
Implicit Types (G : WeightedGraph.t) (n x y : node) (w : option Z).

Lemma weighted_arc_removed G n1 n2 :
  WeightedGraph.arc (WeightedGraph.removeArc G n1 n2) n1 n2 = false.
Proof. apply not_true_is_false. rewrite weighted_arc_removeArc. tauto. Qed.

End MoreWeightFacts.

(** X9: the weight stored by [addArc] or [addEdge] is the one [weight]
    reads back, 0 when none was given, and [addEdge] stores it for both
    directions; after [removeArc] or [removeEdge], [weight] throws for the
    pairs removed. *)
Theorem weight_after_add_and_remove
    (G : WeightedGraph.t) (n1 n2 : node) (w : option Z) :
  WeightedGraph.weight (WeightedGraph.addArc G n1 n2 w) n1 n2
  = Return (Some (default 0 w))
  /\ WeightedGraph.weight (WeightedGraph.addEdge G n1 n2 w) n1 n2
     = Return (Some (default 0 w))
  /\ WeightedGraph.weight (WeightedGraph.addEdge G n1 n2 w) n2 n1
     = Return (Some (default 0 w))
  /\ WeightedGraph.weight (WeightedGraph.removeArc G n1 n2) n1 n2
     = Throw "Invalid nodes"
  /\ WeightedGraph.weight (WeightedGraph.removeEdge G n1 n2) n1 n2
     = Throw "Invalid nodes"
  /\ WeightedGraph.weight (WeightedGraph.removeEdge G n1 n2) n2 n1
     = Throw "Invalid nodes".
Proof.
  split; [|split; [|split; [|split; [|split]]]].
  - rewrite weight_of_arc by (apply weighted_arc_addArc; by left).
    simpl. by rewrite lookup_insert_eq.
  - unfold WeightedGraph.addEdge.
    rewrite weight_of_arc
      by (apply weighted_arc_addArc; right; apply weighted_arc_addArc; by left).
    simpl. rewrite lookup_insert.
    destruct (decide (weightKey n2 n1 = weightKey n1 n2)); [done|].
    by rewrite lookup_insert_eq.
  - unfold WeightedGraph.addEdge.
    rewrite weight_of_arc by (apply weighted_arc_addArc; by left).
    simpl. by rewrite lookup_insert_eq.
  - apply weight_throws, weighted_arc_removed.
  - apply weight_throws, not_true_is_false. unfold WeightedGraph.removeEdge.
    rewrite !weighted_arc_removeArc. tauto.
  - apply weight_throws, weighted_arc_removed.
Qed.

(** X10: between nodes that are strings or safe integers, [addArc] and
    [removeArc] leave the outcome of [weight] as it was for every pair whose
    key differs from the key of the pair they are called on. *)
Theorem weight_of_other_keys
    (G : WeightedGraph.t) (n1 n2 x y : node) (w : option Z) :
  safeNode n1 -> safeNode n2 -> safeNode x -> safeNode y ->
  weightKey n1 n2 <> weightKey x y ->
  WeightedGraph.weight (WeightedGraph.addArc G n1 n2 w) x y
  = WeightedGraph.weight G x y
  /\ WeightedGraph.weight (WeightedGraph.removeArc G n1 n2) x y
     = WeightedGraph.weight G x y.
Proof.
  intros _ _ _ _ Hkey.
  assert (Hpair : ~ (x = n1 /\ y = n2)) by (intros [-> ->]; done).
  assert (Hadd : WeightedGraph.arc (WeightedGraph.addArc G n1 n2 w) x y
                 = WeightedGraph.arc G x y).
  { destruct (WeightedGraph.arc G x y) eqn:Hxy.
    - apply weighted_arc_addArc. by right.
    - apply not_true_is_false. rewrite weighted_arc_addArc, Hxy.
      by intros [?|?]. }
  assert (Hrem : WeightedGraph.arc (WeightedGraph.removeArc G n1 n2) x y
                 = WeightedGraph.arc G x y).
  { destruct (WeightedGraph.arc G x y) eqn:Hxy.
    - by apply weighted_arc_removeArc.
    - apply not_true_is_false. rewrite weighted_arc_removeArc, Hxy.
      by intros [_ ?]. }
  unfold WeightedGraph.weight. rewrite Hadd, Hrem. simpl.
  by rewrite lookup_insert_ne, lookup_delete_ne.
Qed.

Lemma weight_of_other_keys_witness :
  safeNode (Num 1) /\ safeNode (Num 2) /\ safeNode A
  /\ weightKey (Num 1) (Num 2) <> weightKey (Num 1) A
  /\ WeightedGraph.weight (WeightedGraph.addArc G3 (Num 1) (Num 2) (Some 9))
       (Num 1) A
     = WeightedGraph.weight G3 (Num 1) A
  /\ WeightedGraph.weight (WeightedGraph.removeArc G3 (Num 1) (Num 2)) (Num 1) A
     = WeightedGraph.weight G3 (Num 1) A.
Proof.
  assert (H1 : safeNode (Num 1)) by reflexivity.
  assert (H2 : safeNode (Num 2)) by reflexivity.
  assert (HA : safeNode A) by exact I.
  assert (Hkey : weightKey (Num 1) (Num 2) <> weightKey (Num 1) A)
    by discriminate.
  split; [exact H1|]. split; [exact H2|]. split; [exact HA|].
  split; [exact Hkey|].
  exact (weight_of_other_keys G3 (Num 1) (Num 2) (Num 1) A (Some 9)
           H1 H2 H1 HA Hkey).
Defined.

(** X11: when the calls that build a graph only name nodes that are
    strings or safe integers and whose pair keys are pairwise distinct,
    [weight] returns a number for every arc between those nodes, and the
    weight map holds nothing for the pairs that are no arc. *)
Theorem weights_follow_arcs (dom : list node) (cs : list call) (x y : node) :
  (forall n, n ∈ dom -> safeNode n) ->
  keysDistinct dom ->
  (forall c n, c ∈ cs -> n ∈ mentioned c -> n ∈ dom) ->
  x ∈ dom -> y ∈ dom ->
  (WeightedGraph.arc (build cs) x y = true ->
   exists w, WeightedGraph.weight (build cs) x y = Return (Some w))
  /\ (WeightedGraph.arc (build cs) x y = false ->
      WeightedGraph.weights (build cs) !! weightKey x y = None).
Proof.
  intros _ Hk Hcs Hx Hy.
  pose proof (synced_build dom cs Hk Hcs x y Hx Hy) as Hsync.
  unfold hasWeight in Hsync. rewrite bool_decide_eq_true in Hsync. split.
  - intros Harc. destruct (proj2 Hsync Harc) as [w Hw].
    exists w. by rewrite weight_of_arc, Hw.
  - intros Harc.
    destruct (WeightedGraph.weights (build cs) !! weightKey x y) as [w|] eqn:Hw;
      [|done].
    rewrite (proj1 Hsync (mk_is_Some _ _ eq_refl)) in Harc. done.
Qed.

Lemma G3_calls_in_dom :
  forall c n,
    c ∈ [AddArc A B (Some 1); AddArc B C (Some 2); AddArc A C (Some 5)] ->
    n ∈ mentioned c -> n ∈ [A; B; C].
Proof.
  intros c n Hc Hn.
  repeat (apply elem_of_cons in Hc as [->|Hc];
          [simpl in Hn;
           repeat (apply elem_of_cons in Hn as [->|Hn];
                   [repeat first [apply list_elem_of_here
                                 | apply list_elem_of_further]|]);
           by apply elem_of_nil in Hn|]).
  by apply elem_of_nil in Hc.
Qed.

Lemma G3_safe : forall n, n ∈ [A; B; C] -> safeNode n.
Proof.
  intros n Hn.
  repeat (apply elem_of_cons in Hn as [->|Hn]; [exact I|]).
  by apply elem_of_nil in Hn.
Qed.

Lemma weights_follow_arcs_witness :
  (forall n, n ∈ [A; B; C] -> safeNode n)
  /\ keysDistinct [A; B; C]
  /\ (WeightedGraph.arc G3 A B = true ->
      exists w, WeightedGraph.weight G3 A B = Return (Some w)).
Proof.
  split; [exact G3_safe|]. split; [exact G3_keysDistinct|].
  refine (proj1 (weights_follow_arcs [A; B; C]
            [AddArc A B (Some 1); AddArc B C (Some 2); AddArc A C (Some 5)]
            A B G3_safe G3_keysDistinct G3_calls_in_dom _ _)).
  - left.
  - right; left.
Defined.

(** X12: when the calls that build a graph only name nodes that are
    strings or safe integers and whose pair keys are pairwise distinct, and
    no call stores a negative weight, the graph built has non-negative
    weights in the sense the search needs: every arc has a stored weight,
    and it is at least 0. *)
Theorem built_nonNegative (dom : list node) (cs : list call) :
  (forall n, n ∈ dom -> safeNode n) ->
  keysDistinct dom ->
  (forall c n, c ∈ cs -> n ∈ mentioned c -> n ∈ dom) ->
  (forall c, c ∈ cs -> storesNonNegative c) ->
  nonNegative (build cs).
Proof.
  intros _ Hk.
  set (J := fun G : WeightedGraph.t =>
    forall u v, WeightedGraph.arc G u v = true ->
      u ∈ dom /\ v ∈ dom
      /\ exists w, WeightedGraph.weights G !! weightKey u v = Some w /\ 0 <= w).
  assert (Hadd : forall G n1 n2 w, n1 ∈ dom -> n2 ∈ dom -> 0 <= default 0 w ->
            J G -> J (WeightedGraph.addArc G n1 n2 w)).
  { intros G n1 n2 w H1 H2 Hw HG u v. rewrite weighted_arc_addArc. simpl.
    rewrite lookup_insert. intros [[-> ->]|Harc].
    - rewrite decide_True by done. split; [done|]. split; [done|]. by eexists.
    - destruct (HG u v Harc) as (Hu & Hv & w0 & Hw0 & Hle).
      split; [done|]. split; [done|].
      destruct (decide (weightKey n1 n2 = weightKey u v)); by eexists. }
  assert (Hrem : forall G n1 n2, n1 ∈ dom -> n2 ∈ dom ->
            J G -> J (WeightedGraph.removeArc G n1 n2)).
  { intros G n1 n2 H1 H2 HG u v. rewrite weighted_arc_removeArc. simpl.
    intros [Hne Harc]. destruct (HG u v Harc) as (Hu & Hv & w0 & Hw0 & Hle).
    split; [done|]. split; [done|]. exists w0. split; [|done].
    rewrite lookup_delete_ne; [done|]. intros Heq.
    destruct (Hk n1 n2 u v H1 H2 Hu Hv Heq) as [-> ->]. by apply Hne. }
  assert (Hgen : forall cs G,
            (forall c n, c ∈ cs -> n ∈ mentioned c -> n ∈ dom) ->
            (forall c, c ∈ cs -> storesNonNegative c) ->
            J G -> J (fold_left perform cs G)).
  { clear cs. induction cs as [|c cs IH]; intros G Hcs Hnn HG; simpl; [done|].
    apply IH.
    - intros c' n Hc'. apply Hcs. by right.
    - intros c' Hc'. apply Hnn. by right.
    - assert (Hm : forall n, n ∈ mentioned c -> n ∈ dom)
        by (intros n; apply Hcs; left).
      assert (Hc : storesNonNegative c) by (apply Hnn; left).
      destruct c as [n|n1 n2 w|n1 n2 w|n1 n2|n1 n2]; simpl in *.
      + intros u v. unfold WeightedGraph.arc, WeightedGraph.addNode; simpl.
        rewrite arc_addNode. apply HG.
      + apply Hadd; [apply Hm; set_solver | apply Hm; set_solver | done | done].
      + unfold WeightedGraph.addEdge.
        apply Hadd; [apply Hm; set_solver | apply Hm; set_solver | done |].
        apply Hadd; [apply Hm; set_solver | apply Hm; set_solver | done | done].
      + apply Hrem; [apply Hm; set_solver | apply Hm; set_solver | done].
      + unfold WeightedGraph.removeEdge.
        apply Hrem; [apply Hm; set_solver | apply Hm; set_solver |].
        apply Hrem; [apply Hm; set_solver | apply Hm; set_solver | done]. }
  intros Hcs Hnn u v Harc.
  destruct (Hgen cs WeightedGraph.new Hcs Hnn) with (u := u) (v := v)
    as (_ & _ & Hw); [by intros ? ? ? | exact Harc | exact Hw].
Qed.

Lemma built_nonNegative_witness :
  (forall n, n ∈ [A; B; C] -> safeNode n)
  /\ keysDistinct [A; B; C] /\ nonNegative G3.
Proof.
  split; [exact G3_safe|]. split; [exact G3_keysDistinct|].
  refine (built_nonNegative [A; B; C]
            [AddArc A B (Some 1); AddArc B C (Some 2); AddArc A C (Some 5)]
            G3_safe G3_keysDistinct G3_calls_in_dom _).
  intros c Hc.
  repeat (apply elem_of_cons in Hc as [->|Hc]; [simpl; lia|]).
  by apply elem_of_nil in Hc.
Defined.

(** * Further properties of the path reconstruction *)

Section MoreTraceFacts.
Implicit Types (prev : gmap node nodeOrNullNode) (p : list node) (u v : node).

Lemma tracePath_while_Return prev fuel :
  forall v acc r,
    tracePath_while fuel prev (Some v) acc = Return r ->
    exists p, r = p ++ acc /\ traces prev v p.
Proof.
  induction fuel as [|fuel IH]; intros v acc r; simpl; [done|].
  destruct (getPrev prev v) as [u|] eqn:Hu.
  - intros Hrun. destruct (IH u (v :: acc) r Hrun) as (p & -> & Hp).
    exists (p ++ [v]). split; [by rewrite <- app_assoc|].
    by apply traces_step with u.
  - rewrite tracePath_while_null. intros [= <-].
    exists [v]. split; [done | by apply traces_root].
Qed.

Lemma traces_links prev v p :
  traces prev v p ->
  last p = Some v
  /\ (exists r, head p = Some r /\ getPrev prev r = nullNode)
  /\ forall i a b, p !! i = Some a -> p !! S i = Some b ->
       prev !! b = Some (Some a).
Proof.
  induction 1 as [v Hv|v u p Hu Hp (Hlast & (r & Hr & Hroot) & Hlinks)].
  - split; [done|]. split; [by exists v|].
    intros i a b _ Hb. by destruct i.
  - split; [by rewrite last_snoc|]. split.
    + exists r. split; [|done]. destruct p; [done | by simpl in *].
    + intros i a b Ha Hb.
      destruct (decide (S i < length p)%nat) as [Hlt|Hge].
      * rewrite lookup_app_l in Ha, Hb by lia. by apply (Hlinks i).
      * assert (Hlen : S i = length p).
        { apply lookup_lt_Some in Hb. rewrite length_app in Hb. simpl in Hb. lia. }
        rewrite lookup_app_r in Hb by lia.
        rewrite Hlen, Nat.sub_diag in Hb. injection Hb as <-.
        rewrite lookup_app_l in Ha by lia.
        rewrite last_lookup in Hlast. rewrite <- Hlen in Hlast. simpl in Hlast.
        rewrite Ha in Hlast. injection Hlast as ->.
        by apply getPrev_Some.
Qed.

Lemma traces_functional prev v p q :
  traces prev v p -> traces prev v q -> p = q.
Proof.
  intros Hp. revert q.
  induction Hp as [v Hv|v u p Hu Hp IH]; intros q Hq.
  - destruct Hq as [v _|v u' q Hu' _]; [done | congruence].
  - destruct Hq as [v Hv|v u' q Hu' Hq]; [congruence|].
    assert (u' = u) as -> by congruence. by rewrite (IH q Hq).
Qed.

Lemma ancestor_null prev n : ancestor prev n nullNode = nullNode.
Proof. by destruct n. Qed.

Lemma ancestor_add prev n m e :
  ancestor prev (n + m) e = ancestor prev m (ancestor prev n e).
Proof.
  revert e. induction n as [|n IH]; intros e; simpl; [done|].
  destruct e as [v|]; [apply IH | by rewrite ancestor_null].
Qed.

Lemma ancestor_cycle prev c k j :
  ancestor prev (S k) (Some c) = Some c ->
  ancestor prev (j * S k) (Some c) = Some c.
Proof.
  intros Hc. induction j as [|j IH]; [done|].
  change (S j * S k)%nat with (S k + j * S k)%nat.
  by rewrite ancestor_add, Hc.
Qed.

Lemma tracePath_while_endless prev fuel :
  forall e acc,
    (forall n, ancestor prev n e <> nullNode) ->
    tracePath_while fuel prev e acc = OutOfFuel.
Proof.
  induction fuel as [|fuel IH]; intros e acc Hnever.
  - destruct e as [v|]; [done|]. by destruct (Hnever 0%nat).
  - destruct e as [v|]; [|by destruct (Hnever 0%nat)].
    simpl. apply IH. intros n. apply (Hnever (S n)).
Qed.

End MoreTraceFacts.

(** X13: a non-empty path returned by [tracePath] ends with the target,
    starts with a node that has no predecessor, and each of its nodes is
    the recorded predecessor of the next. *)
Theorem tracePath_follows_prev
    (fuel : nat) (prev : gmap node nodeOrNullNode)
    (target : node) (source : option node) (p : list node) :
  tracePath fuel prev target source = Return p ->
  p <> [] ->
  last p = Some target
  /\ (exists r, head p = Some r /\ getPrev prev r = nullNode)
  /\ forall i a b, p !! i = Some a -> p !! S i = Some b ->
       prev !! b = Some (Some a).
Proof.
  unfold tracePath. destruct (_ || _); [|by intros [= <-]].
  intros (q & -> & Hq)%tracePath_while_Return _. rewrite app_nil_r.
  by apply traces_links.
Qed.

Lemma tracePath_follows_prev_witness :
  tracePath 3 G3prev C None = Return [A; B; C]
  /\ [A; B; C] <> []
  /\ last [A; B; C] = Some C.
Proof.
  assert (Hrun : tracePath 3 G3prev C None = Return [A; B; C]) by reflexivity.
  assert (Hne : [A; B; C] <> []) by discriminate.
  split; [exact Hrun|]. split; [exact Hne|].
  exact (proj1 (tracePath_follows_prev 3 G3prev C None [A; B; C] Hrun Hne)).
Defined.

(** X14: when the walk back from the target reaches a node that lies on a
    cycle of the predecessor map, [tracePath] never returns: no amount of
    fuel is enough. *)
Theorem tracePath_loops_on_cycle
    (prev : gmap node nodeOrNullNode) (target c : node)
    (source : option node) (a k : nat) :
  ancestor prev a (Some target) = Some c ->
  ancestor prev (S k) (Some c) = Some c ->
  forall fuel, tracePath fuel prev target source = OutOfFuel.
Proof.
  intros Hreach Hcycle fuel.
  assert (Hnever : forall n, ancestor prev n (Some target) <> nullNode).
  { intros n Hn.
    pose proof (ancestor_cycle prev c k (S n) Hcycle) as Hc.
    rewrite <- Hreach, <- ancestor_add in Hc.
    assert (Hsplit : (a + S n * S k = n + (a + S n * S k - n))%nat) by lia.
    rewrite Hsplit, ancestor_add, Hn, ancestor_null, Hreach in Hc. done. }
  unfold tracePath.
  assert (Hguard : prev !! target <> Some nullNode).
  { intros Hnull. apply (Hnever 1%nat). simpl. unfold getPrev. by rewrite Hnull. }
  rewrite bool_decide_eq_false_2 by done. simpl.
  by apply tracePath_while_endless.
Qed.

Lemma tracePath_loops_on_cycle_witness :
  ancestor (<[A := Some B]> {[B := Some A]}) 0 (Some A) = Some A
  /\ ancestor (<[A := Some B]> {[B := Some A]}) 2 (Some A) = Some A
  /\ forall fuel,
       tracePath fuel (<[A := Some B]> {[B := Some A]}) A None = OutOfFuel.
Proof.
  split; [reflexivity|]. split; [reflexivity|].
  exact (tracePath_loops_on_cycle (<[A := Some B]> {[B := Some A]}) A A None 0 1
           eq_refl eq_refl).
Defined.

(** * Further properties of the search *)

Section NoThrow.
Context {FH : FibonacciHeap}.

Lemma relax_neighbour_returns G O k u st v :
  WeightedGraph.arc G u v = true ->
  exists st', relax G O k u st v = Return st'.
Proof.
  intros Harc.
  destruct (WeightedGraph.weights G !! weightKey u v) as [w|] eqn:Hk.
  - apply relax_returns with w. by rewrite weight_of_arc, Hk.
  - unfold relax, bind. rewrite weight_of_arc, Hk by done. by eexists.
Qed.

Lemma relaxAll_returns G O k u st :
  exists st',
    forOf (relax G O k u)
          (default [] (WeightedGraph.neighborsIterator G u)) st = Return st'.
Proof.
  destruct (forOf_invariant (relax G O k u) (fun _ _ => True)
              (default [] (WeightedGraph.neighborsIterator G u)) st I)
    as (st' & Hrun & _); [|by exists st'].
  intros seen v st0 Hv _. apply arc_neighbors in Hv.
  destruct (relax_neighbour_returns G O k u st0 v Hv) as [st1 Hr].
  by exists st1.
Qed.

Lemma loop_never_throws G t O fuel :
  forall st msg, loop fuel G t O st <> Throw msg.
Proof.
  induction fuel as [|fuel IH]; intros st msg; simpl; [done|].
  destruct (Q_isEmpty (Q st)) eqn:Hempty; [done|].
  destruct (Q_extractMinimum (Q st)) as [[[k u] Q']|] eqn:Hex.
  - destruct (isTarget t u); [done|].
    destruct (relaxAll_returns G O k u
                (mkState (dist st) (prev st) Q' (<[u := None]> (QMapping st))))
      as [st2 ->].
    simpl. apply IH.
  - apply Q_extractMinimum_None, Q_isEmpty_spec in Hex. congruence.
Qed.

End NoThrow.

Lemma tracePath_while_never_throws prev fuel :
  forall e acc msg, tracePath_while fuel prev e acc <> Throw msg.
Proof.
  induction fuel as [|fuel IH]; intros [v|] acc msg; simpl; done.
Qed.

(** X15: no call of [Dijkstra] throws, on any graph, with any weights and
    any priority queue that meets the contract: [weight] is only asked for
    neighbours, and the queue is only emptied while it holds an entry. *)
Theorem Dijkstra_never_throws
    (FH : FibonacciHeap) (TN : ToNumber) (fuel : nat) (G : WeightedGraph.t)
    (s : node) (t : option node) (O : option DijkstraOptions) (msg : string) :
  Dijkstra fuel G s t O <> Throw msg.
Proof.
  unfold Dijkstra.
  destruct (loop fuel G t O (init G s)) as [st|msg'|] eqn:Hloop; simpl.
  - destruct t as [t|]; [|done].
    unfold tracePath. destruct (_ || _); simpl; [|done].
    destruct (tracePath_while fuel (prev st) (Some t) []) as [p|msg'|] eqn:Hp;
      simpl; try done.
    by apply tracePath_while_never_throws in Hp.
  - by apply loop_never_throws in Hloop.
  - done.
Qed.

Section Budget.
Context {FH : FibonacciHeap} {TN : ToNumber}.
Variables (s : node) (o : DijkstraOptions).

Lemma relax_withinBudget G k u st v st' :
  withinBudget s o st -> relax G (Some o) k u st v = Return st' ->
  withinBudget s o st'.
Proof.
  intros HP Hr. destruct (relax_cases _ _ _ _ _ _ _ Hr)
    as [->|(w & alt & _ & _ & Hb & _ & Hd & _)]; [done|].
  intros x d. rewrite Hd. destruct (decide (v = x)) as [<-|Hne].
  - rewrite getDist_insert_eq. intros [= <-]. left.
    unfold overBudget in Hb. simpl in Hb. apply Z.ltb_ge in Hb. exact Hb.
  - rewrite getDist_insert_ne by done. apply HP.
Qed.

Lemma forOf_withinBudget G k u xs :
  forall st st',
    withinBudget s o st -> forOf (relax G (Some o) k u) xs st = Return st' ->
    withinBudget s o st'.
Proof.
  induction xs as [|v xs IH]; intros st st' HP; simpl; [by intros [= <-]|].
  destruct (relax G (Some o) k u st v) as [st1| |] eqn:Hr; simpl; try done.
  apply IH. by eapply relax_withinBudget.
Qed.

Lemma loop_withinBudget G t fuel :
  forall st st',
    withinBudget s o st -> loop fuel G t (Some o) st = Return st' ->
    withinBudget s o st'.
Proof.
  induction fuel as [|fuel IH]; intros st st' HP; simpl; [done|].
  destruct (Q_isEmpty (Q st)); [by intros [= <-]|].
  destruct (Q_extractMinimum (Q st)) as [[[k u] Q']|]; [|done].
  destruct (isTarget t u); [by intros [= <-]|].
  destruct (forOf _ _ _) as [st2| |] eqn:Hfor; simpl; try done.
  apply IH. eapply forOf_withinBudget; [|exact Hfor]. exact HP.
Qed.

Lemma init_withinBudget G : withinBudget s o (init G s).
Proof.
  destruct (init_spec G s) as (_ & _ & Hs & Hd & _).
  intros x d Hx. destruct (decide (x = s)) as [->|Hne].
  - right. rewrite Hs in Hx. by injection Hx as <-.
  - by rewrite Hd in Hx.
Qed.

End Budget.

(** X16: under the option [maxCumulWeight], whatever the weights, the full
    search records no distance above the bound for any node other than the
    source. *)
Theorem budget_bounds_distances
    (FH : FibonacciHeap) (TN : ToNumber) (fuel : nat) (G : WeightedGraph.t)
    (s : node) (o : DijkstraOptions)
    (dist : gmap node number) (prev : gmap node nodeOrNullNode) :
  Dijkstra fuel G s None (Some o) = Return (Maps dist prev) ->
  forall v d, dist !! v = Some (Finite d) -> v <> s -> d <= maxCumulWeight o.
Proof.
  unfold Dijkstra.
  destruct (loop fuel G None (Some o) (init G s)) as [st| |] eqn:Hloop;
    simpl; try done.
  intros [= <- <-] v d Hd Hv.
  pose proof (loop_withinBudget s o G None fuel _ _ (init_withinBudget s o G) Hloop)
    as HP.
  destruct (HP v d) as [Hle|[-> _]]; [by apply getDist_Finite | done | done].
Qed.

Lemma budget_bounds_distances_witness :
  @Dijkstra MapHeap.instance Decimal.instance 3 G3 A None
    (Some {| maxCumulWeight := 2 |})
  = Return (Maps (<[C := Infinity]> (<[B := Finite 1]> {[A := Finite 0]}))
                 (<[C := nullNode]> (<[B := Some A]> {[A := nullNode]})))
  /\ 1 <= 2.
Proof.
  assert (Hrun : @Dijkstra MapHeap.instance Decimal.instance 3 G3 A None
                   (Some {| maxCumulWeight := 2 |})
                 = Return (Maps (<[C := Infinity]> (<[B := Finite 1]> {[A := Finite 0]}))
                                (<[C := nullNode]> (<[B := Some A]> {[A := nullNode]}))))
    by reflexivity.
  split; [exact Hrun|].
  exact (budget_bounds_distances MapHeap.instance Decimal.instance 3 G3 A
           {| maxCumulWeight := 2 |} _ _ Hrun B 1 eq_refl ltac:(discriminate)).
Defined.

Section Shortest.
Context {FH : FibonacciHeap} {TN : ToNumber}.
Variables (G : WeightedGraph.t) (s : node).
Hypothesis weights_nonneg : nonNegative G.

(** The chain of a node with a distance starts at the source. *)
Lemma chain_head fin m st v d p :
  Inv G s fin m st -> getDist (dist st) v = Finite d ->
  traces (prev st) v p -> (forall x, x ∈ p -> x = v \/ x ∈ fin) ->
  head p = Some s.
Proof.
  intros HI Hd Htr Hel.
  destruct (traces_links _ _ _ Htr) as (_ & (r & Hr & Hroot) & _).
  rewrite Hr. f_equal.
  assert (Hin : r ∈ p) by (destruct p; simpl in *; [done|]; injection Hr as ->; left).
  assert (Hfinite : exists dr, getDist (dist st) r = Finite dr).
  { destruct (Hel r Hin) as [->|Hfin]; [by exists d|].
    destruct (inv_done _ _ _ _ _ HI r Hfin) as (dr & Hdr & _). by exists dr. }
  destruct Hfinite as [dr Hdr].
  destruct (inv_parent _ _ _ _ _ HI r dr Hdr) as [|[u Hu]]; [done|].
  unfold nullNode in Hroot. congruence.
Qed.

(** The state the full search ends on. *)
Lemma full_result fuel dist0 prev0 :
  Dijkstra fuel G s None None = Return (Maps dist0 prev0) ->
  exists st fin m,
    loop fuel G None None (init G s) = Return st
    /\ dist0 = dist st /\ prev0 = prev st
    /\ Inv G s fin m st /\ settled G fin st /\ Q_contents (Q st) = ∅.
Proof.
  unfold Dijkstra.
  destruct (loop fuel G None None (init G s)) as [st| |] eqn:Hloop;
    simpl; try done.
  intros [= <- <-].
  destruct (loop_settled G s weights_nonneg fuel [] 0 (init G s) st
              (init_inv G s) (settled_init G s) Hloop)
    as (fin & m & HI & Hset & Hc).
  by exists st, fin, m.
Qed.

Lemma full_returns fuel :
  (length (universe G s) < fuel)%nat ->
  exists dist0 prev0, Dijkstra fuel G s None None = Return (Maps dist0 prev0).
Proof.
  intros Hfuel.
  destruct (full_search G s weights_nonneg None) as (st & _ & _ & Hrun & _).
  exists (dist st), (prev st). unfold Dijkstra. by rewrite Hrun.
Qed.

Lemma full_shortest fuel dist0 prev0 :
  Dijkstra fuel G s None None = Return (Maps dist0 prev0) ->
  (forall q v W,
     head q = Some s -> last q = Some v -> pathWeight G q = Some W ->
     number_le (getDist dist0 v) W)
  /\ (forall v d, dist0 !! v = Some (Finite d) ->
        exists q, head q = Some s /\ last q = Some v
                  /\ pathWeight G q = Some (Finite d)).
Proof.
  intros (st & fin & m & _ & -> & -> & HI & Hset & Hc)%full_result. split.
  - intros q v W Hh Hl Hpw.
    by apply (settled_optimal G s weights_nonneg fin m st HI Hset Hc q v W).
  - intros v d Hd%getDist_Finite.
    destruct (inv_chain _ _ _ _ _ HI v d Hd) as (p & Htr & Hpw & Hel).
    exists p. split; [by eapply chain_head|]. split; [|done].
    by destruct (traces_links _ _ _ Htr) as (? & _).
Qed.

End Shortest.

(** X17: on a graph whose weights are non-negative the full search returns,
    and the distance it records for a node is the least weight of a walk
    from the source to it, the weight of a walk being summed from the source
    on as line 85 sums: no walk weighs less, and a finite distance is the
    weight of some walk. *)
Theorem full_search_is_shortest
    (FH : FibonacciHeap) (TN : ToNumber) (G : WeightedGraph.t) (s : node) :
  nonNegative G ->
  (forall fuel, (length (universe G s) < fuel)%nat ->
     exists dist prev, Dijkstra fuel G s None None = Return (Maps dist prev))
  /\ forall fuel dist prev,
       Dijkstra fuel G s None None = Return (Maps dist prev) ->
       (forall q v W,
          head q = Some s -> last q = Some v -> pathWeight G q = Some W ->
          number_le (getDist dist v) W)
       /\ (forall v d, dist !! v = Some (Finite d) ->
             exists q, head q = Some s /\ last q = Some v
                       /\ pathWeight G q = Some (Finite d)).
Proof.
  intros Hnn. split.
  - intros fuel. by apply full_returns.
  - intros fuel dist prev. by apply full_shortest.
Qed.

Lemma full_search_is_shortest_witness :
  nonNegative G3
  /\ number_le (getDist G3dist C) (Finite 5).
Proof.
  split; [exact G3_nonNegative|].
  assert (Hrun : @Dijkstra MapHeap.instance Decimal.instance 4 G3 A None None
                 = Return (Maps G3dist G3prev)) by reflexivity.
  exact (proj1 (proj2 (full_search_is_shortest MapHeap.instance Decimal.instance
                         G3 A G3_nonNegative) 4%nat G3dist G3prev Hrun)
           [A; C] C (Finite 5) eq_refl eq_refl eq_refl).
Defined.

Section Results.
Context {FH : FibonacciHeap} {TN : ToNumber}.
Variables (G : WeightedGraph.t) (s : node).
Hypothesis weights_nonneg : nonNegative G.

(** No relaxation ever gives the source a predecessor. *)
Lemma relax_source_prev O fin k st u v st' :
  Inv G s fin k st ->
  getDist (dist st) u = Finite k ->
  WeightedGraph.arc G u v = true ->
  relax G O k u st v = Return st' ->
  getPrev (prev st) s = nullNode -> getPrev (prev st') s = nullNode.
Proof.
  intros HI Hdu Harc Hr Hs.
  destruct (relax_cases _ _ _ _ _ _ _ Hr)
    as [->|(w & alt & Hw & Halt & _ & Hlt & _ & Hp & _)]; [done|].
  destruct (weight_nonneg G weights_nonneg u v Harc) as (w' & Hw' & Hw0).
  assert (w' = w) as -> by congruence.
  rewrite Hp. rewrite getPrev_insert_ne; [done|]. intros ->.
  destruct (inv_source _ _ _ _ _ HI) as [Hk0 Hds].
  destruct (inv_double _ _ _ _ _ HI u k Hdu) as [_ Hkfix].
  destruct (jsAdd_ge k w alt Hk0 Hkfix Hw0 Halt) as [Hge _].
  rewrite Hds in Hlt. simpl in Hlt. apply Z.ltb_lt in Hlt. lia.
Qed.

Lemma relaxAll_source_prev O fin k st u :
  Inv G s fin k st -> u ∈ fin -> getDist (dist st) u = Finite k ->
  getPrev (prev st) s = nullNode ->
  forall st',
    forOf (relax G O k u)
          (default [] (WeightedGraph.neighborsIterator G u)) st = Return st' ->
    getPrev (prev st') s = nullNode.
Proof.
  intros HI Hu Hdu Hs st' Hrun.
  set (P := fun (seen : list node) (st1 : state) =>
    Inv G s fin k st1 /\ getDist (dist st1) u = Finite k
    /\ getPrev (prev st1) s = nullNode).
  destruct (forOf_invariant (relax G O k u) P
              (default [] (WeightedGraph.neighborsIterator G u)) st)
    as (st2 & Hrun2 & _ & _ & Hs2); [done| |congruence].
  intros seen v st1 Hv (HI1 & Hdu1 & Hs1). apply arc_neighbors in Hv.
  destruct (relax_inv G s weights_nonneg O fin k st1 u v HI1 Hu Hdu1 Hv)
    as (st2 & Hr & HI2 & Hfr2).
  exists st2. split; [done|]. split; [done|]. split.
  - unfold getDist. destruct (Hfr2 u Hu) as [-> _]. exact Hdu1.
  - exact (relax_source_prev O fin k st1 u v st2 HI1 Hdu1 Hv Hr Hs1).
Qed.

Lemma loop_source_prev t O fuel :
  forall fin m st st',
    Inv G s fin m st -> getPrev (prev st) s = nullNode ->
    loop fuel G t O st = Return st' ->
    getPrev (prev st') s = nullNode.
Proof.
  induction fuel as [|fuel IH]; intros fin m st st' HI Hs; simpl; [done|].
  destruct (Q_isEmpty (Q st)); [by intros [= <-]|].
  destruct (Q_extractMinimum (Q st)) as [[[k u] Q']|] eqn:Hex; [|done].
  destruct (isTarget t u); [by intros [= <-]|].
  destruct (extract_inv G s fin m st k u Q' HI Hex) as (HI1 & Hdu & _).
  destruct (step_inv G s weights_nonneg O fin m st k u Q' HI Hex)
    as (st2 & Hfor & HI2 & _).
  rewrite Hfor. simpl. apply (IH (u :: fin) k st2 st' HI2).
  eapply relaxAll_source_prev; [exact HI1 | left | exact Hdu | exact Hs | exact Hfor].
Qed.

(** What the full search records about the source and about the nodes it
    cannot reach. *)
Lemma full_reach fuel dist0 prev0 :
  Dijkstra fuel G s None None = Return (Maps dist0 prev0) ->
  dist0 !! s = Some (Finite 0)
  /\ getPrev prev0 s = nullNode
  /\ (forall v, (exists d, dist0 !! v = Some (Finite d))
                <-> exists q W, head q = Some s /\ last q = Some v
                                /\ pathWeight G q = Some (Finite W))
  /\ (forall v d, dist0 !! v = Some (Finite d) -> reachable G s v)
  /\ (forall v, ~ reachable G s v -> v ∈ WeightedGraph.nodesIterator G ->
        prev0 !! v = Some nullNode).
Proof.
  intros Hrun.
  destruct (full_shortest G s weights_nonneg fuel dist0 prev0 Hrun)
    as [Hopt Hatt].
  destruct (full_result G s weights_nonneg fuel dist0 prev0 Hrun)
    as (st & fin & m & Hloop & -> & -> & HI & Hset & Hc).
  split; [apply getDist_Finite, (inv_source _ _ _ _ _ HI)|].
  split.
  { apply (loop_source_prev None None fuel [] 0 (init G s) st (init_inv G s));
      [|done]. by destruct (init_spec G s) as (_ & _ & _ & _ & Hp & _). }
  split; [|split].
  - intros v. split.
    + intros [d Hd]. destruct (Hatt v d Hd) as (q & Hh & Hl & Hpw).
      by exists q, d.
    + intros (q & W & Hh & Hl & Hpw).
      pose proof (Hopt q v (Finite W) Hh Hl Hpw) as Hle.
      apply number_le_Finite in Hle as (d & Hd & _).
      exists d. by apply getDist_Finite.
  - intros v d Hd%getDist_Finite. by apply (inv_reach _ _ _ _ _ HI v d).
  - intros v Hunreach Hnode.
    destruct (inv_nodes _ _ _ _ _ HI v Hnode) as [[u|] Hp]; [|done].
    apply getPrev_Some in Hp.
    destruct (inv_tree _ _ _ _ _ HI v u Hp) as (_ & du & w & d & _ & _ & _ & Hd).
    destruct Hunreach. by apply (inv_reach _ _ _ _ _ HI v d).
Qed.

End Results.

(** X18: in what the full search returns on non-negative weights, the
    source has distance 0 and no predecessor; a node has a finite distance
    exactly when some walk from the source to it has a finite weight, summed
    from the source on as line 85 sums; a node with a finite distance can be
    reached from the source; and a registered node that cannot be reached
    keeps [nullNode] as its predecessor. *)
Theorem full_search_reaches
    (FH : FibonacciHeap) (TN : ToNumber) (G : WeightedGraph.t) (s : node)
    (fuel : nat) (dist : gmap node number) (prev : gmap node nodeOrNullNode) :
  nonNegative G ->
  Dijkstra fuel G s None None = Return (Maps dist prev) ->
  dist !! s = Some (Finite 0)
  /\ getPrev prev s = nullNode
  /\ (forall v, (exists d, dist !! v = Some (Finite d))
                <-> exists q W, head q = Some s /\ last q = Some v
                                /\ pathWeight G q = Some (Finite W))
  /\ (forall v d, dist !! v = Some (Finite d) -> reachable G s v)
  /\ (forall v, ~ reachable G s v -> v ∈ WeightedGraph.nodesIterator G ->
        prev !! v = Some nullNode).
Proof. intros Hnn. by apply full_reach. Qed.

Lemma full_search_reaches_witness :
  nonNegative G3
  /\ @Dijkstra MapHeap.instance Decimal.instance 4 G3 A None None
     = Return (Maps G3dist G3prev)
  /\ G3dist !! A = Some (Finite 0)
  /\ getPrev G3prev A = nullNode.
Proof.
  assert (Hrun : @Dijkstra MapHeap.instance Decimal.instance 4 G3 A None None
                 = Return (Maps G3dist G3prev)) by reflexivity.
  split; [exact G3_nonNegative|]. split; [exact Hrun|].
  destruct (full_search_reaches MapHeap.instance Decimal.instance G3 A 4
              G3dist G3prev G3_nonNegative Hrun) as (H0 & Hp & _).
  split; [exact H0 | exact Hp].
Defined.

Section TargetResults.
Context {FH : FibonacciHeap} {TN : ToNumber}.
Variables (G : WeightedGraph.t) (s : node).
Hypothesis weights_nonneg : nonNegative G.

Lemma target_valid t O fuel p :
  t ∈ WeightedGraph.nodesIterator G ->
  Dijkstra fuel G s (Some t) O = Return (Path p) ->
  p <> [] ->
  head p = Some s /\ last p = Some t
  /\ exists d,
       pathWeight G p = Some (Finite d)
       /\ (forall o, O = Some o -> d <= maxCumulWeight o \/ t = s)
       /\ (O = None -> forall q W,
             head q = Some s -> last q = Some t -> pathWeight G q = Some W ->
             number_le (Finite d) W).
Proof.
  intros Hnode Hrun Hne. unfold Dijkstra in Hrun.
  destruct (loop fuel G (Some t) O (init G s)) as [stE| |] eqn:Hloop;
    simpl in Hrun; try done.
  destruct (tracePath fuel (prev stE) t (Some s)) as [p'| |] eqn:Htp;
    simpl in Hrun; try done.
  injection Hrun as ->.
  destruct (loop_inv G s weights_nonneg (Some t) O fuel [] 0 (init G s) stE
              (init_inv G s) Hloop) as (finE & mE & HIE & _).
  unfold tracePath in Htp.
  destruct (negb (bool_decide (prev stE !! t = Some nullNode))
            || isSource (Some s) t) eqn:Hguard; [|by injection Htp as <-].
  apply tracePath_while_Return in Htp as (q & -> & Htr). rewrite app_nil_r in *.
  destruct (getDist (dist stE) t) as [d|] eqn:Hd.
  - destruct (inv_chain _ _ _ _ _ HIE t d Hd) as (q' & Htr' & Hpw & Hel).
    pose proof (traces_functional _ _ _ _ Htr Htr') as ->.
    split; [by eapply chain_head|].
    split; [by destruct (traces_links _ _ _ Htr) as (? & _)|].
    exists d. split; [done|]. split.
    + intros o ->.
      destruct (loop_withinBudget s o G (Some t) fuel _ _
                  (init_withinBudget s o G) Hloop t d Hd) as [Hle|[-> _]];
        [by left | by right].
    + intros -> w W Hh Hl HW.
      set (N0 := S (length (universe G s))).
      destruct (full_settled G s weights_nonneg)
        as (stF & finF & mF & HrunF & HIF & HsetF & HcF).
      destruct (early_full G s weights_nonneg t None N0 [] 0 (init G s) stF
                  (init_inv G s)) as (stE' & finE' & mE' & HrunE' & _ & HdE');
        [apply HrunF; unfold N0; lia|].
      assert (stE' = stE) as ->.
      { pose proof (loop_fuel_mono G (Some t) None fuel (Nat.max fuel N0) _ _ Hloop
                      (Nat.le_max_l _ _)) as H1.
        pose proof (loop_fuel_mono G (Some t) None N0 (Nat.max fuel N0) _ _ HrunE'
                      (Nat.le_max_r _ _)) as H2.
        congruence. }
      pose proof (settled_optimal G s weights_nonneg finF mF stF HIF HsetF HcF
                    w t W Hh Hl HW) as Hopt.
      by rewrite <- HdE', Hd in Hopt.
  - exfalso.
    assert (Hroot : getPrev (prev stE) t = nullNode).
    { destruct (getPrev (prev stE) t) as [u|] eqn:Hu; [|done].
      destruct (inv_tree _ _ _ _ _ HIE t u Hu)
        as (_ & du & w & d & _ & _ & _ & Hfin).
      congruence. }
    destruct (inv_nodes _ _ _ _ _ HIE t Hnode) as [[u|] Hp].
    + apply getPrev_Some in Hp. unfold nullNode in Hroot. congruence.
    + rewrite Hp, bool_decide_eq_true_2 in Hguard by done. simpl in Hguard.
      apply andb_prop in Hguard as [_ ->%bool_decide_eq_true].
      destruct (inv_source _ _ _ _ _ HIE) as [_ Hs]. congruence.
Qed.

End TargetResults.

(** X19: on non-negative weights, a non-empty path returned for a target
    that is a node of the graph starts at the source, ends at the target and
    follows arcs that have weights; its weight, summed from the source on as
    line 85 sums, is finite; under the option [maxCumulWeight] that weight
    is within the bound (unless the target is the source), and without the
    option no walk from the source to the target weighs less. *)
Theorem target_path_is_valid_and_shortest
    (FH : FibonacciHeap) (TN : ToNumber) (G : WeightedGraph.t) (s t : node)
    (O : option DijkstraOptions) (fuel : nat) (p : list node) :
  nonNegative G ->
  t ∈ WeightedGraph.nodesIterator G ->
  Dijkstra fuel G s (Some t) O = Return (Path p) ->
  p <> [] ->
  head p = Some s /\ last p = Some t
  /\ exists d,
       pathWeight G p = Some (Finite d)
       /\ (forall o, O = Some o -> d <= maxCumulWeight o \/ t = s)
       /\ (O = None -> forall q W,
             head q = Some s -> last q = Some t -> pathWeight G q = Some W ->
             number_le (Finite d) W).
Proof. intros Hnn. by apply target_valid. Qed.

Lemma target_path_is_valid_and_shortest_witness :
  nonNegative G3
  /\ C ∈ WeightedGraph.nodesIterator G3
  /\ @Dijkstra MapHeap.instance Decimal.instance 4 G3 A (Some C) None
     = Return (Path [A; B; C])
  /\ head [A; B; C] = Some A /\ last [A; B; C] = Some C.
Proof.
  assert (Hnode : C ∈ WeightedGraph.nodesIterator G3)
    by (right; right; left).
  assert (Hrun : @Dijkstra MapHeap.instance Decimal.instance 4 G3 A (Some C) None
                 = Return (Path [A; B; C])) by reflexivity.
  split; [exact G3_nonNegative|]. split; [exact Hnode|]. split; [exact Hrun|].
  destruct (target_path_is_valid_and_shortest MapHeap.instance Decimal.instance
              G3 A C None 4 [A; B; C] G3_nonNegative Hnode Hrun
              ltac:(discriminate)) as (Hh & Hl & _).
  split; [exact Hh | exact Hl].
Defined.

(** X20: on non-negative weights the distances of the full search do not
    depend on the priority queue, whatever it does with ties, nor on how
    strings convert to numbers. *)
Theorem distances_independent_of_queue
    (FH1 FH2 : FibonacciHeap) (TN1 TN2 : ToNumber)
    (G : WeightedGraph.t) (s : node) (fuel1 fuel2 : nat)
    (dist1 dist2 : gmap node number) (prev1 prev2 : gmap node nodeOrNullNode) :
  nonNegative G ->
  @Dijkstra FH1 TN1 fuel1 G s None None = Return (Maps dist1 prev1) ->
  @Dijkstra FH2 TN2 fuel2 G s None None = Return (Maps dist2 prev2) ->
  forall v, getDist dist1 v = getDist dist2 v.
Proof.
  intros Hnn H1 H2 v.
  destruct (full_shortest G s Hnn fuel1 dist1 prev1 H1) as [Hopt1 Hatt1].
  destruct (full_shortest G s Hnn fuel2 dist2 prev2 H2) as [Hopt2 Hatt2].
  destruct (getDist dist1 v) as [a|] eqn:Ha, (getDist dist2 v) as [b|] eqn:Hb.
  - pose proof Ha as Ha'. pose proof Hb as Hb'.
    apply getDist_Finite in Ha', Hb'.
    destruct (Hatt1 v a Ha') as (q1 & Hh1 & Hl1 & Hw1).
    destruct (Hatt2 v b Hb') as (q2 & Hh2 & Hl2 & Hw2).
    pose proof (Hopt2 q1 v (Finite a) Hh1 Hl1 Hw1) as Hle1.
    pose proof (Hopt1 q2 v (Finite b) Hh2 Hl2 Hw2) as Hle2.
    rewrite Hb in Hle1. rewrite Ha in Hle2. simpl in *. f_equal. lia.
  - pose proof Ha as Ha'. apply getDist_Finite in Ha'.
    destruct (Hatt1 v a Ha') as (q1 & Hh1 & Hl1 & Hw1).
    pose proof (Hopt2 q1 v (Finite a) Hh1 Hl1 Hw1) as Hle1.
    by rewrite Hb in Hle1.
  - pose proof Hb as Hb'. apply getDist_Finite in Hb'.
    destruct (Hatt2 v b Hb') as (q2 & Hh2 & Hl2 & Hw2).
    pose proof (Hopt1 q2 v (Finite b) Hh2 Hl2 Hw2) as Hle2.
    by rewrite Ha in Hle2.
  - done.
Qed.

Lemma Gdiamond_nonNegative : nonNegative Gdiamond.
Proof. by apply nonNegativeb_spec. Qed.

Lemma distances_independent_of_queue_witness :
  nonNegative Gdiamond
  /\ @Dijkstra MapHeap.instance Decimal.instance 5 Gdiamond A None None
     = Return (Maps (<[D := Finite 2]> (<[C := Finite 1]>
                       (<[B := Finite 1]> {[A := Finite 0]})))
                    (<[D := Some C]> (<[C := Some A]>
                       (<[B := Some A]> {[A := nullNode]}))))
  /\ @Dijkstra TieLastHeap.instance Decimal.instance 5 Gdiamond A None None
     = Return (Maps (<[D := Finite 2]> (<[C := Finite 1]>
                       (<[B := Finite 1]> {[A := Finite 0]})))
                    (<[D := Some B]> (<[C := Some A]>
                       (<[B := Some A]> {[A := nullNode]}))))
  /\ forall v,
       getDist (<[D := Finite 2]> (<[C := Finite 1]>
                  (<[B := Finite 1]> {[A := Finite 0]}))) v
       = getDist (<[D := Finite 2]> (<[C := Finite 1]>
                    (<[B := Finite 1]> {[A := Finite 0]}))) v.
Proof.
  assert (H1 : @Dijkstra MapHeap.instance Decimal.instance 5 Gdiamond A None None
               = Return (Maps (<[D := Finite 2]> (<[C := Finite 1]>
                                 (<[B := Finite 1]> {[A := Finite 0]})))
                              (<[D := Some C]> (<[C := Some A]>
                                 (<[B := Some A]> {[A := nullNode]})))))
    by reflexivity.
  assert (H2 : @Dijkstra TieLastHeap.instance Decimal.instance 5 Gdiamond A None None
               = Return (Maps (<[D := Finite 2]> (<[C := Finite 1]>
                                 (<[B := Finite 1]> {[A := Finite 0]})))
                              (<[D := Some B]> (<[C := Some A]>
                                 (<[B := Some A]> {[A := nullNode]})))))
    by reflexivity.
  split; [exact Gdiamond_nonNegative|]. split; [exact H1|]. split; [exact H2|].
  exact (distances_independent_of_queue MapHeap.instance TieLastHeap.instance
           Decimal.instance Decimal.instance Gdiamond A 5 5 _ _ _ _
           Gdiamond_nonNegative H1 H2).
Defined.

(** X21: when the run with one priority queue never has two pending
    entries tie for the minimum, the search returns the same result with
    every other priority queue that meets the contract. *)
Theorem queue_independent_without_ties
    (FH1 FH2 : FibonacciHeap) (TN : ToNumber) (fuel : nat)
    (G : WeightedGraph.t) (s : node) (t : option node)
    (O : option DijkstraOptions) :
  tieFree fuel G t O (@init FH1 TN G s) = true ->
  @Dijkstra FH2 TN fuel G s t O = @Dijkstra FH1 TN fuel G s t O.
Proof. by apply Dijkstra_agree. Qed.

Lemma queue_independent_without_ties_witness :
  tieFree 4 G3 None None (@init MapHeap.instance Decimal.instance G3 A) = true
  /\ @Dijkstra TieLastHeap.instance Decimal.instance 4 G3 A None None
     = @Dijkstra MapHeap.instance Decimal.instance 4 G3 A None None.
Proof.
  split; [reflexivity|].
  exact (queue_independent_without_ties MapHeap.instance TieLastHeap.instance
           Decimal.instance 4 G3 A None None eq_refl).
Defined.

Lemma reachable_staysWithin G s l v :
  s ∈ l -> staysWithin G l = true -> reachable G s v -> v ∈ l.
Proof.
  intros Hs Hl. induction 1 as [|u v _ Hu Harc]; [done|].
  unfold staysWithin in Hl. rewrite forallb_forall in Hl.
  specialize (Hl u ltac:(by apply list_elem_of_In)).
  rewrite forallb_forall in Hl. apply arc_neighbors in Harc.
  specialize (Hl v ltac:(by apply list_elem_of_In)).
  by apply bool_decide_eq_true in Hl.
Qed.

Lemma D_unreachable G :
  staysWithin G [A; B; C] = true -> ~ reachable G A D.
Proof.
  intros Hl Hreach.
  pose proof (reachable_staysWithin G A [A; B; C] D ltac:(left) Hl Hreach) as Hin.
  repeat (apply elem_of_cons in Hin as [Hin|Hin]; [discriminate|]).
  by apply elem_of_nil in Hin.
Qed.

(** X22: on non-negative weights, with or without the option, the search
    for a target that is a node of the graph and cannot be reached from the
    source returns the empty path. *)
Theorem unreachable_node_gets_empty_path
    (FH : FibonacciHeap) (TN : ToNumber) (G : WeightedGraph.t) (s t : node)
    (O : option DijkstraOptions) (fuel : nat) :
  nonNegative G ->
  t ∈ WeightedGraph.nodesIterator G ->
  ~ reachable G s t ->
  (length (universe G s) < fuel)%nat ->
  Dijkstra fuel G s (Some t) O = Return (Path []).
Proof. intros Hnn Hnode Hun Hfuel. by apply unreached_node_path. Qed.

Lemma unreachable_node_gets_empty_path_witness :
  nonNegative (WeightedGraph.addNode G3 D)
  /\ D ∈ WeightedGraph.nodesIterator (WeightedGraph.addNode G3 D)
  /\ ~ reachable (WeightedGraph.addNode G3 D) A D
  /\ (length (universe (WeightedGraph.addNode G3 D) A) < 9)%nat
  /\ @Dijkstra MapHeap.instance Decimal.instance 9
       (WeightedGraph.addNode G3 D) A (Some D) None
     = Return (Path []).
Proof.
  assert (Hnn : nonNegative (WeightedGraph.addNode G3 D))
    by (by apply nonNegativeb_spec).
  assert (Hnode : D ∈ WeightedGraph.nodesIterator (WeightedGraph.addNode G3 D))
    by (do 3 right; left).
  assert (Hun : ~ reachable (WeightedGraph.addNode G3 D) A D)
    by (by apply D_unreachable).
  assert (Hfuel : (length (universe (WeightedGraph.addNode G3 D) A) < 9)%nat)
    by (vm_compute; lia).
  split; [exact Hnn|]. split; [exact Hnode|]. split; [exact Hun|].
  split; [exact Hfuel|].
  exact (unreachable_node_gets_empty_path MapHeap.instance Decimal.instance
           (WeightedGraph.addNode G3 D) A D None 9 Hnn Hnode Hun Hfuel).
Defined.

(** X23: on non-negative weights, with or without the option, the search
    for a target that is no node of the graph and cannot be reached returns
    the path made of the target alone. *)
Theorem absent_target_gets_one_element_path
    (FH : FibonacciHeap) (TN : ToNumber) (G : WeightedGraph.t) (s t : node)
    (O : option DijkstraOptions) (fuel : nat) :
  nonNegative G ->
  t ∉ WeightedGraph.nodesIterator G ->
  ~ reachable G s t ->
  (length (universe G s) < fuel)%nat ->
  Dijkstra fuel G s (Some t) O = Return (Path [t]).
Proof. intros Hnn Hnode Hun Hfuel. by apply absent_target_path. Qed.

Lemma absent_target_gets_one_element_path_witness :
  nonNegative G3
  /\ (D ∉ WeightedGraph.nodesIterator G3)
  /\ ~ reachable G3 A D
  /\ (length (universe G3 A) < 8)%nat
  /\ @Dijkstra MapHeap.instance Decimal.instance 8 G3 A (Some D) None
     = Return (Path [D]).
Proof.
  assert (Hnode : D ∉ WeightedGraph.nodesIterator G3).
  { intros Hin.
    repeat (apply elem_of_cons in Hin as [Hin|Hin]; [discriminate|]).
    by apply elem_of_nil in Hin. }
  assert (Hun : ~ reachable G3 A D) by (by apply D_unreachable).
  assert (Hfuel : (length (universe G3 A) < 8)%nat) by (vm_compute; lia).
  split; [exact G3_nonNegative|]. split; [exact Hnode|]. split; [exact Hun|].
  split; [exact Hfuel|].
  exact (absent_target_gets_one_element_path MapHeap.instance Decimal.instance
           G3 A D None 8 G3_nonNegative Hnode Hun Hfuel).
Defined.

(** X24: on every graph, with any weights, the search whose target is its
    source returns after one turn of the loop: the path made of the source
    alone, or the empty path when the source is a node of the graph and is
    the number 0 or the empty string. *)
Theorem source_target_path
    (FH : FibonacciHeap) (TN : ToNumber) (G : WeightedGraph.t) (s : node)
    (O : option DijkstraOptions) (fuel : nat) :
  Dijkstra (S fuel) G s (Some s) O
  = Return (Path (if bool_decide (s ∈ WeightedGraph.nodesIterator G)
                     && negb (truthy s)
                  then [] else [s])).
Proof. apply source_as_target. Qed.

(** X25: [addNode(n)] registers [n], changes no arc, counts one more node
    exactly when [n] was not registered, and doing it twice is doing it
    once. *)
Theorem addNode_registers (G : Graph.t) (n : node) :
  n ∈ Graph.nodes (Graph.addNode G n)
  /\ (forall x y, Graph.arc (Graph.addNode G n) x y = Graph.arc G x y)
  /\ Graph.ordre (Graph.addNode G n)
     = (if JSMap.has (Graph.adj G) n then Graph.ordre G else S (Graph.ordre G))
  /\ Graph.addNode (Graph.addNode G n) n = Graph.addNode G n.
Proof.
  split; [apply elem_of_nodes_addNode; by left|].
  split; [intros x y; apply arc_addNode|]. split.
  - pose proof (nodes_addNode G n) as Hn.
    unfold Graph.ordre, Graph.nodes, Graph.nodesIterator, JSMap.keys in *.
    apply (f_equal length) in Hn. rewrite !length_map in Hn. rewrite Hn.
    destruct (JSMap.has (Graph.adj G) n); [by rewrite length_map|].
    rewrite length_app, length_map. simpl. lia.
  - apply addNode_present, has_addNode. by left.
Qed.

Lemma edge_after_addEdge_removeEdge_witness :
  ~ (A = A /\ C = B) /\ ~ (A = B /\ C = A)
  /\ Graph.arc (Graph.addEdge (WeightedGraph.super G3) A B) A C
     = Graph.arc (WeightedGraph.super G3) A C.
Proof.
  assert (H1 : ~ (A = A /\ C = B)) by (intros [_ ?]; discriminate).
  assert (H2 : ~ (A = B /\ C = A)) by (intros [? _]; discriminate).
  split; [exact H1|]. split; [exact H2|].
  exact (proj1 (proj2 (proj2 (proj2
           (edge_after_addEdge_removeEdge (WeightedGraph.super G3) A B)))
           A C H1 H2)).
Defined.

Lemma Dijkstra_never_throws_witness :
  @Dijkstra MapHeap.instance Decimal.instance 2 G3 A None None
  <> Throw "Invalid nodes".
Proof.
  exact (Dijkstra_never_throws MapHeap.instance Decimal.instance 2 G3 A None None
           "Invalid nodes").
Defined.
